(** * mapbox.js: URL normalisation and telemetry queues

    A shallow embedding of [src/util/mapbox.js].  The first half covers the
    URL helpers ([parseUrl], [formatUrl], [makeAPIURL] and the [normalize*URL]
    wrappers) together with the three regular expressions they rely on.  The
    second half covers the two telemetry queues ([MapLoadEvent] and
    [TurnstileEvent]) as explicit state passing over the module's state. *)

From Stdlib Require Import QArith Ascii.
From stdpp Require Import base numbers option list gmap strings.

Local Open Scope Z_scope.

(** ** JavaScript strings

    A JavaScript string is a sequence of UTF-16 code units; a code unit is
    modelled by its number.  [js] turns an ASCII literal of the source into
    such a sequence. *)

Abbreviation jsstring := (list N).

Definition ch (a : Ascii.ascii) : N := Ascii.N_of_ascii a.
Arguments ch a%_char_scope.

Fixpoint js (s : string) : jsstring :=
  match s with
  | EmptyString => []
  | String a s' => ch a :: js s'
  end.

Arguments ch : simpl never.
Arguments js : simpl never.

(** [a.startsWith(b)] as a boolean. *)
Fixpoint starts_with (p s : jsstring) : bool :=
  match p, s with
  | [], _ => true
  | _ :: _, [] => false
  | a :: p', b :: s' => N.eqb a b && starts_with p' s'
  end.

(** [s.indexOf(p)]: the first index at which [p] occurs in [s], or -1. *)
Fixpoint indexOf_from (p s : jsstring) (i : Z) : Z :=
  if starts_with p s then i
  else match s with
       | [] => -1
       | _ :: s' => indexOf_from p s' (i + 1)
       end.

Definition indexOf (s p : jsstring) : Z := indexOf_from p s 0.

(** [s.split(sep)] for a one-character separator: never the empty array. *)
Fixpoint split (sep : N) (s : jsstring) : list jsstring :=
  match s with
  | [] => [[]]
  | c :: s' =>
      if N.eqb c sep then [] :: split sep s'
      else match split sep s' with
           | h :: t => (c :: h) :: t
           | [] => [[c]]
           end
  end.

(** [a.join(sep)]. *)
Fixpoint join (sep : jsstring) (l : list jsstring) : jsstring :=
  match l with
  | [] => []
  | [x] => x
  | x :: rest => x ++ sep ++ join sep rest
  end.

(** JavaScript truthiness of the values the module tests. *)
Definition truthy_str (o : option jsstring) : bool :=
  match o with
  | Some (_ :: _) => true
  | _ => false
  end.

Definition truthy_num (o : option Z) : bool :=
  match o with
  | Some n => negb (n =? 0)
  | None => false
  end.

(** [x || ''] on an optional string: the empty string is the only falsy
    string, so it is its own default. *)
Definition or_empty (o : option jsstring) : jsstring :=
  match o with
  | Some s => s
  | None => []
  end.

(** ** A backtracking matcher for the regular expressions of the module

    The three patterns of the source only repeat single-character classes, so
    [Star] and [Plus] take a class.  Matching is the backtracking of the
    language: greedy quantifiers try the longest repetition first and give
    characters back when the rest of the pattern fails; the continuation [k]
    is the rest of the pattern. *)

Inductive regex : Type :=
| Eps
| Chr (c : N)
| Cls (p : N → bool)
| Bos
| Eos
| Seq (r1 r2 : regex)
| Alt (r1 r2 : regex)
| Opt (r : regex)
| Star (p : N → bool)
| Plus (p : N → bool)
| Grp (i : nat) (r : regex)
| Ahead (r : regex).

(** Capture [0] is the whole match, capture [i] the text of group [i];
    [None] is [undefined]. *)
Abbreviation captures := (list (option jsstring)).

Definition cont : Type := nat → jsstring → captures → option (nat * captures).

(** Canonicalisation under the [i] flag: a lower-case ASCII letter becomes its
    upper-case letter.  No code unit outside ASCII canonicalises to an ASCII
    one, so on the ASCII literals of the patterns this is the whole story. *)
Definition canon (c : N) : N :=
  if (97 <=? c)%N && (c <=? 122)%N then (c - 32)%N else c.

Definition chr_eq (ic : bool) (c x : N) : bool :=
  if ic then N.eqb (canon c) (canon x) else N.eqb c x.

Fixpoint star_m (p : N → bool) (k : cont) (pos : nat) (s : jsstring)
    (caps : captures) {struct s} : option (nat * captures) :=
  match s with
  | x :: s' =>
      if p x then
        match star_m p k (S pos) s' caps with
        | Some r => Some r
        | None => k pos s caps
        end
      else k pos s caps
  | [] => k pos s caps
  end.

Fixpoint rmatch (ic : bool) (r : regex) (k : cont) (pos : nat) (s : jsstring)
    (caps : captures) {struct r} : option (nat * captures) :=
  match r with
  | Eps => k pos s caps
  | Chr c =>
      match s with
      | x :: s' => if chr_eq ic c x then k (S pos) s' caps else None
      | [] => None
      end
  | Cls p =>
      match s with
      | x :: s' => if p x then k (S pos) s' caps else None
      | [] => None
      end
  | Bos => if Nat.eqb pos 0 then k pos s caps else None
  | Eos => match s with [] => k pos s caps | _ :: _ => None end
  | Seq r1 r2 => rmatch ic r1 (rmatch ic r2 k) pos s caps
  | Alt r1 r2 =>
      match rmatch ic r1 k pos s caps with
      | Some x => Some x
      | None => rmatch ic r2 k pos s caps
      end
  | Opt r1 =>
      match rmatch ic r1 k pos s caps with
      | Some x => Some x
      | None => k pos s caps
      end
  | Star p => star_m p k pos s caps
  | Plus p =>
      match s with
      | x :: s' => if p x then star_m p k (S pos) s' caps else None
      | [] => None
      end
  | Grp i r1 =>
      rmatch ic r1
        (fun pos' s' caps' =>
           k pos' s' (<[i := Some (take (pos' - pos)%nat s)]> caps'))
        pos s caps
  | Ahead r1 =>
      match rmatch ic r1 (fun e _ caps' => Some (e, caps')) pos s caps with
      | Some (_, caps') => k pos s caps'
      | None => None
      end
  end.

(** A compiled pattern: its body, the [i] flag and its number of groups. *)
Record RegExp := {
  body : regex;
  ignoreCase : bool;
  groups : nat
}.

Record MatchResult := {
  index : nat;
  lastIndex : nat;
  parts : captures
}.

(** [re.exec(s)] for a pattern without the [g] flag: the leftmost start index
    at which the pattern matches. *)
Fixpoint exec_from (re : RegExp) (pos : nat) (s : jsstring) : option MatchResult :=
  match rmatch (ignoreCase re) (body re) (fun e _ caps => Some (e, caps)) pos s
          (replicate (S (groups re)) None) with
  | Some (e, caps) =>
      Some {| index := pos; lastIndex := e;
              parts := <[0%nat := Some (take (e - pos)%nat s)]> caps |}
  | None =>
      match s with
      | [] => None
      | _ :: s' => exec_from re (S pos) s'
      end
  end.

Definition exec (re : RegExp) (s : jsstring) : option MatchResult := exec_from re 0 s.

(** [re.test(s)]. *)
Definition test (re : RegExp) (s : jsstring) : bool :=
  match exec re s with Some _ => true | None => false end.

(** [parts[i]]. *)
Definition part (m : MatchResult) (i : nat) : option jsstring :=
  match parts m !! i with
  | Some o => o
  | None => None
  end.

(** The replacement text of [s.replace(re, template)]: [$$], [$&] and
    [$1]..[$9] are substituted, an unmatched group gives the empty string and
    a reference to a group the pattern does not have stays as written.  The
    only reference in the templates of the module is [$1]. *)
Fixpoint getSubstitution (m : MatchResult) (template : jsstring) : jsstring :=
  match template with
  | [] => []
  | c :: t =>
      if N.eqb c (ch "$") then
        match t with
        | d :: t' =>
            if N.eqb d (ch "$") then ch "$" :: getSubstitution m t'
            else if N.eqb d (ch "&") then or_empty (part m 0) ++ getSubstitution m t'
            else if (49 <=? d)%N && (d <=? 57)%N
                    && (N.to_nat (d - 48) <? length (parts m))%nat
                 then or_empty (part m (N.to_nat (d - 48))) ++ getSubstitution m t'
                 else c :: getSubstitution m t
        | [] => [c]
        end
      else c :: getSubstitution m t
  end.

(** [s.replace(re, template)] for a pattern without the [g] flag. *)
Definition replace_re (s : jsstring) (re : RegExp) (template : jsstring) : jsstring :=
  match exec re s with
  | Some m => take (index m) s ++ getSubstitution m template ++ drop (lastIndex m) s
  | None => s
  end.

(** Character classes of the patterns. *)
Definition is_word (c : N) : bool :=
  ((48 <=? c) && (c <=? 57) || (65 <=? c) && (c <=? 90)
   || (97 <=? c) && (c <=? 122) || (c =? 95))%N.

Definition is_digit (c : N) : bool := ((48 <=? c) && (c <=? 57))%N.

(** Line terminators: LF, CR, U+2028 and U+2029; [.] matches anything else. *)
Definition is_line_terminator (c : N) : bool :=
  ((c =? 10) || (c =? 13) || (c =? 8232) || (c =? 8233))%N.

Definition dot (c : N) : bool := negb (is_line_terminator c).

Definition not_slash (c : N) : bool := negb (N.eqb c (ch "/")).
Definition not_question (c : N) : bool := negb (N.eqb c (ch "?")).
Definition not_slash_question (c : N) : bool := not_slash c && not_question c.

Definition cat (rs : list regex) : regex := foldr Seq Eps rs.
Definition lit (s : string) : regex := cat (Chr <$> js s).

(** ** The URL helpers *)

Inductive Error :=
| UnableToParseURL      (* 'Unable to parse URL object' *)
| AccessTokenRequired   (* 'An API access token is required to use Mapbox GL.' *)
| SecretAccessToken     (* 'Use a public access token ..., not a secret access token' *)
| TypeError.            (* a property of [null] is read or set, or a property
                           of a number, a string or a boolean is set *)

(** The value of a call that may throw. *)
Inductive result (A : Type) :=
| Ok (a : A)
| Throw (e : Error).
Arguments Ok {A} a.
Arguments Throw {A} e.

(** [config] (./config) and [browser] (./browser): the fields the module reads. *)
Record Config := {
  API_URL : jsstring;
  EVENTS_URL : jsstring;
  REQUIRE_ACCESS_TOKEN : bool;
  ACCESS_TOKEN : option jsstring
}.

Record Browser := {
  devicePixelRatio : Q;
  supportsWebp : bool
}.

Record UrlObject := {
  protocol : jsstring;
  authority : jsstring;
  path : jsstring;
  params : list jsstring
}.

(** [mapboxHTTPURLRe], with the [i] flag:
    [^  ((https?:)?\/\/)?  ([^\/]+\.)?  mapbox\.c  (n|om)  (\/|\?|$)]. *)
Definition mapboxHTTPURLRe : RegExp :=
  {| body :=
       cat [Bos;
            Opt (Grp 1 (cat [Opt (Grp 2 (cat [lit "http"; Opt (Chr (ch "s")); Chr (ch ":")]));
                             Chr (ch "/"); Chr (ch "/")]));
            Opt (Grp 3 (cat [Plus not_slash; Chr (ch ".")]));
            lit "mapbox"; Chr (ch "."); Chr (ch "c");
            Grp 4 (Alt (Chr (ch "n")) (lit "om"));
            Grp 5 (Alt (Chr (ch "/")) (Alt (Chr (ch "?")) Eos))];
     ignoreCase := true;
     groups := 5 |}.

(** [imageExtensionRe]: group 1 is [\.], group 2 [(png|jpg)] and [\d*];
    it is followed by the lookahead [(?=$)]. *)
Definition imageExtensionRe : RegExp :=
  {| body :=
       cat [Grp 1 (cat [Chr (ch "."); Grp 2 (Alt (lit "png") (lit "jpg")); Star is_digit]);
            Ahead Eos];
     ignoreCase := false;
     groups := 2 |}.

(** [urlRe]: [^], group 1 [\w+], [:\/\/], group 2 [[^/?]*], the optional
    group 3 [\/[^?]+], the optional [\?] and the optional group 4 [.+]. *)
Definition urlRe : RegExp :=
  {| body :=
       cat [Bos;
            Grp 1 (Plus is_word);
            Chr (ch ":"); Chr (ch "/"); Chr (ch "/");
            Grp 2 (Star not_slash_question);
            Opt (Grp 3 (cat [Chr (ch "/"); Plus not_question]));
            Opt (Chr (ch "?"));
            Opt (Grp 4 (Plus dot))];
     ignoreCase := false;
     groups := 4 |}.

Definition isMapboxURL (url : jsstring) : bool :=
  indexOf url (js "mapbox:") =? 0.

Definition isMapboxHTTPURL (url : jsstring) : bool :=
  test mapboxHTTPURLRe url.

Definition parseUrl (url : jsstring) : result UrlObject :=
  match exec urlRe url with
  | None => Throw UnableToParseURL
  | Some m =>
      Ok {| protocol := or_empty (part m 1);
            authority := or_empty (part m 2);
            path := if truthy_str (part m 3) then or_empty (part m 3) else js "/";
            params := if truthy_str (part m 4) then split (ch "&") (or_empty (part m 4))
                      else [] |}
  end.

Definition formatUrl (obj : UrlObject) : jsstring :=
  let params :=
    match params obj with
    | [] => []
    | _ :: _ => js "?" ++ join (js "&") (params obj)
    end in
  protocol obj ++ js "://" ++ authority obj ++ path obj ++ params.

Definition with_path (p : jsstring) (o : UrlObject) : UrlObject :=
  {| protocol := protocol o; authority := authority o; path := p; params := params o |}.

Definition with_params (ps : list jsstring) (o : UrlObject) : UrlObject :=
  {| protocol := protocol o; authority := authority o; path := path o; params := ps |}.

(** [params.push(p)]. *)
Definition push_param (p : jsstring) (o : UrlObject) : UrlObject :=
  with_params (params o ++ [p]) o.

(** [accessToken[0] === 's'] *)
Definition first_is_s (token : jsstring) : bool :=
  match token with
  | c :: _ => N.eqb c (ch "s")
  | [] => false
  end.

(** [makeAPIURL] updates the object it is given in place and returns the
    formatted string; every caller hands it an object fresh from [parseUrl]
    and drops it afterwards, so only the returned string is kept here. *)
Definition makeAPIURL (config : Config) (urlObject : UrlObject)
    (accessToken : option jsstring) : result jsstring :=
  match parseUrl (API_URL config) with
  | Throw e => Throw e
  | Ok apiUrlObject =>
      let urlObject :=
        {| protocol := protocol apiUrlObject;
           authority := authority apiUrlObject;
           path := if bool_decide (path apiUrlObject ≠ js "/")
                   then path apiUrlObject ++ path urlObject
                   else path urlObject;
           params := params urlObject |} in
      if negb (REQUIRE_ACCESS_TOKEN config) then Ok (formatUrl urlObject)
      else
        let accessToken :=
          if truthy_str accessToken then accessToken else ACCESS_TOKEN config in
        if negb (truthy_str accessToken) then Throw AccessTokenRequired
        else if first_is_s (or_empty accessToken) then Throw SecretAccessToken
        else Ok (formatUrl (push_param (js "access_token=" ++ or_empty accessToken) urlObject))
  end.

Definition normalizeStyleURL (config : Config) (url : jsstring)
    (accessToken : option jsstring) : result jsstring :=
  if negb (isMapboxURL url) then Ok url
  else match parseUrl url with
       | Throw e => Throw e
       | Ok urlObject =>
           makeAPIURL config (with_path (js "/styles/v1" ++ path urlObject) urlObject) accessToken
       end.

Definition normalizeGlyphsURL (config : Config) (url : jsstring)
    (accessToken : option jsstring) : result jsstring :=
  if negb (isMapboxURL url) then Ok url
  else match parseUrl url with
       | Throw e => Throw e
       | Ok urlObject =>
           makeAPIURL config (with_path (js "/fonts/v1" ++ path urlObject) urlObject) accessToken
       end.

Definition normalizeSourceURL (config : Config) (url : jsstring)
    (accessToken : option jsstring) : result jsstring :=
  if negb (isMapboxURL url) then Ok url
  else match parseUrl url with
       | Throw e => Throw e
       | Ok urlObject =>
           makeAPIURL config
             (push_param (js "secure")
                (with_path (js "/v4/" ++ authority urlObject ++ js ".json") urlObject))
             accessToken
       end.

Definition normalizeSpriteURL (config : Config) (url format extension : jsstring)
    (accessToken : option jsstring) : result jsstring :=
  match parseUrl url with
  | Throw e => Throw e
  | Ok urlObject =>
      if negb (isMapboxURL url)
      then Ok (formatUrl (with_path (path urlObject ++ format ++ extension) urlObject))
      else makeAPIURL config
             (with_path (js "/styles/v1" ++ path urlObject ++ js "/sprite" ++ format ++ extension)
                urlObject)
             accessToken
  end.

(** The loop of [replaceTempAccessToken], from index [i], with [n] indices
    left to visit. *)
Fixpoint replaceTempAccessToken_loop (config : Config) (n i : nat)
    (params : list jsstring) : list jsstring :=
  match n with
  | O => params
  | S n' =>
      let params :=
        match params !! i with
        | Some p =>
            if indexOf p (js "access_token=tk.") =? 0
            then <[i := js "access_token=" ++ or_empty (ACCESS_TOKEN config)]> params
            else params
        | None => params
        end in
      replaceTempAccessToken_loop config n' (S i) params
  end.

Definition replaceTempAccessToken (config : Config) (params : list jsstring) : list jsstring :=
  replaceTempAccessToken_loop config (length params) 0 params.

Definition normalizeTileURL (config : Config) (browser : Browser) (tileURL : jsstring)
    (sourceURL : option jsstring) (tileSize : option Z) : result jsstring :=
  if negb (truthy_str sourceURL) || negb (isMapboxURL (or_empty sourceURL)) then Ok tileURL
  else match parseUrl tileURL with
       | Throw e => Throw e
       | Ok urlObject =>
           let suffix :=
             if Qle_bool 2 (devicePixelRatio browser) || bool_decide (tileSize = Some 512)
             then js "@2x" else [] in
           let extension := if supportsWebp browser then js ".webp" else js "$1" in
           let urlObject :=
             with_path (replace_re (path urlObject) imageExtensionRe (suffix ++ extension))
               urlObject in
           Ok (formatUrl (with_params (replaceTempAccessToken config (params urlObject)) urlObject))
       end.

(** ** The telemetry queues *)

(** What the module imports and only calls: [uuid] and [validateUuid]
    (./util), the [Date] methods it uses and the package version.  [uuid n]
    is the value of the [n]-th call of [uuid()]. *)
Class Externals := {
  validUuidFormat : jsstring → bool;
  uuid : nat → jsstring;
  toISOString : Z → jsstring;
  getDate : Z → Z;
  version : jsstring
}.

(** Modelled from the spec: [validateUuid] is defined in ./util, which is not
    part of the sources at hand; an absent id does not validate, a present
    one is checked against the UUID format. *)
Definition validateUuid `{Externals} (str : option jsstring) : bool :=
  match str with
  | Some s => validUuidFormat s
  | None => false
  end.

Definition telemEventKey : jsstring := js "mapbox.eventData".

Record EventData := {
  anonId : option jsstring;
  lastSuccess : option Z;
  accessToken : option jsstring
}.

Definition with_anonId (a : option jsstring) (d : EventData) : EventData :=
  {| anonId := a; lastSuccess := lastSuccess d; accessToken := accessToken d |}.

(** What [this.eventData] holds.  The constructor gives it an object, and
    [fetchEventData] replaces it by whatever [JSON.parse] returns for the
    stored text: an object, read as event data (a field that is missing or
    [null] is [None], a field that is there has the type it is declared
    with), or [null], or a number, a string or a boolean.  The module tells
    the last three apart in no way, so that they are one case here. *)
Inductive JsonValue :=
| Object (d : EventData)
| Null
| Primitive.

(** The properties of a value, where they can be read: a number, a string
    or a boolean has none of the three, so that each reads [undefined].
    Reading a property of [null] throws; the functions below look for [null]
    before they read. *)
Definition fields (v : JsonValue) : EventData :=
  match v with
  | Object d => d
  | Null | Primitive => {| anonId := None; lastSuccess := None; accessToken := None |}
  end.

(** An object is written where a value is expected, and [anonId v],
    [lastSuccess v] and [accessToken v] stand for the properties of the value
    [v]. *)
#[warning="-ambiguous-paths"]
Coercion Object : EventData >-> JsonValue.
#[warning="-ambiguous-paths"]
Coercion fields : JsonValue >-> EventData.

Definition is_object (v : JsonValue) : bool :=
  match v with
  | Object _ => true
  | Null | Primitive => false
  end.

Definition is_null (v : JsonValue) : bool :=
  match v with
  | Null => true
  | Object _ | Primitive => false
  end.

(** What [localStorage] holds under a key: the empty string, a string that
    [JSON.parse] rejects, or a JSON text, given by the value [JSON.parse]
    returns for it. *)
Inductive Stored :=
| Blank
| Garbage
| Json (v : JsonValue).

(** [storageAvailable('localStorage')], whether [getItem] and [setItem]
    throw, the stored items and the log of the [setItem] calls. *)
Record LocalStorage := {
  available : bool;
  getItem_throws : bool;
  setItem_throws : bool;
  items : gmap jsstring Stored;
  writes : list (jsstring * JsonValue)
}.

Record Event := {
  event : jsstring;
  created : jsstring;
  sdkIdentifier : jsstring;
  sdkVersion : jsstring;
  enabled_telemetry : option bool;
  userId : option jsstring
}.

(** [body] is the array handed to [JSON.stringify]. *)
Record RequestParameters := {
  url : jsstring;
  headers : list (jsstring * jsstring);
  request_body : list Event
}.

(** The handle [postData] returns, numbered by the order of the calls. *)
Inductive Cancelable := Handle (n : nat).

(** The error a completion callback may be given by the transport. *)
Inductive TransportError := transport_error (message : jsstring).

(** The two completion callbacks of the module, with the variables they
    close over. *)
Inductive Callback :=
| MapLoadCallback (id : Z)
| TurnstileCallback (nextUpdate : Z).

(** Everything outside the two queue objects: the storage, the requests
    handed to [postData] whose callback has not run yet, and counters and
    logs of the other calls. *)
Record Env := {
  storage : LocalStorage;
  inflight : list (Cancelable * RequestParameters * Callback);
  posted : nat;
  uuids : nat;
  warnings : list jsstring
}.

Definition with_storage (st : LocalStorage) (env : Env) : Env :=
  {| storage := st; inflight := inflight env; posted := posted env;
     uuids := uuids env; warnings := warnings env |}.

Definition with_inflight (l : list (Cancelable * RequestParameters * Callback))
    (env : Env) : Env :=
  {| storage := storage env; inflight := l; posted := posted env;
     uuids := uuids env; warnings := warnings env |}.

Definition warnOnce (msg : jsstring) (env : Env) : Env :=
  {| storage := storage env; inflight := inflight env; posted := posted env;
     uuids := uuids env; warnings := warnings env ++ [msg] |}.

(** [uuid()]: the next value of the generator. *)
Definition next_uuid `{Externals} (env : Env) : jsstring * Env :=
  (uuid (uuids env),
   {| storage := storage env; inflight := inflight env; posted := posted env;
      uuids := S (uuids env); warnings := warnings env |}).

(** [postData(request, callback)]: the transport keeps the request and its
    callback and calls the callback later; the handle is returned at once. *)
Definition postData (request : RequestParameters) (callback : Callback) (env : Env)
    : Cancelable * Env :=
  (Handle (posted env),
   {| storage := storage env;
      inflight := inflight env ++ [(Handle (posted env), request, callback)];
      posted := S (posted env); uuids := uuids env; warnings := warnings env |}).

Module TelemetryEvent.

Definition storageKey (config : Config) : jsstring :=
  telemEventKey ++ js ":" ++ or_empty (ACCESS_TOKEN config).

(** The constructor's [eventData]. *)
Definition initial_eventData (config : Config) : EventData :=
  {| anonId := None; lastSuccess := None; accessToken := ACCESS_TOKEN config |}.

(** [this.eventData = JSON.parse(data)] takes whatever value the stored
    text stands for. *)
Definition fetchEventData (config : Config) (eventData : JsonValue) (env : Env)
    : JsonValue * Env :=
  if available (storage env) then
    if getItem_throws (storage env)
    then (eventData, warnOnce (js "Unable to read from LocalStorage") env)
    else match items (storage env) !! storageKey config with
         | Some (Json v) => (v, env)
         | Some Garbage => (eventData, warnOnce (js "Unable to read from LocalStorage") env)
         | Some Blank | None => (eventData, env)
         end
  else (eventData, env).

Definition saveEventData (config : Config) (eventData : JsonValue) (env : Env) : Env :=
  if available (storage env) then
    if setItem_throws (storage env)
    then warnOnce (js "Unable to write to LocalStorage") env
    else
      let st := storage env in
      with_storage
        {| available := available st;
           getItem_throws := getItem_throws st;
           setItem_throws := setItem_throws st;
           items := <[storageKey config := Json eventData]> (items st);
           writes := writes st ++ [(storageKey config, eventData)] |}
        env
  else env.

(** The request both queues build: the events URL with the access token as
    a query parameter and a plain-text content type. *)
Definition events_request (config : Config) (eventsUrlObject : UrlObject) (e : Event)
    : RequestParameters :=
  {| url := formatUrl
              (push_param (js "access_token=" ++ or_empty (ACCESS_TOKEN config))
                 eventsUrlObject);
     headers := [(js "Content-Type", js "text/plain")];
     request_body := [e] |}.

End TelemetryEvent.

Module MapLoadEvent.
Import TelemetryEvent.

Record Entry := { id : Z; timestamp : Z }.

Record t := {
  eventData : JsonValue;
  queue : list Entry;
  pendingRequest : option Cancelable;
  success : gmap Z bool
}.

Definition with_eventData (d : JsonValue) (o : t) : t :=
  {| eventData := d; queue := queue o; pendingRequest := pendingRequest o;
     success := success o |}.
Definition with_queue (q : list Entry) (o : t) : t :=
  {| eventData := eventData o; queue := q; pendingRequest := pendingRequest o;
     success := success o |}.
Definition with_pendingRequest (p : option Cancelable) (o : t) : t :=
  {| eventData := eventData o; queue := queue o; pendingRequest := p;
     success := success o |}.
Definition with_success (s : gmap Z bool) (o : t) : t :=
  {| eventData := eventData o; queue := queue o; pendingRequest := pendingRequest o;
     success := s |}.

Definition new (config : Config) : t :=
  {| eventData := initial_eventData config; queue := []; pendingRequest := None;
     success := ∅ |}.

(** [this.success[id]] as a condition. *)
Definition succeeded (o : t) (id : Z) : bool :=
  match success o !! id with
  | Some b => b
  | None => false
  end.

Section WithExternals.
Context `{Externals}.

Definition processRequests (config : Config) (o : t) (env : Env)
    : t * Env * option Error :=
  match pendingRequest o, queue o with
  | Some _, _ | None, [] => (o, env, None)
  | None, {| id := id; timestamp := timestamp |} :: rest =>
      let o := with_queue rest o in
      (* Only one load event should fire per map *)
      if negb (id =? 0) && succeeded o id then (o, env, None)
      else
        (* [this.eventData.anonId] where [this.eventData] is [null] *)
        if is_null (eventData o) then (o, env, Some TypeError)
        else
          let '(v, env) :=
            if negb (truthy_str (anonId (eventData o)))
            then fetchEventData config (eventData o) env
            else (eventData o, env) in
          let o := with_eventData v o in
          match v with
          | Null => (o, env, Some TypeError)
          | Primitive =>
              (* the identifier reads [undefined], [uuid()] is called and the
                 assignment throws: the module is strict code *)
              let '(_, env) := next_uuid env in (o, env, Some TypeError)
          | Object d =>
              let '(d, env) :=
                if negb (validateUuid (anonId d))
                then let '(u, env) := next_uuid env in (with_anonId (Some u) d, env)
                else (d, env) in
              let o := with_eventData d o in
              match parseUrl (EVENTS_URL config) with
              | Throw e => (o, env, Some e)
              | Ok eventsUrlObject =>
                  let request :=
                    events_request config eventsUrlObject
                      {| event := js "map.load";
                         created := toISOString timestamp;
                         sdkIdentifier := js "mapbox-gl-js";
                         sdkVersion := version;
                         enabled_telemetry := None;
                         userId := anonId d |} in
                  let '(handle, env) := postData request (MapLoadCallback id) env in
                  (with_pendingRequest (Some handle) o, env, None)
              end
          end
  end.

(** The callback given to [postData], closed over [id]. *)
Definition callback (config : Config) (id : Z) (error : option TransportError) (o : t) (env : Env)
    : t * Env * option Error :=
  let o := with_pendingRequest None o in
  match error with
  | Some _ => (o, env, None)
  | None =>
      let o := if negb (id =? 0) then with_success (<[id := true]> (success o)) o else o in
      let env := saveEventData config (eventData o) env in
      processRequests config o env
  end.

Definition queueRequest (config : Config) (date : Entry) (o : t) (env : Env)
    : t * Env * option Error :=
  processRequests config (with_queue (queue o ++ [date]) o) env.

(** [now] is the value of [Date.now()] at the call; [tileUrls] is an array,
    as its type says, so that the [Array.isArray] test holds. *)
Definition postMapLoadEvent (config : Config) (now : Z) (tileUrls : list jsstring)
    (mapId : Z) (o : t) (env : Env) : t * Env * option Error :=
  if truthy_str (ACCESS_TOKEN config) && existsb isMapboxHTTPURL tileUrls
  then queueRequest config {| id := mapId; timestamp := now |} o env
  else (o, env, None).

End WithExternals.
End MapLoadEvent.

Module TurnstileEvent.
Import TelemetryEvent.

Record t := {
  eventData : JsonValue;
  queue : list Z;
  pendingRequest : option Cancelable
}.

Definition with_eventData (d : JsonValue) (o : t) : t :=
  {| eventData := d; queue := queue o; pendingRequest := pendingRequest o |}.
Definition with_queue (q : list Z) (o : t) : t :=
  {| eventData := eventData o; queue := q; pendingRequest := pendingRequest o |}.
Definition with_pendingRequest (p : option Cancelable) (o : t) : t :=
  {| eventData := eventData o; queue := queue o; pendingRequest := p |}.

Definition new (config : Config) : t :=
  {| eventData := initial_eventData config; queue := []; pendingRequest := None |}.

(** [(nextUpdate - lastSuccess) / (24 * 60 * 60 * 1000)] *)
Definition daysElapsed (nextUpdate lastSuccess : Z) : Q :=
  (inject_Z (nextUpdate - lastSuccess) / inject_Z (24 * 60 * 60 * 1000))%Q.

Definition Qlt_bool (a b : Q) : bool := negb (Qle_bool b a).

Section WithExternals.
Context `{Externals}.

(** The first half of [processRequests], up to the decision: the event
    data, the environment and [dueForEvent] once the head [nextUpdate] has
    been taken off the queue, or the exception thrown before the head is
    taken off, with the event data and the environment it leaves. *)
Definition decide_due (config : Config) (nextUpdate : Z) (v : JsonValue) (env : Env)
    : JsonValue * Env * result bool :=
  (* [this.eventData.accessToken] where [this.eventData] is [null] *)
  if is_null v then (v, env, Throw TypeError)
  else
    let dueForEvent :=
      if truthy_str (accessToken v)
      then negb (bool_decide (accessToken v = ACCESS_TOKEN config))
      else false in
    (* Reset event data cache if the access token changed. *)
    let v : JsonValue :=
      if dueForEvent
      then {| anonId := None; lastSuccess := None; accessToken := accessToken v |}
      else v in
    let '(v, env) :=
      if negb (truthy_str (anonId v)) || negb (truthy_num (lastSuccess v))
      then fetchEventData config v env
      else (v, env) in
    match v with
    | Null => (v, env, Throw TypeError)
    | Primitive =>
        (* the identifier reads [undefined], [uuid()] is called and the
           assignment throws: the module is strict code *)
        let '(_, env) := next_uuid env in (v, env, Throw TypeError)
    | Object d =>
        let '(d, env, dueForEvent) :=
          if negb (validateUuid (anonId d))
          then let '(u, env) := next_uuid env in (with_anonId (Some u) d, env, true)
          else (d, env, dueForEvent) in
        (* Record turnstile event once per calendar day. *)
        let dueForEvent :=
          if truthy_num (lastSuccess d)
          then
            let last := default 0 (lastSuccess d) in
            dueForEvent
            || Qle_bool 1 (daysElapsed nextUpdate last)
            || Qlt_bool (daysElapsed nextUpdate last) (-1)
            || negb (getDate last =? getDate nextUpdate)
          else dueForEvent in
        (Object d, env, Ok dueForEvent)
    end.

(** [processRequests] calls itself when the head is not due; the queue
    shrinks at every such call, and the recursion is on it.  An exception of
    the first half leaves the head on the queue. *)
Fixpoint processRequests_on (config : Config) (q : list Z) (o : t) (env : Env)
    {struct q} : t * Env * option Error :=
  match pendingRequest o, q with
  | Some _, _ | None, [] => (o, env, None)
  | None, nextUpdate :: rest =>
      match decide_due config nextUpdate (eventData o) env with
      | (v, env, Throw e) => (with_eventData v o, env, Some e)
      | (v, env, Ok dueForEvent) =>
          let o := with_queue rest (with_eventData v o) in
          if negb dueForEvent then processRequests_on config rest o env
          else
            match parseUrl (EVENTS_URL config) with
            | Throw e => (o, env, Some e)
            | Ok eventsUrlObject =>
                let request :=
                  events_request config eventsUrlObject
                    {| event := js "appUserTurnstile";
                       created := toISOString nextUpdate;
                       sdkIdentifier := js "mapbox-gl-js";
                       sdkVersion := version;
                       enabled_telemetry := Some false;
                       userId := anonId v |} in
                let '(handle, env) := postData request (TurnstileCallback nextUpdate) env in
                (with_pendingRequest (Some handle) o, env, None)
            end
      end
  end.

Definition processRequests (config : Config) (o : t) (env : Env)
    : t * Env * option Error :=
  processRequests_on config (queue o) o env.

(** The callback given to [postData], closed over [nextUpdate]. *)
Definition callback (config : Config) (nextUpdate : Z) (error : option TransportError)
    (o : t) (env : Env) : t * Env * option Error :=
  let o := with_pendingRequest None o in
  match error with
  | Some _ => (o, env, None)
  | None =>
      match eventData o with
      | Object d =>
          let o :=
            with_eventData
              {| anonId := anonId d;
                 lastSuccess := Some nextUpdate;
                 accessToken := ACCESS_TOKEN config |} o in
          let env := saveEventData config (eventData o) env in
          processRequests config o env
      | Null | Primitive =>
          (* [this.eventData.lastSuccess = nextUpdate] throws *)
          (o, env, Some TypeError)
      end
  end.

Definition queueRequest (config : Config) (date : Z) (o : t) (env : Env)
    : t * Env * option Error :=
  processRequests config (with_queue (queue o ++ [date]) o) env.

(** [now] is the value of [Date.now()] at the call; [tileUrls] is an array,
    as its type says, so that the [Array.isArray] test holds. *)
Definition postTurnstileEvent (config : Config) (now : Z) (tileUrls : list jsstring)
    (o : t) (env : Env) : t * Env * option Error :=
  if truthy_str (ACCESS_TOKEN config) && existsb isMapboxHTTPURL tileUrls
  then queueRequest config now o env
  else (o, env, None).

End WithExternals.
End TurnstileEvent.

(** ** The module as a whole

    The module holds one [TurnstileEvent] and one [MapLoadEvent], created when
    it is loaded, and exports their [post...] methods.  Between two calls the
    configuration and the storage may change, and the transport may complete
    any of the requests it holds. *)

Record State := {
  config : Config;
  turnstileEvent_ : TurnstileEvent.t;
  mapLoadEvent_ : MapLoadEvent.t;
  env : Env
}.

Inductive Action :=
| SetConfig (c : Config)
| SetStorage (st : LocalStorage)
| PostTurnstileEvent (now : Z) (tileUrls : list jsstring)
| PostMapLoadEvent (now : Z) (tileUrls : list jsstring) (mapId : Z)
| Complete (k : nat) (error : option TransportError).

Definition fresh_env (st : LocalStorage) : Env :=
  {| storage := st; inflight := []; posted := 0; uuids := 0; warnings := [] |}.

Definition load (c : Config) (st : LocalStorage) : State :=
  {| config := c;
     turnstileEvent_ := TurnstileEvent.new c;
     mapLoadEvent_ := MapLoadEvent.new c;
     env := fresh_env st |}.

Section Module.
Context `{Externals}.

(** One call into the module; an exception leaves the module to its caller
    and is not kept. [Complete k error] is the transport calling the
    callback of the [k]-th request it holds. *)
Definition step (s : State) (a : Action) : State :=
  match a with
  | SetConfig c =>
      {| config := c; turnstileEvent_ := turnstileEvent_ s;
         mapLoadEvent_ := mapLoadEvent_ s; env := env s |}
  | SetStorage st =>
      {| config := config s; turnstileEvent_ := turnstileEvent_ s;
         mapLoadEvent_ := mapLoadEvent_ s; env := with_storage st (env s) |}
  | PostTurnstileEvent now tileUrls =>
      let '(o, e, _) :=
        TurnstileEvent.postTurnstileEvent (config s) now tileUrls (turnstileEvent_ s) (env s) in
      {| config := config s; turnstileEvent_ := o; mapLoadEvent_ := mapLoadEvent_ s; env := e |}
  | PostMapLoadEvent now tileUrls mapId =>
      let '(o, e, _) :=
        MapLoadEvent.postMapLoadEvent (config s) now tileUrls mapId (mapLoadEvent_ s) (env s) in
      {| config := config s; turnstileEvent_ := turnstileEvent_ s; mapLoadEvent_ := o; env := e |}
  | Complete k error =>
      match inflight (env s) !! k with
      | None => s
      | Some (_, _, MapLoadCallback id) =>
          let '(o, e, _) :=
            MapLoadEvent.callback (config s) id error (mapLoadEvent_ s)
              (with_inflight (delete k (inflight (env s))) (env s)) in
          {| config := config s; turnstileEvent_ := turnstileEvent_ s;
             mapLoadEvent_ := o; env := e |}
      | Some (_, _, TurnstileCallback nextUpdate) =>
          let '(o, e, _) :=
            TurnstileEvent.callback (config s) nextUpdate error (turnstileEvent_ s)
              (with_inflight (delete k (inflight (env s))) (env s)) in
          {| config := config s; turnstileEvent_ := o;
             mapLoadEvent_ := mapLoadEvent_ s; env := e |}
      end
  end.

Definition run (s : State) (actions : list Action) : State := foldl step s actions.

End Module.

(** The requests of each queue that the transport holds. *)
Definition is_map_load (x : Cancelable * RequestParameters * Callback) : bool :=
  match x with
  | (_, _, MapLoadCallback _) => true
  | (_, _, TurnstileCallback _) => false
  end.

Definition is_turnstile (x : Cancelable * RequestParameters * Callback) : bool :=
  negb (is_map_load x).

Fixpoint count {A} (f : A → bool) (l : list A) : nat :=
  match l with
  | [] => 0
  | x :: l' => if f x then S (count f l') else count f l'
  end.

(** [1] when a queue holds a handle in its slot, [0] when the slot is empty. *)
Definition occupied (p : option Cancelable) : nat :=
  match p with
  | Some _ => 1
  | None => 0
  end.

(** Parsing then formatting. *)
Definition roundtrip (url : jsstring) : result jsstring :=
  match parseUrl url with
  | Ok obj => Ok (formatUrl obj)
  | Throw e => Throw e
  end.

(** What [replaceTempAccessToken] does to one parameter. *)
Definition replaced_param (config : Config) (p : jsstring) : jsstring :=
  if starts_with (js "access_token=tk.") p
  then js "access_token=" ++ or_empty (ACCESS_TOKEN config)
  else p.

(** ** A concrete environment, to run the module on examples

    A clock in UTC, and a generator whose [n]-th identifier ends in the digits
    of [n]. *)
Module Sample.

(** The civil date (year, month, day) of the day [days] after 1970-01-01. *)
Definition civil (days : Z) : Z * Z * Z :=
  let z := days + 719468 in
  let era := z / 146097 in
  let doe := z - era * 146097 in
  let yoe := (doe - doe / 1460 + doe / 36524 - doe / 146096) / 365 in
  let doy := doe - (365 * yoe + yoe / 4 - yoe / 100) in
  let mp := (5 * doy + 2) / 153 in
  let d := doy - (153 * mp + 2) / 5 + 1 in
  let m := if mp <? 10 then mp + 3 else mp - 9 in
  (yoe + era * 400 + (if m <=? 2 then 1 else 0), m, d).

Definition digit (n : Z) : N := Z.to_N (48 + n mod 10).

Definition two_digits (n : Z) : jsstring := [digit (n / 10); digit n].

Definition date_text (days : Z) : jsstring :=
  let '(y, m, d) := civil days in
  two_digits (y / 100) ++ two_digits y ++ js "-" ++ two_digits m ++ js "-" ++ two_digits d.

Definition time_text (t : Z) : jsstring :=
  let ms := t mod 86400000 in
  two_digits (ms / 3600000) ++ js ":" ++ two_digits (ms / 60000 mod 60) ++ js ":"
  ++ two_digits (ms / 1000 mod 60) ++ js "." ++ [digit (ms / 100); digit (ms / 10); digit ms].

Definition is_hex_or_dash (c : N) : bool :=
  (is_digit c || (97 <=? c) && (c <=? 102) || (c =? 45))%N.

Definition externals : Externals :=
  {| validUuidFormat := fun s => (length s =? 36)%nat && forallb is_hex_or_dash s;
     uuid := fun n => js "3f2a7c1e-9b4d-4e6a-8c21-5d0f7a9b3e" ++ two_digits (Z.of_nat n);
     toISOString := fun t => date_text (t / 86400000) ++ js "T" ++ time_text t ++ js "Z";
     getDate := fun t => snd (civil (t / 86400000));
     version := js "0.50.0" |}.

Definition config : Config :=
  {| API_URL := js "https://api.mapbox.com";
     EVENTS_URL := js "https://events.mapbox.com/events/v2";
     REQUIRE_ACCESS_TOKEN := true;
     ACCESS_TOKEN := Some (js "pk.key") |}.

(** The same configuration after the access token has been changed. *)
Definition config_other_token : Config :=
  {| API_URL := js "https://api.mapbox.com";
     EVENTS_URL := js "https://events.mapbox.com/events/v2";
     REQUIRE_ACCESS_TOKEN := true;
     ACCESS_TOKEN := Some (js "pk.other") |}.

Definition no_storage : LocalStorage :=
  {| available := false; getItem_throws := false; setItem_throws := false;
     items := ∅; writes := [] |}.

Definition empty_storage : LocalStorage :=
  {| available := true; getItem_throws := false; setItem_throws := false;
     items := ∅; writes := [] |}.

Definition tiles : list jsstring :=
  [js "https://a.tiles.mapbox.com/v4/mapbox.streets/{z}/{x}/{y}.png"].

(** 2018-11-02 00:00:00.123 UTC, and moments of the same and of the next day. *)
Definition morning : Z := 1541116800123.
Definition noon : Z := 1541160000000.
Definition next_day : Z := 1541203200123.

Definition timeout : TransportError := transport_error (js "timeout").

(** The module after a first usage report whose request failed. *)
Definition after_failed_delivery : State :=
  run (H := externals) (load config empty_storage)
    [PostTurnstileEvent morning tiles; Complete 0 (Some timeout)].

(** The module after the load of map 0 has been reported and delivered. *)
Definition after_load_of_map_zero : State :=
  run (H := externals) (load config empty_storage)
    [PostMapLoadEvent morning tiles 0; Complete 0 None].

(** A one-shot queue whose head was delivered before, with one more entry
    behind it. *)
Definition duplicate_at_head : MapLoadEvent.t :=
  {| MapLoadEvent.eventData :=
       {| anonId := Some (uuid (Externals := externals) 0); lastSuccess := None;
          accessToken := Some (js "pk.key") |};
     MapLoadEvent.queue :=
       [{| MapLoadEvent.id := 5; MapLoadEvent.timestamp := noon |};
        {| MapLoadEvent.id := 7; MapLoadEvent.timestamp := noon |}];
     MapLoadEvent.pendingRequest := None;
     MapLoadEvent.success := {[5 := true]} |}.

(** A recurring queue with a success in the morning, and a report of the
    same day ahead of one of the next day. *)
Definition same_day_at_head : TurnstileEvent.t :=
  {| TurnstileEvent.eventData :=
       {| anonId := Some (uuid (Externals := externals) 0); lastSuccess := Some morning;
          accessToken := Some (js "pk.key") |};
     TurnstileEvent.queue := [noon; next_day];
     TurnstileEvent.pendingRequest := None |}.

End Sample.

(** ** Vocabulary of the statements *)

(** Every character of [s] is in the class [p]. *)
Definition all (p : N → bool) (s : jsstring) : Prop := Forall (λ c, p c = true) s.

(** [rest] is empty or starts outside the class [p]: a greedy repetition of
    [p] cannot go into it. *)
Definition stops (p : N → bool) (rest : jsstring) : Prop :=
  match rest with
  | [] => True
  | c :: _ => p c = false
  end.

(** The text [scheme://authority/p] followed, when there is a query, by [?]
    and the query. *)
Definition locator (scheme auth p : jsstring) (query : option jsstring) : jsstring :=
  scheme ++ js "://" ++ auth ++ js "/" ++ p
  ++ match query with Some q => js "?" ++ q | None => [] end.

(** The number of requests with a callback of the kind [f] that the transport
    holds. *)
Definition held (f : Cancelable * RequestParameters * Callback → bool) (s : State) : nat :=
  count f (inflight (env s)).

(** Each queue has a handle in its slot exactly when the transport holds one
    request of that queue, and none otherwise. *)
Definition single_flight (s : State) : Prop :=
  held is_turnstile s = occupied (TurnstileEvent.pendingRequest (turnstileEvent_ s))
  ∧ held is_map_load s = occupied (MapLoadEvent.pendingRequest (mapLoadEvent_ s)).

(** The state in which the [k]-th request held by the transport is gone and
    the slot of its queue is empty, everything else being as in [s]. *)
Definition slot_cleared (k : nat) (s : State) : State :=
  match inflight (env s) !! k with
  | None => s
  | Some (_, _, MapLoadCallback _) =>
      {| config := config s; turnstileEvent_ := turnstileEvent_ s;
         mapLoadEvent_ := MapLoadEvent.with_pendingRequest None (mapLoadEvent_ s);
         env := with_inflight (delete k (inflight (env s))) (env s) |}
  | Some (_, _, TurnstileCallback _) =>
      {| config := config s;
         turnstileEvent_ := TurnstileEvent.with_pendingRequest None (turnstileEvent_ s);
         mapLoadEvent_ := mapLoadEvent_ s;
         env := with_inflight (delete k (inflight (env s))) (env s) |}
  end.

(** The event data the one-shot dispatch reads the identifier from: what
    the object holds or, when that has no identifier, what [fetchEventData]
    leaves in its place. *)
Definition event_data_at_hand (config : Config) (v : JsonValue) (env : Env) : JsonValue :=
  if negb (truthy_str (anonId v))
  then (TelemetryEvent.fetchEventData config v env).1
  else v.

(** The one-shot dispatch has an object to read the identifier from: the
    event data of the object is not [null], and the event data at hand is
    neither [null] nor a number, a string or a boolean. *)
Definition object_at_hand (config : Config) (v : JsonValue) (env : Env) : bool :=
  negb (is_null v) && is_object (event_data_at_hand config v env).

(** ** Vocabulary of the further properties *)

(** A request as the queues build it: a plain-text content type and one
    event, named after the queue of its callback, with the identifier of the
    library and an anonymous identifier that validates; the event of the
    recurring queue carries its time and the telemetry flag set to false. *)
Definition request_well_formed `{Externals}
    (x : Cancelable * RequestParameters * Callback) : Prop :=
  let '(_, request, callback) := x in
  headers request = [(js "Content-Type", js "text/plain")]
  ∧ ∃ e, request_body request = [e]
         ∧ sdkIdentifier e = js "mapbox-gl-js"
         ∧ sdkVersion e = version
         ∧ validateUuid (userId e) = true
         ∧ match callback with
           | MapLoadCallback _ =>
               event e = js "map.load" ∧ enabled_telemetry e = None
           | TurnstileCallback nextUpdate =>
               event e = js "appUserTurnstile" ∧ enabled_telemetry e = Some false
               ∧ created e = toISOString nextUpdate
           end.

(** No request of the one-shot queue held by the transport is for a map
    that is marked in the success set. *)
Definition no_marked_in_flight (s : State) : Prop :=
  ∀ h request id,
    (h, request, MapLoadCallback id) ∈ inflight (env s) →
    id ≠ 0 → MapLoadEvent.succeeded (mapLoadEvent_ s) id = false.

(** A continuation that succeeds wherever it is called: the rest of a
    pattern all of whose parts are optional. *)
Definition total (k : cont) : Prop := ∀ pos s caps, is_Some (k pos s caps).

(** The continuation at the end of a pattern. *)
Definition accept : cont := λ e _ caps, Some (e, caps).


(** An extension the tile wrapper rewrites: [.png] or [.jpg], then digits. *)
Definition image_extension (ext : jsstring) : Prop :=
  ∃ kind digits, (kind = js "png" ∨ kind = js "jpg") ∧ all is_digit digits
                 ∧ ext = js "." ++ kind ++ digits.

(** [s] ends with such an extension. *)
Definition has_image_extension (s : jsstring) : Prop :=
  ∃ stem ext, s = stem ++ ext ∧ image_extension ext.

(** The texts a pattern matches, without the order in which the matcher
    tries them: [matches_at ic r pos xs rest] says that [r] matches [xs] at
    the index [pos] when [rest] follows. *)
Fixpoint matches_at (ic : bool) (r : regex) (pos : nat) (xs rest : jsstring) : Prop :=
  match r with
  | Eps => xs = []
  | Chr c => ∃ x, xs = [x] ∧ chr_eq ic c x = true
  | Cls p => ∃ x, xs = [x] ∧ p x = true
  | Bos => xs = [] ∧ pos = 0%nat
  | Eos => xs = [] ∧ rest = []
  | Seq r1 r2 =>
      ∃ xs1 xs2, xs = xs1 ++ xs2 ∧ matches_at ic r1 pos xs1 (xs2 ++ rest)
                 ∧ matches_at ic r2 (pos + length xs1) xs2 rest
  | Alt r1 r2 => matches_at ic r1 pos xs rest ∨ matches_at ic r2 pos xs rest
  | Opt r1 => matches_at ic r1 pos xs rest ∨ xs = []
  | Star p => all p xs
  | Plus p => xs ≠ [] ∧ all p xs
  | Grp _ r1 => matches_at ic r1 pos xs rest
  | Ahead r1 => xs = [] ∧ ∃ ys zs, rest = ys ++ zs ∧ matches_at ic r1 pos ys zs
  end.

(** Equal up to the case of the ASCII letters. *)
Definition same_ignoring_case (a b : jsstring) : Prop := canon <$> a = canon <$> b.

(** The texts [isMapboxHTTPURL] is written for: an optional [//], [http://]
    or [https://], an optional run of characters other than [/] that ends
    with a dot, then [mapbox.cn] or [mapbox.com], then the end of the text,
    a [/] or a [?]. *)
Definition mapbox_http_url (url : jsstring) : Prop :=
  ∃ pre sub host rest,
    url = pre ++ sub ++ host ++ rest
    ∧ (pre = [] ∨ pre = js "//" ∨ same_ignoring_case pre (js "http://")
       ∨ same_ignoring_case pre (js "https://"))
    ∧ (sub = [] ∨ ∃ label, label ≠ [] ∧ all not_slash label ∧ sub = label ++ js ".")
    ∧ (same_ignoring_case host (js "mapbox.cn") ∨ same_ignoring_case host (js "mapbox.com"))
    ∧ (rest = [] ∨ js "/" `prefix_of` rest ∨ js "?" `prefix_of` rest).

(** ** More concrete inputs *)

Module Fixture.

(** The environment of a module that has just been loaded. *)
Definition world : Env := fresh_env Sample.empty_storage.

(** A configuration whose events URL has no scheme. *)
Definition config_bad_events : Config :=
  {| API_URL := js "https://api.mapbox.com";
     EVENTS_URL := js "events.mapbox.com/events/v2";
     REQUIRE_ACCESS_TOKEN := true;
     ACCESS_TOKEN := Some (js "pk.key") |}.

(** What [parseUrl] makes of the events URL of [Sample.config]. *)
Definition events_url : UrlObject :=
  {| protocol := js "https"; authority := js "events.mapbox.com";
     path := js "/events/v2"; params := [] |}.

(** Event data of a success in the morning. *)
Definition stored : EventData :=
  {| anonId := Some (uuid (Externals := Sample.externals) 0);
     lastSuccess := Some Sample.morning;
     accessToken := Some (js "pk.key") |}.

(** A storage that holds [stored] under the token of [Sample.config]. *)
Definition world_after_success : Env :=
  fresh_env
    {| available := true; getItem_throws := false; setItem_throws := false;
       items := {[TelemetryEvent.storageKey Sample.config := Json stored]};
       writes := [] |}.

(** The two queues while a request is pending. *)
Definition busy_map : MapLoadEvent.t :=
  MapLoadEvent.with_pendingRequest (Some (Handle 0)) (MapLoadEvent.new Sample.config).

Definition busy_turnstile : TurnstileEvent.t :=
  TurnstileEvent.with_pendingRequest (Some (Handle 0)) (TurnstileEvent.new Sample.config).

(** A one-shot queue with the load of map 7, which was not delivered
    before. *)
Definition load_of_map_seven : MapLoadEvent.t :=
  MapLoadEvent.with_queue
    [{| MapLoadEvent.id := 7; MapLoadEvent.timestamp := Sample.noon |}]
    Sample.duplicate_at_head.

(** A raster tile, a vector tile and what [parseUrl] makes of them. *)
Definition raster_tile : jsstring :=
  js "http://a.tiles.mapbox.com/v4/a/1/2/3.png?access_token=tk.abc".

Definition raster_tile_object : UrlObject :=
  {| protocol := js "http"; authority := js "a.tiles.mapbox.com";
     path := js "/v4/a/1/2/3.png"; params := [js "access_token=tk.abc"] |}.

Definition vector_tile : jsstring :=
  js "http://a.tiles.mapbox.com/v4/a/1/2/3.vector.pbf?access_token=tk.abc".

Definition vector_tile_object : UrlObject :=
  {| protocol := js "http"; authority := js "a.tiles.mapbox.com";
     path := js "/v4/a/1/2/3.vector.pbf"; params := [js "access_token=tk.abc"] |}.

Definition hidpi : Browser := {| devicePixelRatio := 2; supportsWebp := false |}.

(** A storage that holds the text [null] under the token of
    [Sample.config]. *)
Definition storage_with_null : LocalStorage :=
  {| available := true; getItem_throws := false; setItem_throws := false;
     items := {[TelemetryEvent.storageKey Sample.config := Json Null]};
     writes := [] |}.

End Fixture.

(** * Properties *)

(** ** Strings *)

Lemma starts_with_prefix (p s : jsstring) :
  starts_with p s = true ↔ p `prefix_of` s.
Proof.
  revert s. induction p as [|a p IH]; intros s; simpl.
  - split; [intros _; apply prefix_nil | done].
  - destruct s as [|b s].
    + split; [done | intros [k Hk]; discriminate Hk].
    + rewrite andb_true_iff, N.eqb_eq, IH. split.
      * intros [-> Hp]. by apply prefix_cons.
      * intros [k Hk]. injection Hk as -> ->. split; [done | by exists k].
Qed.

Lemma indexOf_from_range (p s : jsstring) (i : Z) :
  indexOf_from p s i = -1 ∨ i ≤ indexOf_from p s i.
Proof.
  revert i. induction s as [|c s IH]; intros i; simpl.
  - destruct (starts_with p []); [right; lia | by left].
  - destruct (starts_with p (c :: s)); [right; lia |].
    destruct (IH (i + 1)) as [-> | Hle]; [by left | right; lia].
Qed.

(** [s.indexOf(p) === 0] says that [s] starts with [p]. *)
Lemma indexOf_zero (s p : jsstring) :
  (indexOf s p =? 0) = starts_with p s.
Proof.
  unfold indexOf. destruct s as [|c s]; simpl.
  - by destruct (starts_with p []).
  - destruct (starts_with p (c :: s)); [done |].
    destruct (indexOf_from_range p s (0 + 1)) as [-> | Hle]; [done |].
    apply Z.eqb_neq. lia.
Qed.

Lemma isMapboxURL_prefix (url : jsstring) :
  isMapboxURL url = true ↔ js "mapbox:" `prefix_of` url.
Proof. unfold isMapboxURL. rewrite indexOf_zero. apply starts_with_prefix. Qed.

Lemma isMapboxURL_not_prefix (url : jsstring) :
  ¬ js "mapbox:" `prefix_of` url → isMapboxURL url = false.
Proof.
  intros Hn. destruct (isMapboxURL url) eqn:E; [|done].
  by apply isMapboxURL_prefix in E.
Qed.

Lemma split_not_nil (sep : N) (s : jsstring) : split sep s ≠ [].
Proof.
  destruct s as [|c s]; simpl; [done |].
  destruct (N.eqb c sep); [done |]. by destruct (split sep s).
Qed.

(** Joining what was split on the same separator gives the string back. *)
Lemma join_split (sep : N) (s : jsstring) : join [sep] (split sep s) = s.
Proof.
  induction s as [|c s IH]; simpl; [done |].
  destruct (N.eqb c sep) eqn:E.
  - apply N.eqb_eq in E as ->.
    pose proof (split_not_nil sep s) as Hne.
    destruct (split sep s) as [|h t]; [done |].
    simpl in *. by rewrite IH.
  - pose proof (split_not_nil sep s) as Hne.
    destruct (split sep s) as [|h t]; [done |].
    destruct t as [|h' t]; simpl in *; by rewrite <- IH.
Qed.

(** ** The loop of [replaceTempAccessToken] *)

Section ReplaceTempAccessToken.
Variable config : Config.

Lemma replaceTempAccessToken_loop_spec (n i : nat) (params : list jsstring) :
  (i + n = length params)%nat →
  replaceTempAccessToken_loop config n i params
  = take i params ++ (replaced_param config <$> drop i params).
Proof.
  revert i params. induction n as [|n IH]; intros i params Hlen.
  - simpl. rewrite drop_ge, take_ge by lia. by rewrite app_nil_r.
  - destruct (lookup_lt_is_Some_2 params i) as [p Hp]; [lia |].
    cbn [replaceTempAccessToken_loop].
    rewrite Hp, indexOf_zero.
    rewrite (drop_S params p i Hp), fmap_cons.
    assert (Hr : replaced_param config p
                 = if starts_with (js "access_token=tk.") p
                   then js "access_token=" ++ or_empty (ACCESS_TOKEN config) else p)
      by done.
    destruct (starts_with (js "access_token=tk.") p) eqn:E; rewrite Hr.
    + rewrite IH by (rewrite length_insert; lia).
      rewrite drop_insert_lt by lia.
      rewrite (take_S_r _ i (js "access_token=" ++ or_empty (ACCESS_TOKEN config))).
      * rewrite take_insert_ge by lia. by rewrite <- app_assoc.
      * apply list_lookup_insert_eq. lia.
    + rewrite IH by lia.
      rewrite (take_S_r params i p Hp). by rewrite <- app_assoc.
Qed.

Lemma replaceTempAccessToken_map (params : list jsstring) :
  replaceTempAccessToken config params = replaced_param config <$> params.
Proof.
  unfold replaceTempAccessToken.
  by rewrite replaceTempAccessToken_loop_spec.
Qed.

End ReplaceTempAccessToken.

(** ** The matcher on the URL pattern

    One lemma for each construct of the pattern: the match of the construct
    succeeds with the result of its continuation.  A greedy repetition of a
    class takes the whole run of characters of the class when what follows
    the run cannot extend it and the continuation succeeds there. *)

Section Matcher.
Variable ic : bool.
Implicit Types (k : cont) (pos : nat) (s : jsstring) (caps : captures).

Lemma star_m_greedy p k pos pos' xs rest caps r :
  all p xs → stops p rest → pos' = (pos + length xs)%nat →
  k pos' rest caps = Some r →
  star_m p k pos (xs ++ rest) caps = Some r.
Proof.
  intros Hall Hstop. revert pos.
  induction Hall as [|x xs Hx Hxs IH]; intros pos -> Hk.
  - rewrite Nat.add_0_r in Hk.
    destruct rest as [|c rest]; [done |]. simpl in *. by rewrite Hstop.
  - simpl in *. rewrite Hx. rewrite (IH (S pos)); [done | lia |].
    by replace (S pos + length xs)%nat with (pos + S (length xs))%nat by lia.
Qed.

Lemma rmatch_cat r1 rs k pos s caps r :
  rmatch ic r1 (rmatch ic (cat rs) k) pos s caps = Some r →
  rmatch ic (cat (r1 :: rs)) k pos s caps = Some r.
Proof. done. Qed.

Lemma rmatch_cat_nil k pos s caps r :
  k pos s caps = Some r → rmatch ic (cat []) k pos s caps = Some r.
Proof. done. Qed.

Lemma rmatch_bos k s caps r :
  k 0%nat s caps = Some r → rmatch ic Bos k 0 s caps = Some r.
Proof. done. Qed.

Lemma rmatch_chr c x k pos s caps r :
  chr_eq ic c x = true → k (S pos) s caps = Some r →
  rmatch ic (Chr c) k pos (x :: s) caps = Some r.
Proof. intros Hc Hk. simpl. by rewrite Hc. Qed.

Lemma rmatch_star p k pos pos' xs rest caps r :
  all p xs → stops p rest → pos' = (pos + length xs)%nat →
  k pos' rest caps = Some r →
  rmatch ic (Star p) k pos (xs ++ rest) caps = Some r.
Proof. apply star_m_greedy. Qed.

Lemma rmatch_plus p k pos pos' x xs rest caps r :
  p x = true → all p xs → stops p rest → pos' = (S pos + length xs)%nat →
  k pos' rest caps = Some r →
  rmatch ic (Plus p) k pos (x :: xs ++ rest) caps = Some r.
Proof.
  intros Hx Hxs Hstop -> Hk. simpl. rewrite Hx.
  by apply (star_m_greedy p k (S pos) (S pos + length xs)).
Qed.

Lemma rmatch_plus_all p k pos pos' x xs caps r :
  p x = true → all p xs → pos' = (S pos + length xs)%nat →
  k pos' [] caps = Some r →
  rmatch ic (Plus p) k pos (x :: xs) caps = Some r.
Proof.
  intros Hx Hxs Hpos Hk. rewrite <- (app_nil_r xs).
  by apply (rmatch_plus p k pos pos').
Qed.

Lemma rmatch_grp i r1 k pos s caps r :
  rmatch ic r1
    (λ pos' s' caps', k pos' s' (<[i := Some (take (pos' - pos)%nat s)]> caps'))
    pos s caps = Some r →
  rmatch ic (Grp i r1) k pos s caps = Some r.
Proof. done. Qed.

Lemma rmatch_opt_taken r1 k pos s caps r :
  rmatch ic r1 k pos s caps = Some r →
  rmatch ic (Opt r1) k pos s caps = Some r.
Proof. intros Hr. simpl. by rewrite Hr. Qed.

Lemma rmatch_opt_skipped r1 k pos s caps r :
  rmatch ic r1 k pos s caps = None → k pos s caps = Some r →
  rmatch ic (Opt r1) k pos s caps = Some r.
Proof. intros Hr Hk. simpl. by rewrite Hr. Qed.

End Matcher.

(** A match at the first index tried is the result of [exec]. *)
Lemma exec_from_here re pos s e caps :
  rmatch (ignoreCase re) (body re) (λ e _ caps, Some (e, caps)) pos s
    (replicate (S (groups re)) None) = Some (e, caps) →
  exec_from re pos s
  = Some {| index := pos; lastIndex := e;
            parts := <[0%nat := Some (take (e - pos)%nat s)]> caps |}.
Proof. intros Hm. destruct s; cbn [exec_from]; by rewrite Hm. Qed.

Lemma take_prefix (n : nat) (s xs rest : jsstring) :
  s = xs ++ rest → n = length xs → take n s = xs.
Proof. intros -> ->. by rewrite take_app_length. Qed.

(** The pattern up to the end of the path, on a locator with a scheme
    [c :: cs], the authority [auth] and the path [/] followed by [c2 :: p']. *)
Ltac url_head c cs auth c2 p' :=
  unfold urlRe, body, ignoreCase, groups;
  apply rmatch_cat, rmatch_bos, rmatch_cat, rmatch_grp;
  eapply (rmatch_plus _ _ _ _ _ c cs); [done | done | done | reflexivity |];
  cbv beta;
  do 3 (apply rmatch_cat, rmatch_chr; [done |]);
  apply rmatch_cat, rmatch_grp;
  eapply (rmatch_star _ _ _ _ _ auth); [done | done | reflexivity |];
  cbv beta;
  apply rmatch_cat, rmatch_opt_taken, rmatch_grp, rmatch_cat, rmatch_chr; [done |];
  apply rmatch_cat;
  eapply (rmatch_plus _ _ _ _ _ c2 p'); [done | done | done | reflexivity |];
  apply rmatch_cat_nil; cbv beta.

(** The texts of the first three groups, cut out of the locator. *)
Ltac url_groups c cs auth c2 p' :=
  unfold part; cbn [parts];
  rewrite (take_prefix (1 + length cs - 0) _ (c :: cs) _ eq_refl) by (simpl; lia);
  rewrite (take_prefix _ (auth ++ _) auth _ eq_refl) by lia;
  match goal with
  | |- context [take ?n (js "/" ++ (c2 :: p') ++ ?rest)] =>
      rewrite (take_prefix n (js "/" ++ (c2 :: p') ++ rest) (js "/" ++ c2 :: p') rest eq_refl)
        by (simpl; lia)
  end.

(** What [parseUrl] makes of a locator with a path and, possibly, a query. *)
Lemma parse_well_formed scheme auth p query :
  scheme ≠ [] → all is_word scheme → all not_slash_question auth →
  p ≠ [] → all not_question p →
  (∀ q, query = Some q → q ≠ [] ∧ all dot q) →
  parseUrl (locator scheme auth p query)
  = Ok {| protocol := scheme; authority := auth; path := js "/" ++ p;
          params := match query with Some q => split (ch "&") q | None => [] end |}.
Proof.
  intros Hs Hw Ha Hp Hnq Hq.
  unfold parseUrl, exec, locator.
  destruct scheme as [|c cs]; [done |]. apply Forall_cons in Hw as [Hc Hcs].
  destruct p as [|c2 p']; [done |]. apply Forall_cons in Hnq as [Hc2 Hp'].
  destruct query as [q|].
  - destruct (Hq q eq_refl) as [Hqne Hqd].
    destruct q as [|c3 q']; [done |]. apply Forall_cons in Hqd as [Hc3 Hq'].
    erewrite exec_from_here; cycle 1.
    { url_head c cs auth c2 p'.
      apply rmatch_cat, rmatch_opt_taken, rmatch_chr; [done |].
      apply rmatch_cat, rmatch_opt_taken, rmatch_grp.
      eapply rmatch_plus_all; [done | done | reflexivity |].
      cbv beta. apply rmatch_cat_nil. reflexivity. }
    url_groups c cs auth c2 p'.
    rewrite (take_prefix _ (c3 :: q') (c3 :: q') [] (eq_sym (app_nil_r _))) by (simpl; lia).
    done.
  - erewrite exec_from_here; cycle 1.
    { url_head c cs auth c2 p'.
      apply rmatch_cat, rmatch_opt_skipped; [done |].
      apply rmatch_cat, rmatch_opt_skipped; [done |].
      apply rmatch_cat_nil. reflexivity. }
    url_groups c cs auth c2 p'.
    done.
Qed.

(** Formatting what [parseUrl] made of it gives the locator back. *)
Lemma format_well_formed scheme auth p query :
  formatUrl {| protocol := scheme; authority := auth; path := js "/" ++ p;
               params := match query with Some q => split (ch "&") q | None => [] end |}
  = locator scheme auth p query.
Proof.
  unfold formatUrl, locator; cbn [protocol authority path params].
  destruct query as [q|].
  - pose proof (split_not_nil (ch "&") q) as Hne.
    pose proof (join_split (ch "&") q) as Hj.
    destruct (split (ch "&") q) as [|h t]; [done |].
    change (js "&") with [ch "&"]. rewrite Hj.
    by rewrite <- !app_assoc.
  - by rewrite <- !app_assoc.
Qed.

(** ** Parsing and formatting *)

(** C6 (as amended): a locator [scheme://authority/path] or
    [scheme://authority/path?query] comes back unchanged from [parseUrl]
    followed by [formatUrl], when its scheme is a non-empty run of word
    characters, its authority has no [/] and no [?], its path has at least one
    character after the leading [/] and no [?], and its query, when there is
    a [?], is non-empty and free of line terminators. *)
Theorem parse_format_roundtrip (scheme auth p : jsstring) (query : option jsstring) :
  scheme ≠ [] → all is_word scheme → all not_slash_question auth →
  p ≠ [] → all not_question p →
  (∀ q, query = Some q → q ≠ [] ∧ all dot q) →
  roundtrip (locator scheme auth p query) = Ok (locator scheme auth p query).
Proof.
  intros Hs Hw Ha Hp Hnq Hq. unfold roundtrip.
  rewrite parse_well_formed by done.
  by rewrite format_well_formed.
Qed.

(** The round trip of a style URL with a query. *)
Lemma parse_format_roundtrip_witness :
  roundtrip (js "mapbox://styles/user/style?fresh=true&secure")
  = Ok (js "mapbox://styles/user/style?fresh=true&secure").
Proof.
  apply (parse_format_roundtrip (js "mapbox") (js "styles") (js "user/style")
           (Some (js "fresh=true&secure"))).
  - discriminate.
  - repeat constructor.
  - repeat constructor.
  - discriminate.
  - repeat constructor.
  - intros q [= <-]. split; [discriminate | repeat constructor].
Defined.

(** C6 (as stated) fails: a locator without a path is accepted by
    [parseUrl], which gives it the path [/], and is formatted with that
    path. *)
Lemma parse_format_roundtrip_counterexample :
  roundtrip (js "mapbox://mapbox.streets") = Ok (js "mapbox://mapbox.streets/")
  ∧ roundtrip (js "mapbox://mapbox.streets") ≠ Ok (js "mapbox://mapbox.streets").
Proof. split; [reflexivity | discriminate]. Qed.

(** Other accepted locators that do not come back: an empty path before a
    query, a bare [?] at the end, a line break in the query. *)
Example roundtrip_empty_path :
  roundtrip (js "http://a/?b=c") = Ok (js "http://a/?/?b=c").
Proof. reflexivity. Qed.

Example roundtrip_bare_question :
  roundtrip (js "http://a/b?") = Ok (js "http://a/b").
Proof. reflexivity. Qed.

Example roundtrip_line_break :
  roundtrip (js "http://a/b?c" ++ [10%N] ++ js "d") = Ok (js "http://a/b?c").
Proof. reflexivity. Qed.

(** ** [makeAPIURL] *)

(** C7 (as amended): when the API URL parses, [makeAPIURL] checks the token
    only if [REQUIRE_ACCESS_TOKEN] is set.  The token it checks is the one
    supplied if that is a non-empty string, the configured one otherwise; it
    throws the missing-token error when that token is absent or empty and the
    secret-token error when its first character is [s].  When
    [REQUIRE_ACCESS_TOKEN] is not set it returns the formatted URL whatever
    the tokens are. *)
Theorem makeAPIURL_token_checks (config : Config) (urlObject : UrlObject)
    (accessToken : option jsstring) (api : UrlObject) :
  parseUrl (API_URL config) = Ok api →
  let token := if truthy_str accessToken then accessToken else ACCESS_TOKEN config in
  (REQUIRE_ACCESS_TOKEN config = true → truthy_str token = false →
   makeAPIURL config urlObject accessToken = Throw AccessTokenRequired)
  ∧ (REQUIRE_ACCESS_TOKEN config = true → first_is_s (or_empty token) = true →
     makeAPIURL config urlObject accessToken = Throw SecretAccessToken)
  ∧ (REQUIRE_ACCESS_TOKEN config = false →
     ∃ url, makeAPIURL config urlObject accessToken = Ok url
            ∧ url = formatUrl
                      {| protocol := protocol api; authority := authority api;
                         path := if bool_decide (path api ≠ js "/")
                                 then path api ++ path urlObject else path urlObject;
                         params := params urlObject |}).
Proof.
  intros Hapi token. unfold makeAPIURL. rewrite Hapi. fold token.
  repeat split.
  - intros -> Ht. simpl. by rewrite Ht.
  - intros -> Hs. simpl.
    assert (Ht : truthy_str token = true).
    { destruct token as [[|c l]|]; done. }
    by rewrite Ht, Hs.
  - intros ->. simpl. by eexists.
Qed.

(** A secret token, and no token, under a configuration that requires
    one. *)
Lemma makeAPIURL_token_checks_witness :
  makeAPIURL Sample.config
    {| protocol := js "mapbox"; authority := js "styles"; path := js "/styles/v1/user/style";
       params := [] |} (Some (js "sk.secret")) = Throw SecretAccessToken
  ∧ makeAPIURL
      {| API_URL := js "https://api.mapbox.com"; EVENTS_URL := [];
         REQUIRE_ACCESS_TOKEN := true; ACCESS_TOKEN := None |}
      {| protocol := js "mapbox"; authority := js "styles"; path := js "/styles/v1/user/style";
         params := [] |} None = Throw AccessTokenRequired.
Proof.
  split.
  - eapply (makeAPIURL_token_checks Sample.config); reflexivity.
  - eapply makeAPIURL_token_checks; reflexivity.
Defined.

(** C7 (as stated) fails: with [REQUIRE_ACCESS_TOKEN] off, a secret token
    and no token at all both give a URL. *)
Lemma makeAPIURL_token_checks_counterexample :
  let config :=
    {| API_URL := js "https://api.mapbox.com"; EVENTS_URL := [];
       REQUIRE_ACCESS_TOKEN := false; ACCESS_TOKEN := None |} in
  let urlObject :=
    {| protocol := js "mapbox"; authority := js "styles"; path := js "/styles/v1/user/style";
       params := [] |} in
  makeAPIURL config urlObject (Some (js "sk.secret"))
  = Ok (js "https://api.mapbox.com/styles/v1/user/style")
  ∧ makeAPIURL config urlObject None = Ok (js "https://api.mapbox.com/styles/v1/user/style").
Proof. split; reflexivity. Qed.

(** ** The wrappers *)

(** C8 (as amended): for a URL that does not start with [mapbox:], the
    style, glyphs and source wrappers return it unchanged, and the tile
    wrapper returns the tile URL unchanged when the source URL it is given is
    such a URL, or is absent.  The sprite wrapper parses such a URL and
    returns it with the format and the extension added to its path.  For a
    URL that starts with [mapbox:] and parses, the style, glyphs, source and
    sprite wrappers rewrite the path and hand the result to [makeAPIURL]. *)
Theorem wrappers_pass_through (config : Config) (browser : Browser)
    (url format extension : jsstring) (accessToken : option jsstring)
    (tileSize : option Z) :
  (¬ js "mapbox:" `prefix_of` url →
   normalizeStyleURL config url accessToken = Ok url
   ∧ normalizeGlyphsURL config url accessToken = Ok url
   ∧ normalizeSourceURL config url accessToken = Ok url
   ∧ normalizeSpriteURL config url format extension accessToken
     = match parseUrl url with
       | Ok o => Ok (formatUrl (with_path (path o ++ format ++ extension) o))
       | Throw e => Throw e
       end
   ∧ (∀ tileURL, normalizeTileURL config browser tileURL (Some url) tileSize = Ok tileURL)
   ∧ (∀ tileURL, normalizeTileURL config browser tileURL None tileSize = Ok tileURL))
  ∧ (js "mapbox:" `prefix_of` url → ∀ o, parseUrl url = Ok o →
     normalizeStyleURL config url accessToken
     = makeAPIURL config (with_path (js "/styles/v1" ++ path o) o) accessToken
     ∧ normalizeGlyphsURL config url accessToken
       = makeAPIURL config (with_path (js "/fonts/v1" ++ path o) o) accessToken
     ∧ normalizeSourceURL config url accessToken
       = makeAPIURL config
           (push_param (js "secure") (with_path (js "/v4/" ++ authority o ++ js ".json") o))
           accessToken
     ∧ normalizeSpriteURL config url format extension accessToken
       = makeAPIURL config
           (with_path (js "/styles/v1" ++ path o ++ js "/sprite" ++ format ++ extension) o)
           accessToken).
Proof.
  split.
  - intros Hn%isMapboxURL_not_prefix.
    unfold normalizeStyleURL, normalizeGlyphsURL, normalizeSourceURL,
      normalizeSpriteURL, normalizeTileURL.
    rewrite Hn. change (negb false) with true. cbv iota.
    split_and!; try done.
    intros tileURL. cbn [or_empty]. rewrite Hn. by rewrite orb_true_r.
  - intros Hp%isMapboxURL_prefix o Ho.
    unfold normalizeStyleURL, normalizeGlyphsURL, normalizeSourceURL, normalizeSpriteURL.
    by rewrite Hp, Ho.
Qed.

(** A style URL that is not first-party, and one that is. *)
Lemma wrappers_pass_through_witness :
  normalizeStyleURL Sample.config (js "http://www.foo.com/style.json") None
  = Ok (js "http://www.foo.com/style.json")
  ∧ normalizeStyleURL Sample.config (js "mapbox://styles/user/style") None
    = Ok (js "https://api.mapbox.com/styles/v1/user/style?access_token=pk.key").
Proof.
  split.
  - apply (wrappers_pass_through Sample.config
             {| devicePixelRatio := 1; supportsWebp := false |}
             (js "http://www.foo.com/style.json") [] [] None None).
    intros [k Hk]. discriminate Hk.
  - pose proof (wrappers_pass_through Sample.config
                  {| devicePixelRatio := 1; supportsWebp := false |}
                  (js "mapbox://styles/user/style") [] [] None None) as [_ Hfirst].
    destruct (Hfirst (ex_intro _ (js "//styles/user/style") eq_refl) _ eq_refl) as [-> _].
    reflexivity.
Defined.

(** C8 (as stated) fails for the sprite wrapper, which adds the format and
    the extension to a URL that is not first-party, and for the tile wrapper,
    which rewrites a tile URL that is not first-party when the source URL
    is. *)
Lemma wrappers_pass_through_counterexample :
  isMapboxURL (js "http://www.foo.com/bar") = false
  ∧ normalizeSpriteURL Sample.config (js "http://www.foo.com/bar") (js "@2x") (js ".png") None
    = Ok (js "http://www.foo.com/bar@2x.png")
  ∧ isMapboxURL (js "http://a.tiles.mapbox.com/v4/a/1/2/3.png?access_token=tk.abc") = false
  ∧ normalizeTileURL Sample.config {| devicePixelRatio := 1; supportsWebp := true |}
      (js "http://a.tiles.mapbox.com/v4/a/1/2/3.png?access_token=tk.abc")
      (Some (js "mapbox://a")) None
    = Ok (js "http://a.tiles.mapbox.com/v4/a/1/2/3.webp?access_token=pk.key").
Proof. repeat split. Qed.

(** C10: [replaceTempAccessToken] replaces every parameter that starts with
    [access_token=tk.] by [access_token=] followed by the configured token,
    by [access_token=] alone when no token is configured, and leaves the other
    parameters as they are; the tile wrapper formats the parsed tile URL with
    the parameters so replaced. *)
Theorem temp_token_replaced (config : Config) (parameters : list jsstring) :
  replaceTempAccessToken config parameters = replaced_param config <$> parameters
  ∧ (∀ p, js "access_token=tk." `prefix_of` p →
          replaced_param config p = js "access_token=" ++ or_empty (ACCESS_TOKEN config))
  ∧ (∀ p, js "access_token=tk." `prefix_of` p → truthy_str (ACCESS_TOKEN config) = false →
          replaced_param config p = js "access_token=")
  ∧ (∀ p, ¬ js "access_token=tk." `prefix_of` p → replaced_param config p = p)
  ∧ (∀ browser tileURL sourceURL tileSize o,
       js "mapbox:" `prefix_of` sourceURL → parseUrl tileURL = Ok o →
       ∃ path', normalizeTileURL config browser tileURL (Some sourceURL) tileSize
                = Ok (formatUrl {| protocol := protocol o; authority := authority o;
                                   path := path';
                                   params := replaced_param config <$> params o |})).
Proof.
  split; [apply replaceTempAccessToken_map |].
  unfold replaced_param. repeat split.
  - intros p Hp%starts_with_prefix. by rewrite Hp.
  - intros p Hp%starts_with_prefix Ht. rewrite Hp.
    destruct (ACCESS_TOKEN config) as [[|c l]|]; [|done|]; by rewrite app_nil_r.
  - intros p Hp. destruct (starts_with _ p) eqn:E; [|done].
    by apply starts_with_prefix in E.
  - intros browser tileURL sourceURL tileSize o Hs Ho.
    unfold normalizeTileURL.
    assert (Ht : truthy_str (Some sourceURL) = true).
    { destruct Hs as [k ->]. done. }
    apply isMapboxURL_prefix in Hs. rewrite Ht. simpl or_empty. rewrite Hs, Ho. simpl.
    eexists. by rewrite replaceTempAccessToken_map.
Qed.

(** A temporary token and another parameter. *)
Lemma temp_token_replaced_witness :
  replaced_param Sample.config (js "access_token=tk.abc") = js "access_token=pk.key"
  ∧ replaced_param Sample.config (js "style=tk.abc") = js "style=tk.abc".
Proof.
  destruct (temp_token_replaced Sample.config []) as (_ & Hin & _ & Hout & _).
  split.
  - apply (Hin (js "access_token=tk.abc")). by exists (js "abc").
  - apply (Hout (js "style=tk.abc")). intros [k Hk]. discriminate Hk.
Defined.

(** ** The telemetry queues: what a call can do *)

Section Telemetry.
Context `{Externals}.
Import TelemetryEvent.

(** Reading the storage, drawing an identifier and writing the storage do
    not touch the requests the transport holds. *)
Lemma fetchEventData_inflight config d env :
  inflight (fetchEventData config d env).2 = inflight env.
Proof.
  unfold fetchEventData. repeat case_match; done.
Qed.

Lemma saveEventData_inflight config d env :
  inflight (saveEventData config d env) = inflight env.
Proof. unfold saveEventData. repeat case_match; done. Qed.

Lemma count_app {A} (f : A → bool) (l1 l2 : list A) :
  count f (l1 ++ l2) = (count f l1 + count f l2)%nat.
Proof. induction l1 as [|x l1 IH]; simpl; [done |]. destruct (f x); lia. Qed.

Lemma count_delete {A} (f : A → bool) (l : list A) (k : nat) (x : A) :
  l !! k = Some x →
  count f l = (count f (delete k l) + if f x then 1 else 0)%nat.
Proof.
  revert k. induction l as [|y l IH]; intros k Hk; [done |].
  destruct k as [|k]; simpl in *.
  - injection Hk as ->. destruct (f x); lia.
  - rewrite (IH k Hk). destruct (f y); lia.
Qed.

Lemma fetch_if_inflight (b : bool) config d env d1 env1 :
  (if b then fetchEventData config d env else (d, env)) = (d1, env1) →
  inflight env1 = inflight env.
Proof.
  destruct b; intros Hf; [| by injection Hf as _ <-].
  by rewrite <- (fetchEventData_inflight config d env), Hf.
Qed.

Lemma uuid_if_inflight (b : bool) d env d1 env1 :
  (if b then let '(u, env0) := next_uuid env in (with_anonId (Some u) d, env0)
   else (d, env)) = (d1, env1) →
  inflight env1 = inflight env.
Proof. destruct b; intros Hf; by injection Hf as _ <-. Qed.

(** Only an object has an identifier that validates, or a field that is
    set. *)
Lemma validates_object (v : JsonValue) :
  validateUuid (anonId v) = true → ∃ d, v = Object d.
Proof. destruct v as [d| |]; [by exists d | done | done]. Qed.

Lemma truthy_anonId_object (v : JsonValue) :
  truthy_str (anonId v) = true → ∃ d, v = Object d.
Proof. destruct v as [d| |]; [by exists d | done | done]. Qed.

Lemma truthy_accessToken_object (v : JsonValue) :
  truthy_str (accessToken v) = true → ∃ d, v = Object d.
Proof. destruct v as [d| |]; [by exists d | done | done]. Qed.

(** The event data at hand is what the first step of the one-shot dispatch
    leaves in the object. *)
Lemma event_data_at_hand_fetch config (v : JsonValue) env d1 env1 :
  (if negb (truthy_str (anonId v)) then fetchEventData config v env else (v, env))
  = (d1, env1) →
  event_data_at_hand config v env = d1.
Proof.
  unfold event_data_at_hand. destruct (negb _); [by intros -> | by intros [= <- _]].
Qed.

Lemma object_at_hand_true config v env :
  object_at_hand config v env = true →
  is_null v = false ∧ ∃ d, event_data_at_hand config v env = Object d.
Proof.
  unfold object_at_hand. intros [Hn Ho]%andb_true_iff.
  split; [by apply negb_true_iff |].
  destruct (event_data_at_hand config v env) as [d| |]; [by exists d | done | done].
Qed.

(** What a call of the one-shot [processRequests] can do to the slot and to
    the transport: nothing, or, from an empty slot, post one request of its
    own and keep the handle.  It never touches the success set. *)
Lemma MapLoad_processRequests_shape config o env o' env' err :
  MapLoadEvent.processRequests config o env = (o', env', err) →
  MapLoadEvent.success o' = MapLoadEvent.success o
  ∧ ((MapLoadEvent.pendingRequest o' = MapLoadEvent.pendingRequest o
      ∧ inflight env' = inflight env)
     ∨ (MapLoadEvent.pendingRequest o = None
        ∧ ∃ h req id, MapLoadEvent.pendingRequest o' = Some h
                      ∧ inflight env' = inflight env ++ [(h, req, MapLoadCallback id)])).
Proof.
  unfold MapLoadEvent.processRequests. intros Hp.
  destruct (MapLoadEvent.pendingRequest o) as [h|] eqn:Hpend.
  { injection Hp as <- <- <-. rewrite Hpend. auto. }
  destruct (MapLoadEvent.queue o) as [|[id ts] rest] eqn:Hq.
  { injection Hp as <- <- <-. rewrite Hpend. auto. }
  destruct (negb (id =? 0) && _).
  { injection Hp as <- <- <-. simpl. rewrite Hpend. auto. }
  destruct (is_null _).
  { injection Hp as <- <- <-. simpl. rewrite Hpend. auto. }
  destruct (if negb (truthy_str _) then _ else _) as [d1 env1] eqn:Hf.
  apply fetch_if_inflight in Hf.
  destruct d1 as [d1| |].
  - destruct (if negb (validateUuid _) then _ else _) as [d2 env2] eqn:Hu.
    apply uuid_if_inflight in Hu.
    destruct (parseUrl (EVENTS_URL config)) as [u|e].
    + injection Hp as <- <- <-. simpl. split; [done |]. right. split; [done |].
      eexists _, _, _. split; [done |]. by rewrite Hu, Hf.
    + injection Hp as <- <- <-. simpl. rewrite Hpend, Hu, Hf. auto.
  - injection Hp as <- <- <-. simpl. rewrite Hpend, Hf. auto.
  - injection Hp as <- <- <-. simpl. rewrite Hpend, Hf. auto.
Qed.

(** The same for the recurring [processRequests], whatever the number of
    heads it drops on its way. *)
Lemma Turnstile_decide_inflight config nextUpdate d env d' env' due :
  TurnstileEvent.decide_due config nextUpdate d env = (d', env', due) →
  inflight env' = inflight env.
Proof.
  unfold TurnstileEvent.decide_due. intros Ha.
  destruct (is_null d); [by injection Ha as _ <- _ |].
  destruct (if negb (truthy_str _) || _ then _ else _) as [d1 env1] eqn:Hf.
  apply fetch_if_inflight in Hf.
  destruct d1 as [d1| |].
  - destruct (validateUuid (anonId d1)); simpl in Ha.
    + by injection Ha as _ <- _.
    + by injection Ha as _ <- _.
  - by injection Ha as _ <- _.
  - simpl in Ha. by injection Ha as _ <- _.
Qed.

Lemma Turnstile_processRequests_on_shape config q o env o' env' err :
  TurnstileEvent.processRequests_on config q o env = (o', env', err) →
  (TurnstileEvent.pendingRequest o' = TurnstileEvent.pendingRequest o
   ∧ inflight env' = inflight env)
  ∨ (TurnstileEvent.pendingRequest o = None
     ∧ ∃ h req nextUpdate,
         TurnstileEvent.pendingRequest o' = Some h
         ∧ inflight env' = inflight env ++ [(h, req, TurnstileCallback nextUpdate)]).
Proof.
  revert o env. induction q as [|nextUpdate rest IH]; intros o env Hp; simpl in Hp.
  { destruct (TurnstileEvent.pendingRequest o) eqn:Hpend; injection Hp as <- <- <-;
      rewrite ?Hpend; auto. }
  destruct (TurnstileEvent.pendingRequest o) as [h|] eqn:Hpend.
  { injection Hp as <- <- <-. rewrite Hpend. auto. }
  destruct (TurnstileEvent.decide_due config nextUpdate (TurnstileEvent.eventData o) env)
    as [[d env1] due] eqn:Ha.
  apply Turnstile_decide_inflight in Ha.
  destruct due as [[|]|e]; simpl in Hp.
  - destruct (parseUrl (EVENTS_URL config)) as [u|e].
    + injection Hp as <- <- <-. simpl. right. split; [done |].
      eexists _, _, _. split; [done |]. by rewrite Ha.
    + injection Hp as <- <- <-. simpl. rewrite Ha. auto.
  - apply IH in Hp. simpl in Hp. by rewrite Ha, Hpend in Hp.
  - injection Hp as <- <- <-. simpl. rewrite Hpend, Ha. auto.
Qed.

Lemma MapLoad_callback_shape config id error o env o' env' err :
  MapLoadEvent.callback config id error o env = (o', env', err) →
  (MapLoadEvent.pendingRequest o' = None ∧ inflight env' = inflight env)
  ∨ (∃ h req id', MapLoadEvent.pendingRequest o' = Some h
                  ∧ inflight env' = inflight env ++ [(h, req, MapLoadCallback id')]).
Proof.
  unfold MapLoadEvent.callback. destruct error as [e|]; intros Hc.
  { injection Hc as <- <- <-. auto. }
  apply MapLoad_processRequests_shape in Hc as [_ Hc].
  rewrite saveEventData_inflight in Hc.
  destruct Hc as [[Hp Hi] | (_ & h & req & id' & Hp & Hi)].
  - left. split; [|done]. rewrite Hp. by destruct (negb (id =? 0)).
  - right. by exists h, req, id'.
Qed.

Lemma MapLoad_callback_success config id o env :
  MapLoadEvent.success (MapLoadEvent.callback config id None o env).1.1
  = if negb (id =? 0) then <[id := true]> (MapLoadEvent.success o)
    else MapLoadEvent.success o.
Proof.
  unfold MapLoadEvent.callback. cbv zeta.
  destruct (MapLoadEvent.processRequests _ _ _) as [[o' env'] err] eqn:Hp.
  apply MapLoad_processRequests_shape in Hp as [Hs _]. simpl. rewrite Hs.
  by destruct (negb (id =? 0)).
Qed.

Lemma Turnstile_callback_shape config nextUpdate error o env o' env' err :
  TurnstileEvent.callback config nextUpdate error o env = (o', env', err) →
  (TurnstileEvent.pendingRequest o' = None ∧ inflight env' = inflight env)
  ∨ (∃ h req n, TurnstileEvent.pendingRequest o' = Some h
                ∧ inflight env' = inflight env ++ [(h, req, TurnstileCallback n)]).
Proof.
  unfold TurnstileEvent.callback. destruct error as [e|]; intros Hc.
  { injection Hc as <- <- <-. auto. }
  destruct (TurnstileEvent.eventData _) as [d| |] eqn:Hd;
    [| injection Hc as <- <- <-; auto ..].
  apply Turnstile_processRequests_on_shape in Hc.
  rewrite saveEventData_inflight in Hc.
  destruct Hc as [[Hp Hi] | (_ & h & req & n & Hp & Hi)].
  - left. by split.
  - right. by exists h, req, n.
Qed.

(** Every step of the module keeps each queue at one request at most. *)
Lemma step_single_flight s a : single_flight s → single_flight (step s a).
Proof.
  unfold single_flight, held. intros [Ht Hm].
  destruct a as [c | st | now urls | now urls mapId | k error]; unfold step.
  - done.
  - done.
  - unfold TurnstileEvent.postTurnstileEvent, TurnstileEvent.queueRequest,
      TurnstileEvent.processRequests.
    destruct (truthy_str _ && _); [|done].
    destruct (TurnstileEvent.processRequests_on _ _ _ _) as [[o' e'] err] eqn:Hp.
    apply Turnstile_processRequests_on_shape in Hp. simpl in *.
    destruct Hp as [[-> ->] | (Hnone & h & req & n & -> & ->)]; [done |].
    rewrite !count_app, Ht, Hm, Hnone. simpl. lia.
  - unfold MapLoadEvent.postMapLoadEvent, MapLoadEvent.queueRequest.
    destruct (truthy_str _ && _); [|done].
    destruct (MapLoadEvent.processRequests _ _ _) as [[o' e'] err] eqn:Hp.
    apply MapLoad_processRequests_shape in Hp as [_ Hp]. simpl in *.
    destruct Hp as [[-> ->] | (Hnone & h & req & n & -> & ->)]; [done |].
    rewrite !count_app, Ht, Hm, Hnone. simpl. lia.
  - destruct (inflight (env s) !! k) as [[[h req] [id | nextUpdate]]|] eqn:Hk; [| |done].
    + pose proof (count_delete is_map_load _ _ _ Hk) as Hcm.
      pose proof (count_delete is_turnstile _ _ _ Hk) as Hct. simpl in Hcm, Hct.
      destruct (MapLoadEvent.callback _ _ _ _ _) as [[o' e'] err] eqn:Hc.
      apply MapLoad_callback_shape in Hc. simpl in *.
      assert (count is_map_load (delete k (inflight (env s))) = 0%nat) as Hz.
      { destruct (MapLoadEvent.pendingRequest (mapLoadEvent_ s)); simpl in Hm; lia. }
      destruct Hc as [[-> ->] | (h' & req' & id' & -> & ->)];
        rewrite ?count_app; simpl; lia.
    + pose proof (count_delete is_map_load _ _ _ Hk) as Hcm.
      pose proof (count_delete is_turnstile _ _ _ Hk) as Hct. simpl in Hcm, Hct.
      destruct (TurnstileEvent.callback _ _ _ _ _) as [[o' e'] err] eqn:Hc.
      apply Turnstile_callback_shape in Hc. simpl in *.
      assert (count is_turnstile (delete k (inflight (env s))) = 0%nat) as Hz.
      { destruct (TurnstileEvent.pendingRequest (turnstileEvent_ s)); simpl in Ht; lia. }
      destruct Hc as [[-> ->] | (h' & req' & id' & -> & ->)];
        rewrite ?count_app; simpl; lia.
Qed.

Lemma run_single_flight s actions : single_flight s → single_flight (run s actions).
Proof.
  revert s. induction actions as [|a actions IH]; intros s Hs; [done |].
  apply IH. by apply step_single_flight.
Qed.

(** No step of the module marks the identifier 0. *)
Lemma step_zero_unmarked s a :
  MapLoadEvent.succeeded (mapLoadEvent_ s) 0 = false →
  MapLoadEvent.succeeded (mapLoadEvent_ (step s a)) 0 = false.
Proof.
  intros Hz. destruct a as [c | st | now urls | now urls mapId | k error];
    unfold step; try done.
  - by destruct (TurnstileEvent.postTurnstileEvent _ _ _ _ _) as [[o' e'] err].
  - unfold MapLoadEvent.postMapLoadEvent, MapLoadEvent.queueRequest.
    destruct (truthy_str _ && _); [|done].
    destruct (MapLoadEvent.processRequests _ _ _) as [[o' e'] err] eqn:Hp.
    apply MapLoad_processRequests_shape in Hp as [Hs _].
    unfold MapLoadEvent.succeeded in *. simpl in *. by rewrite Hs.
  - destruct (inflight (env s) !! k) as [[[h req] [id | nextUpdate]]|] eqn:Hk; [| |done].
    + destruct error as [e|].
      { unfold MapLoadEvent.callback. done. }
      pose proof (MapLoad_callback_success (config s) id (mapLoadEvent_ s)
                    (with_inflight (delete k (inflight (env s))) (env s))) as Hs.
      destruct (MapLoadEvent.callback _ _ _ _ _) as [[o' e'] err].
      unfold MapLoadEvent.succeeded in *. simpl in *. rewrite Hs.
      destruct (id =? 0) eqn:E; simpl; [done |].
      apply Z.eqb_neq in E. by rewrite lookup_insert_ne.
    + by destruct (TurnstileEvent.callback _ _ _ _ _) as [[o' e'] err].
Qed.

Lemma run_zero_unmarked s actions :
  MapLoadEvent.succeeded (mapLoadEvent_ s) 0 = false →
  MapLoadEvent.succeeded (mapLoadEvent_ (run s actions)) 0 = false.
Proof.
  revert s. induction actions as [|a actions IH]; intros s Hs; [done |].
  apply IH. by apply step_zero_unmarked.
Qed.

(** The two comparisons on [daysElapsed], in milliseconds. *)
Lemma daysElapsed_at_least_one (nextUpdate last : Z) :
  Qle_bool 1 (TurnstileEvent.daysElapsed nextUpdate last)
  = (86400000 <=? nextUpdate - last).
Proof.
  unfold TurnstileEvent.daysElapsed, Qle_bool, Qdiv, Qmult, Qinv, inject_Z.
  change (24 * 60 * 60 * 1000) with 86400000. cbn [Qnum Qden].
  destruct (Z.leb_spec 86400000 (nextUpdate - last)); [apply Z.leb_le | apply Z.leb_gt]; lia.
Qed.

Lemma daysElapsed_below_minus_one (nextUpdate last : Z) :
  TurnstileEvent.Qlt_bool (TurnstileEvent.daysElapsed nextUpdate last) (-1)
  = (nextUpdate - last <? -86400000).
Proof.
  unfold TurnstileEvent.Qlt_bool, TurnstileEvent.daysElapsed, Qle_bool, Qdiv, Qmult, Qinv,
    inject_Z.
  change (24 * 60 * 60 * 1000) with 86400000. cbn [Qnum Qden].
  destruct (Z.ltb_spec (nextUpdate - last) (-86400000)) as [Hlt | Hge].
  - apply negb_true_iff, Z.leb_gt. lia.
  - apply negb_false_iff, Z.leb_le. lia.
Qed.

(** When [dueForEvent] is raised: the stored token differs from the
    configured one, or a new identifier had to be drawn, or there is a time of
    last success and the new time is a day or more after it, more than a day
    before it, or on another day of the month.  Without a time of last
    success the first two are the only ways. *)
Lemma decide_due_flag config nextUpdate d env d' env' due :
  TurnstileEvent.decide_due config nextUpdate d env = (d', env', Ok due) →
  due
  = (truthy_str (accessToken d) && negb (bool_decide (accessToken d = ACCESS_TOKEN config)))
    || negb (uuids env' =? uuids env)%nat
    || match lastSuccess d' with
       | Some last =>
           negb (last =? 0)
           && ((86400000 <=? nextUpdate - last) || (nextUpdate - last <? -86400000)
               || negb (getDate last =? getDate nextUpdate))
       | None => false
       end.
Proof.
  unfold TurnstileEvent.decide_due. intros Hd.
  destruct (is_null d); [done |].
  destruct (if negb (truthy_str _) || _ then _ else _) as [d1 env1] eqn:Hf.
  assert (Hu1 : uuids env1 = uuids env).
  { destruct (negb _ || negb _) in Hf; [| by injection Hf as _ <-].
    unfold fetchEventData in Hf. repeat case_match; by injection Hf as _ <-. }
  destruct d1 as [d1| |]; [| done | done].
  assert (Hchanged :
    (if truthy_str (accessToken d)
     then negb (bool_decide (accessToken d = ACCESS_TOKEN config)) else false)
    = truthy_str (accessToken d) && negb (bool_decide (accessToken d = ACCESS_TOKEN config))).
  { by destruct (truthy_str (accessToken d)). }
  rewrite Hchanged in Hd.
  set (changed := truthy_str (accessToken d) && _) in *. clearbody changed.
  destruct (validateUuid (anonId d1)); cbn [negb] in Hd.
  - injection Hd as <- <- <-. cbn [fields].
    rewrite Hu1, Nat.eqb_refl. cbn [negb]. rewrite orb_false_r.
    destruct (lastSuccess d1) as [last|]; cbn [truthy_num default].
    + rewrite daysElapsed_at_least_one, daysElapsed_below_minus_one.
      destruct (last =? 0); cbn [negb andb]; [by rewrite orb_false_r |].
      by rewrite <- !orb_assoc.
    + by rewrite orb_false_r.
  - injection Hd as <- <- <-. cbn [fields next_uuid uuids snd with_anonId lastSuccess].
    rewrite Hu1. replace (S (uuids env) =? uuids env)%nat with false
      by (symmetry; apply Nat.eqb_neq; lia).
    cbn [negb]. rewrite orb_true_r.
    destruct (lastSuccess d1) as [last|]; cbn [truthy_num default]; [|done].
    by destruct (last =? 0).
Qed.

(** A head that is due is posted, when the events URL parses. *)
Lemma due_head_is_posted config o env nextUpdate rest d env' eventsUrlObject :
  TurnstileEvent.pendingRequest o = None →
  TurnstileEvent.queue o = nextUpdate :: rest →
  TurnstileEvent.decide_due config nextUpdate (TurnstileEvent.eventData o) env
  = (d, env', Ok true) →
  parseUrl (EVENTS_URL config) = Ok eventsUrlObject →
  ∃ o' env'' h req,
    TurnstileEvent.processRequests config o env = (o', env'', None)
    ∧ TurnstileEvent.pendingRequest o' = Some h
    ∧ TurnstileEvent.queue o' = rest
    ∧ inflight env'' = inflight env ++ [(h, req, TurnstileCallback nextUpdate)].
Proof.
  intros Hpend Hq Hdec Hurl.
  unfold TurnstileEvent.processRequests. rewrite Hq. simpl.
  rewrite Hpend, Hdec, Hurl. simpl.
  eexists _, _, _, _. split_and!; try done.
  simpl. by rewrite (Turnstile_decide_inflight _ _ _ _ _ _ _ Hdec).
Qed.

End Telemetry.

(** ** The telemetry queues: the claims *)

Section Claims.
Context `{Externals}.
Import TelemetryEvent.

(** C1: when the transport reports an error, the callback of either queue
    empties the slot and does nothing else: the queue, the event data, the
    success set, the storage with its log of writes, and the requests held
    by the transport are as before, and nothing is thrown.  For the module,
    the completion of a request with an error removes that request from
    the transport, empties the slot of its queue and changes nothing
    else. *)
Theorem transport_error_only_clears_slot (config : Config) (id nextUpdate : Z)
    (e : TransportError) (m : MapLoadEvent.t) (t : TurnstileEvent.t) (w : Env) :
  MapLoadEvent.callback config id (Some e) m w
  = (MapLoadEvent.with_pendingRequest None m, w, None)
  ∧ TurnstileEvent.callback config nextUpdate (Some e) t w
    = (TurnstileEvent.with_pendingRequest None t, w, None)
  ∧ (∀ s k, step s (Complete k (Some e)) = slot_cleared k s).
Proof.
  split_and!; [done | done |].
  intros s k. unfold step, slot_cleared.
  by destruct (inflight (env s) !! k) as [[[h req] [i | n]]|].
Qed.

(** C9: an entry whose identifier is 0 is never taken for a duplicate.
    From an empty slot, and with an events URL that parses, the one-shot
    [processRequests] never returns without a request for it, whatever the
    success set holds: when there is an object to read the anonymous
    identifier from, it posts a request; when there is none (the event data,
    or the stored text read in its place, is [null], a number, a string or a
    boolean), it throws a type error, with the entry off the queue and no
    request posted.  The callback of the request leaves the success set as
    it is on success, where the callback for any other identifier marks it;
    and no run of the module ever marks the identifier 0. *)
Theorem id_zero_never_deduplicated (config : Config) (m : MapLoadEvent.t) (env : Env)
    (timestamp : Z) (rest : list MapLoadEvent.Entry) (eventsUrlObject : UrlObject) :
  MapLoadEvent.pendingRequest m = None →
  MapLoadEvent.queue m
  = {| MapLoadEvent.id := 0; MapLoadEvent.timestamp := timestamp |} :: rest →
  parseUrl (EVENTS_URL config) = Ok eventsUrlObject →
  (object_at_hand config (MapLoadEvent.eventData m) env = true →
   ∃ m' env' h req,
      MapLoadEvent.processRequests config m env = (m', env', None)
      ∧ MapLoadEvent.pendingRequest m' = Some h
      ∧ MapLoadEvent.queue m' = rest
      ∧ MapLoadEvent.success m' = MapLoadEvent.success m
      ∧ inflight env' = inflight env ++ [(h, req, MapLoadCallback 0)])
  ∧ (object_at_hand config (MapLoadEvent.eventData m) env = false →
     ∃ m' env',
        MapLoadEvent.processRequests config m env = (m', env', Some TypeError)
        ∧ is_object (MapLoadEvent.eventData m') = false
        ∧ MapLoadEvent.pendingRequest m' = None
        ∧ MapLoadEvent.queue m' = rest
        ∧ MapLoadEvent.success m' = MapLoadEvent.success m
        ∧ inflight env' = inflight env)
  ∧ (∀ m1 env1,
        MapLoadEvent.success (MapLoadEvent.callback config 0 None m1 env1).1.1
        = MapLoadEvent.success m1)
  ∧ (∀ id m1 env1, id ≠ 0 →
        MapLoadEvent.success (MapLoadEvent.callback config id None m1 env1).1.1
        = <[id := true]> (MapLoadEvent.success m1))
  ∧ (∀ c st actions,
        MapLoadEvent.succeeded (mapLoadEvent_ (run (load c st) actions)) 0 = false).
Proof.
  intros Hpend Hq Hurl. split_and!.
  - intros Hobj. apply object_at_hand_true in Hobj as (Hnull & d & Hv).
    unfold MapLoadEvent.processRequests. rewrite Hpend, Hq. cbn [Z.eqb negb andb].
    cbn [MapLoadEvent.eventData MapLoadEvent.with_queue]. rewrite Hnull.
    destruct (if negb (truthy_str _) then _ else _) as [d1 env1] eqn:Hf.
    rewrite (event_data_at_hand_fetch _ _ _ _ _ Hf) in Hv. subst d1.
    apply fetch_if_inflight in Hf.
    destruct (if negb (validateUuid _) then _ else _) as [d2 env2] eqn:Hu.
    apply uuid_if_inflight in Hu.
    rewrite Hurl. simpl. eexists _, _, _, _. split_and!; try done.
    simpl. by rewrite Hu, Hf.
  - intros Hobj.
    unfold MapLoadEvent.processRequests. rewrite Hpend, Hq. cbn [Z.eqb negb andb].
    cbn [MapLoadEvent.eventData MapLoadEvent.with_queue].
    unfold object_at_hand in Hobj.
    destruct (is_null (MapLoadEvent.eventData m)) eqn:Hnull.
    { eexists _, _. split; [done |]. cbn.
      by destruct (MapLoadEvent.eventData m). }
    cbn [negb andb] in Hobj.
    destruct (if negb (truthy_str _) then _ else _) as [d1 env1] eqn:Hf.
    rewrite (event_data_at_hand_fetch _ _ _ _ _ Hf) in Hobj.
    apply fetch_if_inflight in Hf.
    destruct d1 as [d1| |]; [done | |]; eexists _, _; by split_and!.
  - intros m1 env1. by rewrite MapLoad_callback_success.
  - intros id m1 env1 Hid. rewrite MapLoad_callback_success.
    apply Z.eqb_neq in Hid. by rewrite Hid.
  - intros c st actions. by apply run_zero_unmarked.
Qed.


(** C3: the recurring queue does not send when nothing but the time of the
    last success is missing.  With an identifier that validates, the token
    unchanged, no time of last success and nothing to read from the
    storage, the head of the queue is not due: [processRequests] drops it
    and goes on with the rest, so that a queue of one entry is emptied
    without a request. *)
Theorem missing_lastSuccess_is_not_due (config : Config) (t : TurnstileEvent.t)
    (env : Env) (nextUpdate : Z) (rest : list Z) :
  TurnstileEvent.pendingRequest t = None →
  TurnstileEvent.queue t = nextUpdate :: rest →
  validateUuid (anonId (TurnstileEvent.eventData t)) = true →
  accessToken (TurnstileEvent.eventData t) = ACCESS_TOKEN config →
  lastSuccess (TurnstileEvent.eventData t) = None →
  getItem_throws (storage env) = false →
  items (storage env) !! storageKey config = None →
  TurnstileEvent.decide_due config nextUpdate (TurnstileEvent.eventData t) env
  = (TurnstileEvent.eventData t, env, Ok false)
  ∧ TurnstileEvent.processRequests config t env
    = TurnstileEvent.processRequests config (TurnstileEvent.with_queue rest t) env
  ∧ (rest = [] →
     TurnstileEvent.processRequests config t env
     = (TurnstileEvent.with_queue [] t, env, None)).
Proof.
  intros Hpend Hq Hvalid Htoken Hlast Hget Hitems.
  assert (Hdec : TurnstileEvent.decide_due config nextUpdate (TurnstileEvent.eventData t) env
                   = (TurnstileEvent.eventData t, env, Ok false)).
  { destruct (validates_object _ Hvalid) as [d Hd]. rewrite Hd in *. cbn [fields] in *.
    unfold TurnstileEvent.decide_due. cbn [is_null fields].
    assert (Hdue : (if truthy_str (accessToken d)
                    then negb (bool_decide (accessToken d = ACCESS_TOKEN config))
                    else false) = false).
    { rewrite bool_decide_eq_true_2 by done. by destruct (truthy_str _). }
    rewrite Hdue. cbn [fields]. rewrite Hlast. cbn [truthy_num negb]. rewrite orb_true_r.
    unfold fetchEventData. rewrite Hget, Hitems.
    destruct (available (storage env)); rewrite Hvalid; cbn [negb]; by rewrite Hlast. }
  assert (Hdrop : TurnstileEvent.processRequests config t env
                  = TurnstileEvent.processRequests config
                      (TurnstileEvent.with_queue rest t) env).
  { unfold TurnstileEvent.processRequests. rewrite Hq. simpl.
    rewrite Hpend, Hdec. simpl. by destruct t. }
  split_and!; [done | done |].
  intros ->. rewrite Hdrop. unfold TurnstileEvent.processRequests. simpl.
  by rewrite Hpend.
Qed.

(** C5: a report appends an entry and calls [processRequests] exactly when
    an access token is configured and one of the URLs is a Mapbox HTTP URL;
    otherwise it changes nothing. *)
Theorem report_enqueues_iff_eligible (config : Config) (now : Z)
    (tileUrls : list jsstring) (mapId : Z) (m : MapLoadEvent.t)
    (t : TurnstileEvent.t) (env : Env) :
  let eligible :=
    truthy_str (ACCESS_TOKEN config) = true
    ∧ ∃ url, url ∈ tileUrls ∧ isMapboxHTTPURL url = true in
  (eligible →
   MapLoadEvent.postMapLoadEvent config now tileUrls mapId m env
   = MapLoadEvent.processRequests config
       (MapLoadEvent.with_queue
          (MapLoadEvent.queue m
           ++ [{| MapLoadEvent.id := mapId; MapLoadEvent.timestamp := now |}]) m) env
   ∧ TurnstileEvent.postTurnstileEvent config now tileUrls t env
     = TurnstileEvent.processRequests config
         (TurnstileEvent.with_queue (TurnstileEvent.queue t ++ [now]) t) env)
  ∧ (¬ eligible →
     MapLoadEvent.postMapLoadEvent config now tileUrls mapId m env = (m, env, None)
     ∧ TurnstileEvent.postTurnstileEvent config now tileUrls t env = (t, env, None)).
Proof.
  intros eligible.
  assert (Hiff : truthy_str (ACCESS_TOKEN config) && existsb isMapboxHTTPURL tileUrls = true
                 ↔ eligible).
  { unfold eligible. rewrite andb_true_iff, existsb_exists.
    by setoid_rewrite list_elem_of_In. }
  unfold MapLoadEvent.postMapLoadEvent, TurnstileEvent.postTurnstileEvent.
  destruct (truthy_str (ACCESS_TOKEN config) && existsb isMapboxHTTPURL tileUrls).
  - split; [done |]. intros Hn. destruct Hn. by apply Hiff.
  - split; [|done]. intros He. by apply Hiff in He.
Qed.

(** C4: [processRequests] returns at once, leaving the queue, the event
    data and the transport as they are, when a handle is in the slot and
    when the queue is empty; and whatever the module is asked to do, the
    transport never holds more than one request of a queue, and holds one
    exactly when that queue has a handle in its slot. *)
Theorem one_request_at_a_time (config : Config) (m : MapLoadEvent.t)
    (t : TurnstileEvent.t) (env : Env) (h : Cancelable)
    (c : Config) (st : LocalStorage) (actions : list Action) :
  MapLoadEvent.processRequests config (MapLoadEvent.with_pendingRequest (Some h) m) env
  = (MapLoadEvent.with_pendingRequest (Some h) m, env, None)
  ∧ MapLoadEvent.processRequests config (MapLoadEvent.with_queue [] m) env
    = (MapLoadEvent.with_queue [] m, env, None)
  ∧ TurnstileEvent.processRequests config (TurnstileEvent.with_pendingRequest (Some h) t) env
    = (TurnstileEvent.with_pendingRequest (Some h) t, env, None)
  ∧ TurnstileEvent.processRequests config (TurnstileEvent.with_queue [] t) env
    = (TurnstileEvent.with_queue [] t, env, None)
  ∧ single_flight (run (load c st) actions)
  ∧ (held is_map_load (run (load c st) actions) ≤ 1)%nat
  ∧ (held is_turnstile (run (load c st) actions) ≤ 1)%nat.
Proof.
  split_and!.
  - done.
  - unfold MapLoadEvent.processRequests. simpl. by destruct (MapLoadEvent.pendingRequest m).
  - unfold TurnstileEvent.processRequests. simpl.
    by destruct (TurnstileEvent.queue t).
  - unfold TurnstileEvent.processRequests. simpl.
    by destruct (TurnstileEvent.pendingRequest t).
  - by apply run_single_flight.
  - destruct (run_single_flight (load c st) actions) as [_ ->]; [done |].
    by destruct (MapLoadEvent.pendingRequest _); simpl; lia.
  - destruct (run_single_flight (load c st) actions) as [-> _]; [done |].
    by destruct (TurnstileEvent.pendingRequest _); simpl; lia.
Qed.

End Claims.


(** After a first report whose request failed, the next report is dropped:
    the module is as it was before the report. *)
Lemma missing_lastSuccess_is_not_due_witness :
  TurnstileEvent.postTurnstileEvent (H := Sample.externals) Sample.config Sample.noon
    Sample.tiles (turnstileEvent_ Sample.after_failed_delivery)
    (env Sample.after_failed_delivery)
  = (turnstileEvent_ Sample.after_failed_delivery, env Sample.after_failed_delivery, None).
Proof.
  destruct (missing_lastSuccess_is_not_due (H := Sample.externals) Sample.config
              (TurnstileEvent.with_queue [Sample.noon]
                 (turnstileEvent_ Sample.after_failed_delivery))
              (env Sample.after_failed_delivery) Sample.noon [])
    as (_ & _ & Hdrop); [reflexivity .. |].
  exact (Hdrop eq_refl).
Defined.

(** Map 0 reported again after its load event was delivered. *)
Lemma id_zero_never_deduplicated_witness :
  ∃ m' env' h req,
    MapLoadEvent.processRequests (H := Sample.externals) Sample.config
      (MapLoadEvent.with_queue
         [{| MapLoadEvent.id := 0; MapLoadEvent.timestamp := Sample.noon |}]
         (mapLoadEvent_ Sample.after_load_of_map_zero))
      (env Sample.after_load_of_map_zero)
    = (m', env', None)
    ∧ MapLoadEvent.pendingRequest m' = Some h
    ∧ MapLoadEvent.queue m' = []
    ∧ MapLoadEvent.success m' = MapLoadEvent.success (mapLoadEvent_ Sample.after_load_of_map_zero)
    ∧ inflight env'
      = inflight (env Sample.after_load_of_map_zero) ++ [(h, req, MapLoadCallback 0)].
Proof.
  edestruct (id_zero_never_deduplicated (H := Sample.externals) Sample.config
               (MapLoadEvent.with_queue
                  [{| MapLoadEvent.id := 0; MapLoadEvent.timestamp := Sample.noon |}]
                  (mapLoadEvent_ Sample.after_load_of_map_zero))
               (env Sample.after_load_of_map_zero)) as [Hpost _];
    [reflexivity .. |].
  exact (Hpost eq_refl).
Defined.

(** A report with a Mapbox tile URL, and one without. *)
Lemma report_enqueues_iff_eligible_witness :
  TurnstileEvent.postTurnstileEvent (H := Sample.externals) Sample.config Sample.noon
    Sample.tiles (TurnstileEvent.new Sample.config) (fresh_env Sample.empty_storage)
  = TurnstileEvent.processRequests (H := Sample.externals) Sample.config
      (TurnstileEvent.with_queue [Sample.noon] (TurnstileEvent.new Sample.config))
      (fresh_env Sample.empty_storage)
  ∧ TurnstileEvent.postTurnstileEvent (H := Sample.externals) Sample.config Sample.noon
      [js "https://tiles.example.com/{z}/{x}/{y}.png"]
      (TurnstileEvent.new Sample.config) (fresh_env Sample.empty_storage)
    = (TurnstileEvent.new Sample.config, fresh_env Sample.empty_storage, None).
Proof.
  split.
  - apply (report_enqueues_iff_eligible (H := Sample.externals) Sample.config Sample.noon
             Sample.tiles 0 (MapLoadEvent.new Sample.config)).
    split; [reflexivity |]. eexists. split; [apply list_elem_of_here | reflexivity].
  - apply (report_enqueues_iff_eligible (H := Sample.externals) Sample.config Sample.noon
             [js "https://tiles.example.com/{z}/{x}/{y}.png"] 0
             (MapLoadEvent.new Sample.config)).
    intros [_ (url & Hin & Hurl)]. apply list_elem_of_singleton in Hin as ->.
    discriminate Hurl.
Defined.

(** The examples of the specification for the first-party HTTP pattern. *)
Example isMapboxHTTPURL_examples :
  isMapboxHTTPURL (js "https://api.mapbox.com/styles/v1/x") = true
  ∧ isMapboxHTTPURL (js "//sub.mapbox.com/x") = true
  ∧ isMapboxHTTPURL (js "https://evil.com/mapbox.com") = false.
Proof. repeat split. Qed.

(** ** The module on the scenarios of the specification *)

(** The same map reported twice before the first delivery completes: one
    request, and the second entry is dropped once the first has succeeded. *)
Example one_shot_same_map_twice :
  let s := run (H := Sample.externals) (load Sample.config Sample.empty_storage)
             [PostMapLoadEvent Sample.morning Sample.tiles 5;
              PostMapLoadEvent Sample.noon Sample.tiles 5;
              Complete 0 None] in
  posted (env s) = 1%nat ∧ held is_map_load s = 0%nat
  ∧ MapLoadEvent.queue (mapLoadEvent_ s) = []
  ∧ MapLoadEvent.success (mapLoadEvent_ s) !! 5 = Some true.
Proof. vm_compute. repeat split. Qed.

(** Two maps: two requests, the second once the first has succeeded. *)
Example one_shot_two_maps :
  let s := run (H := Sample.externals) (load Sample.config Sample.empty_storage)
             [PostMapLoadEvent Sample.morning Sample.tiles 5;
              PostMapLoadEvent Sample.noon Sample.tiles 7;
              Complete 0 None] in
  posted (env s) = 2%nat ∧ held is_map_load s = 1%nat.
Proof. vm_compute. repeat split. Qed.

(** A duplicate ahead of another map stops the draining: the other map stays
    in the queue with the slot empty. *)
Example one_shot_duplicate_stops_draining :
  let s := run (H := Sample.externals) (load Sample.config Sample.empty_storage)
             [PostMapLoadEvent Sample.morning Sample.tiles 5;
              PostMapLoadEvent Sample.noon Sample.tiles 5;
              PostMapLoadEvent Sample.noon Sample.tiles 7;
              Complete 0 None] in
  posted (env s) = 1%nat
  ∧ MapLoadEvent.pendingRequest (mapLoadEvent_ s) = None
  ∧ MapLoadEvent.queue (mapLoadEvent_ s)
    = [{| MapLoadEvent.id := 7; MapLoadEvent.timestamp := Sample.noon |}].
Proof. vm_compute. repeat split. Qed.

(** Two usage reports on one day, the first delivered: the second is
    skipped; a report on the next day is sent. *)
Example recurring_same_day_then_next_day :
  let s1 := run (H := Sample.externals) (load Sample.config Sample.empty_storage)
              [PostTurnstileEvent Sample.morning Sample.tiles; Complete 0 None;
               PostTurnstileEvent Sample.noon Sample.tiles] in
  let s2 := step (H := Sample.externals) s1
              (PostTurnstileEvent Sample.next_day Sample.tiles) in
  posted (env s1) = 1%nat ∧ held is_turnstile s1 = 0%nat
  ∧ posted (env s2) = 2%nat ∧ held is_turnstile s2 = 1%nat.
Proof. vm_compute. repeat split. Qed.

(** A change of access token between two reports of one day: the second is
    sent. *)
Example recurring_token_change :
  let s := run (H := Sample.externals) (load Sample.config Sample.empty_storage)
             [PostTurnstileEvent Sample.morning Sample.tiles; Complete 0 None;
              SetConfig Sample.config_other_token;
              PostTurnstileEvent Sample.noon Sample.tiles] in
  posted (env s) = 2%nat ∧ held is_turnstile s = 1%nat.
Proof. vm_compute. repeat split. Qed.

(** The tile URL examples: the compressed extension without suffix, and the
    [@2x] suffix for tiles of 512 pixels. *)
Example tile_url_examples :
  normalizeTileURL Sample.config {| devicePixelRatio := 1; supportsWebp := true |}
    (js "http://a.tiles.mapbox.com/v4/a/1/2/3.png") (Some (js "mapbox://a")) None
  = Ok (js "http://a.tiles.mapbox.com/v4/a/1/2/3.webp")
  ∧ normalizeTileURL Sample.config {| devicePixelRatio := 1; supportsWebp := true |}
      (js "http://a.tiles.mapbox.com/v4/a/1/2/3.png") (Some (js "mapbox://a")) (Some 512)
    = Ok (js "http://a.tiles.mapbox.com/v4/a/1/2/3@2x.webp")
  ∧ normalizeTileURL Sample.config {| devicePixelRatio := 1; supportsWebp := false |}
      (js "http://a.tiles.mapbox.com/v4/a/1/2/3.png32") (Some (js "mapbox://a")) (Some 512)
    = Ok (js "http://a.tiles.mapbox.com/v4/a/1/2/3@2x.png32").
Proof. repeat split. Qed.

(** * Further properties *)

(** ** What the queues send *)

Section Sending.
Context `{Externals}.
Import TelemetryEvent.

(** Reading the storage and drawing an identifier leave the count of
    requests as it is. *)
Lemma fetch_if_posted (b : bool) config d env d1 env1 :
  (if b then fetchEventData config d env else (d, env)) = (d1, env1) →
  posted env1 = posted env ∧ inflight env1 = inflight env.
Proof.
  destruct b; intros Hf; [| by injection Hf as _ <-].
  unfold fetchEventData in Hf. repeat case_match; by injection Hf as _ <-.
Qed.

(** After the identity step the identifier validates, or is the one just
    drawn. *)
Lemma uuid_if_identity d env d1 env1 :
  (if negb (validateUuid (anonId d))
   then let '(u, env0) := next_uuid env in (with_anonId (Some u) d, env0)
   else (d, env)) = (d1, env1) →
  posted env1 = posted env ∧ inflight env1 = inflight env
  ∧ (validateUuid (anonId d1) = true ∨ ∃ n, anonId d1 = Some (uuid n)).
Proof.
  destruct (validateUuid (anonId d)) eqn:Hv; simpl; intros Hu; injection Hu as <- <-.
  - auto.
  - split_and!; [done | done |]. right. by eexists.
Qed.

Lemma decide_due_identity config nextUpdate d env d' env' due :
  TurnstileEvent.decide_due config nextUpdate d env = (d', env', due) →
  posted env' = posted env
  ∧ (∀ b, due = Ok b →
          validateUuid (anonId d') = true ∨ ∃ n, anonId d' = Some (uuid n)).
Proof.
  unfold TurnstileEvent.decide_due. intros Hd.
  destruct (is_null d); [by injection Hd as <- <- <- |].
  destruct (if negb (truthy_str _) || _ then _ else _) as [d1 env1] eqn:Hf.
  apply fetch_if_posted in Hf as [Hp _].
  destruct d1 as [d1| |]; [| by injection Hd as <- <- <- | by injection Hd as <- <- <-].
  destruct (validateUuid (anonId d1)) eqn:Hv; simpl in Hd; injection Hd as <- <- _.
  - auto.
  - split; [done |]. intros _ _. right. by eexists.
Qed.

(** The one request a call of the one-shot [processRequests] may post: it
    is for the head of the queue, which is not marked, and it is built from
    the head and the event data the object ends with. *)
Lemma MapLoad_processRequests_posted config o env o' env' err :
  MapLoadEvent.processRequests config o env = (o', env', err) →
  inflight env' = inflight env
  ∨ ∃ entry rest u,
      MapLoadEvent.queue o = entry :: rest
      ∧ (MapLoadEvent.id entry = 0
         ∨ MapLoadEvent.succeeded o (MapLoadEvent.id entry) = false)
      ∧ (validateUuid (anonId (MapLoadEvent.eventData o')) = true
         ∨ ∃ n, anonId (MapLoadEvent.eventData o') = Some (uuid n))
      ∧ inflight env'
        = inflight env
          ++ [(Handle (posted env),
               events_request config u
                 {| event := js "map.load";
                    created := toISOString (MapLoadEvent.timestamp entry);
                    sdkIdentifier := js "mapbox-gl-js";
                    sdkVersion := version;
                    enabled_telemetry := None;
                    userId := anonId (MapLoadEvent.eventData o') |},
               MapLoadCallback (MapLoadEvent.id entry))].
Proof.
  unfold MapLoadEvent.processRequests. intros Hp.
  destruct (MapLoadEvent.pendingRequest o) as [h|] eqn:Hpend.
  { injection Hp as <- <- <-. auto. }
  destruct (MapLoadEvent.queue o) as [|[id ts] rest] eqn:Hq.
  { injection Hp as <- <- <-. auto. }
  destruct (negb (id =? 0) && _) eqn:Hdup.
  { injection Hp as <- <- <-. auto. }
  destruct (is_null _).
  { injection Hp as <- <- <-. auto. }
  destruct (if negb (truthy_str _) then _ else _) as [d1 env1] eqn:Hf.
  apply fetch_if_posted in Hf as [Hp1 Hi1].
  destruct d1 as [d1| |];
    [| injection Hp as <- <- <-; by left | injection Hp as <- <- <-; by left].
  destruct (if negb (validateUuid _) then _ else _) as [d2 env2] eqn:Hu.
  apply uuid_if_identity in Hu as (Hp2 & Hi2 & Hv).
  destruct (parseUrl (EVENTS_URL config)) as [u|e].
  - injection Hp as <- <- <-. right. exists {| MapLoadEvent.id := id; MapLoadEvent.timestamp := ts |}, rest, u.
    simpl. split_and!; [done | | done |].
    + apply andb_false_iff in Hdup as [Hz | Hs].
      * left. apply negb_false_iff, Z.eqb_eq in Hz. done.
      * right. done.
    + by rewrite Hp2, Hp1, Hi2, Hi1.
  - injection Hp as <- <- <-. left. by rewrite Hi2, Hi1.
Qed.

(** The same for the recurring queue: the request is for one of the queued
    times. *)
Lemma Turnstile_processRequests_on_posted config q o env o' env' err :
  TurnstileEvent.processRequests_on config q o env = (o', env', err) →
  inflight env' = inflight env
  ∨ ∃ nextUpdate u,
      nextUpdate ∈ q
      ∧ (validateUuid (anonId (TurnstileEvent.eventData o')) = true
         ∨ ∃ n, anonId (TurnstileEvent.eventData o') = Some (uuid n))
      ∧ inflight env'
        = inflight env
          ++ [(Handle (posted env),
               events_request config u
                 {| event := js "appUserTurnstile";
                    created := toISOString nextUpdate;
                    sdkIdentifier := js "mapbox-gl-js";
                    sdkVersion := version;
                    enabled_telemetry := Some false;
                    userId := anonId (TurnstileEvent.eventData o') |},
               TurnstileCallback nextUpdate)].
Proof.
  revert o env. induction q as [|nextUpdate rest IH]; intros o env Hp; simpl in Hp.
  { destruct (TurnstileEvent.pendingRequest o); injection Hp as <- <- <-; auto. }
  destruct (TurnstileEvent.pendingRequest o) as [h|] eqn:Hpend.
  { injection Hp as <- <- <-. auto. }
  destruct (TurnstileEvent.decide_due config nextUpdate (TurnstileEvent.eventData o) env)
    as [[d env1] due] eqn:Hd.
  pose proof (Turnstile_decide_inflight _ _ _ _ _ _ _ Hd) as Hi.
  apply decide_due_identity in Hd as [Hpo Hv].
  destruct due as [[|]|e]; simpl in Hp.
  - destruct (parseUrl (EVENTS_URL config)) as [u|e].
    + injection Hp as <- <- <-. right. exists nextUpdate, u. simpl.
      split_and!; [apply list_elem_of_here | by eapply Hv |]. by rewrite Hi, Hpo.
    + injection Hp as <- <- <-. by left.
  - apply IH in Hp as [Hp | (n & u & Hin & Hv' & Hp)].
    + left. by rewrite Hp.
    + right. exists n, u. split_and!; [by apply list_elem_of_further | done |].
      by rewrite Hp, Hi, Hpo.
  - injection Hp as <- <- <-. by left.
Qed.

(** The request a completion may post, for the two callbacks. *)
Lemma MapLoad_callback_posted config id error o env o' env' err :
  MapLoadEvent.callback config id error o env = (o', env', err) →
  MapLoadEvent.success o'
  = (if negb (id =? 0) && bool_decide (error = None)
     then <[id := true]> (MapLoadEvent.success o) else MapLoadEvent.success o)
  ∧ (inflight env' = inflight env
     ∨ ∃ entry u x,
         (MapLoadEvent.id entry = 0
          ∨ MapLoadEvent.succeeded o' (MapLoadEvent.id entry) = false)
         ∧ (validateUuid (anonId (MapLoadEvent.eventData o')) = true
            ∨ ∃ n, anonId (MapLoadEvent.eventData o') = Some (uuid n))
         ∧ x = (Handle (posted env),
                events_request config u
                  {| event := js "map.load";
                     created := toISOString (MapLoadEvent.timestamp entry);
                     sdkIdentifier := js "mapbox-gl-js";
                     sdkVersion := version;
                     enabled_telemetry := None;
                     userId := anonId (MapLoadEvent.eventData o') |},
                MapLoadCallback (MapLoadEvent.id entry))
         ∧ inflight env' = inflight env ++ [x]).
Proof.
  unfold MapLoadEvent.callback. destruct error as [e|]; intros Hc.
  { injection Hc as <- <- <-. rewrite andb_false_r. auto. }
  pose proof (MapLoad_processRequests_shape _ _ _ _ _ _ Hc) as [Hs _].
  apply MapLoad_processRequests_posted in Hc.
  rewrite saveEventData_inflight in Hc. rewrite Hs.
  split; [by destruct (negb (id =? 0)) |].
  destruct Hc as [Hi | (entry & rest & u & Hq & Hun & Hv & Hi)]; [by left |].
  right. exists entry, u. eexists. split_and!; [| done | reflexivity |].
  - unfold MapLoadEvent.succeeded in *. rewrite Hs. done.
  - rewrite Hi. do 4 f_equal.
    unfold saveEventData. by repeat case_match.
Qed.

Lemma Turnstile_callback_posted config nextUpdate error o env o' env' err :
  TurnstileEvent.callback config nextUpdate error o env = (o', env', err) →
  inflight env' = inflight env
  ∨ ∃ next u,
      (validateUuid (anonId (TurnstileEvent.eventData o')) = true
       ∨ ∃ n, anonId (TurnstileEvent.eventData o') = Some (uuid n))
      ∧ inflight env'
        = inflight env
          ++ [(Handle (posted env),
               events_request config u
                 {| event := js "appUserTurnstile";
                    created := toISOString next;
                    sdkIdentifier := js "mapbox-gl-js";
                    sdkVersion := version;
                    enabled_telemetry := Some false;
                    userId := anonId (TurnstileEvent.eventData o') |},
               TurnstileCallback next)].
Proof.
  unfold TurnstileEvent.callback. destruct error as [e|]; intros Hc.
  { injection Hc as <- <- <-. auto. }
  destruct (TurnstileEvent.eventData _) as [d0| |];
    [| injection Hc as <- <- <-; auto ..].
  apply Turnstile_processRequests_on_posted in Hc.
  rewrite saveEventData_inflight in Hc.
  destruct Hc as [Hi | (next & u & _ & Hv & Hi)]; [by left |].
  right. exists next, u. split; [done |]. rewrite Hi. do 4 f_equal.
  unfold saveEventData. by repeat case_match.
Qed.

Lemma count_none {A} (f : A → bool) (l : list A) (x : A) :
  count f l = 0%nat → x ∈ l → f x = false.
Proof.
  induction l as [|y l IH]; intros Hc Hin; [by apply elem_of_nil in Hin |].
  simpl in Hc. apply elem_of_cons in Hin as [-> | Hin].
  - by destruct (f y).
  - destruct (f y); [done | by apply IH].
Qed.

End Sending.
(** ** Invariants of the module *)

Section Invariants.
Context `{Externals}.
Import TelemetryEvent.

Lemma built_request_well_formed config u e h callback :
  sdkIdentifier e = js "mapbox-gl-js" → sdkVersion e = version →
  validateUuid (userId e) = true →
  match callback with
  | MapLoadCallback _ => event e = js "map.load" ∧ enabled_telemetry e = None
  | TurnstileCallback nextUpdate =>
      event e = js "appUserTurnstile" ∧ enabled_telemetry e = Some false
      ∧ created e = toISOString nextUpdate
  end →
  request_well_formed (h, events_request config u e, callback).
Proof. intros ????. split; [done |]. by exists e. Qed.

Lemma identity_validates (a : option jsstring) :
  (∀ n, validUuidFormat (uuid n) = true) →
  validateUuid a = true ∨ (∃ n, a = Some (uuid n)) → validateUuid a = true.
Proof. intros Hgen [Hv | [n ->]]; [done | apply Hgen]. Qed.

Lemma step_requests_well_formed s a :
  (∀ n, validUuidFormat (uuid n) = true) →
  Forall request_well_formed (inflight (env s)) →
  Forall request_well_formed (inflight (env (step s a))).
Proof.
  intros Hgen Hwf. destruct a as [c | st | now urls | now urls mapId | k error];
    unfold step; try done.
  - unfold TurnstileEvent.postTurnstileEvent, TurnstileEvent.queueRequest,
      TurnstileEvent.processRequests.
    destruct (truthy_str _ && _); [|done].
    destruct (TurnstileEvent.processRequests_on _ _ _ _) as [[o' e'] err] eqn:Hp.
    apply Turnstile_processRequests_on_posted in Hp as [Hi | (n & u & _ & Hv & Hi)];
      simpl; rewrite Hi; [done |].
    apply Forall_app. split; [done |]. apply Forall_singleton.
    apply built_request_well_formed; try done. by apply identity_validates.
  - unfold MapLoadEvent.postMapLoadEvent, MapLoadEvent.queueRequest.
    destruct (truthy_str _ && _); [|done].
    destruct (MapLoadEvent.processRequests _ _ _) as [[o' e'] err] eqn:Hp.
    apply MapLoad_processRequests_posted in Hp as [Hi | (en & rest & u & _ & _ & Hv & Hi)];
      simpl; rewrite Hi; [done |].
    apply Forall_app. split; [done |]. apply Forall_singleton.
    apply built_request_well_formed; try done. by apply identity_validates.
  - destruct (inflight (env s) !! k) as [[[h req] [id | nextUpdate]]|] eqn:Hk; [| |done].
    + destruct (MapLoadEvent.callback _ _ _ _ _) as [[o' e'] err] eqn:Hc.
      apply MapLoad_callback_posted in Hc as [_ [Hi | (en & u & x & _ & Hv & -> & Hi)]];
        simpl in *; rewrite Hi; [by apply Forall_delete |].
      apply Forall_app. split; [by apply Forall_delete |]. apply Forall_singleton.
      apply built_request_well_formed; try done. by apply identity_validates.
    + destruct (TurnstileEvent.callback _ _ _ _ _) as [[o' e'] err] eqn:Hc.
      apply Turnstile_callback_posted in Hc as [Hi | (n & u & Hv & Hi)];
        simpl in *; rewrite Hi; [by apply Forall_delete |].
      apply Forall_app. split; [by apply Forall_delete |]. apply Forall_singleton.
      apply built_request_well_formed; try done. by apply identity_validates.
Qed.

(** X1: provided the generator gives identifiers that validate, every
    request the transport holds, at any point of any run of the module, has
    the plain-text content type and one event, named after its queue, with
    the identifier of the library and an anonymous identifier that
    validates. *)
Theorem requests_are_well_formed (c : Config) (st : LocalStorage) (actions : list Action) :
  (∀ n, validUuidFormat (uuid n) = true) →
  Forall request_well_formed (inflight (env (run (load c st) actions))).
Proof.
  intros Hgen. unfold run.
  assert (Hinit : Forall request_well_formed (inflight (env (load c st)))) by constructor.
  revert Hinit. generalize (load c st).
  induction actions as [|a actions IH]; intros s Hs; [done |].
  apply IH. by apply step_requests_well_formed.
Qed.

(** The success set only grows. *)
Lemma step_keeps_marks s a id :
  MapLoadEvent.succeeded (mapLoadEvent_ s) id = true →
  MapLoadEvent.succeeded (mapLoadEvent_ (step s a)) id = true.
Proof.
  intros Hm. destruct a as [c | st | now urls | now urls mapId | k error];
    unfold step; try done.
  - by destruct (TurnstileEvent.postTurnstileEvent _ _ _ _ _) as [[o' e'] err].
  - unfold MapLoadEvent.postMapLoadEvent, MapLoadEvent.queueRequest.
    destruct (truthy_str _ && _); [|done].
    destruct (MapLoadEvent.processRequests _ _ _) as [[o' e'] err] eqn:Hp.
    apply MapLoad_processRequests_shape in Hp as [Hs _].
    unfold MapLoadEvent.succeeded in *. simpl in *. by rewrite Hs.
  - destruct (inflight (env s) !! k) as [[[h req] [id' | nextUpdate]]|] eqn:Hk; [| |done].
    + destruct (MapLoadEvent.callback _ _ _ _ _) as [[o' e'] err] eqn:Hc.
      apply MapLoad_callback_posted in Hc as [Hs _].
      unfold MapLoadEvent.succeeded in *. simpl in *. rewrite Hs.
      destruct (negb (id' =? 0) && _); [|done].
      destruct (decide (id' = id)) as [-> | Hne].
      * by rewrite lookup_insert_eq.
      * by rewrite lookup_insert_ne.
    + by destruct (TurnstileEvent.callback _ _ _ _ _) as [[o' e'] err].
Qed.

Lemma step_no_marked_in_flight s a :
  single_flight s → no_marked_in_flight s → no_marked_in_flight (step s a).
Proof.
  intros [_ Hsf] Hno. unfold held in Hsf.
  destruct a as [c | st | now urls | now urls mapId | k error];
    unfold step, no_marked_in_flight; try done.
  - unfold TurnstileEvent.postTurnstileEvent, TurnstileEvent.queueRequest,
      TurnstileEvent.processRequests.
    destruct (truthy_str _ && _); [|done].
    destruct (TurnstileEvent.processRequests_on _ _ _ _) as [[o' e'] err] eqn:Hp.
    apply Turnstile_processRequests_on_posted in Hp as [Hi | (n & u & _ & _ & Hi)];
      simpl; rewrite Hi; [done |].
    intros h req id [Hin | Hin%list_elem_of_singleton]%elem_of_app; [by eapply Hno | done].
  - unfold MapLoadEvent.postMapLoadEvent, MapLoadEvent.queueRequest.
    destruct (truthy_str _ && _); [|done].
    destruct (MapLoadEvent.processRequests _ _ _) as [[o' e'] err] eqn:Hp.
    pose proof (MapLoad_processRequests_shape _ _ _ _ _ _ Hp) as [Hs _].
    apply MapLoad_processRequests_posted in Hp
      as [Hi | (en & rest & u & _ & Hun & _ & Hi)];
      simpl in *; rewrite Hi; unfold MapLoadEvent.succeeded in *; rewrite Hs.
    + intros h req id Hin Hid. by eapply Hno.
    + intros h req id [Hin | Hin%list_elem_of_singleton]%elem_of_app Hid.
      * by eapply Hno.
      * injection Hin as _ _ ->. by destruct Hun.
  - destruct (inflight (env s) !! k) as [[[h req] [id' | nextUpdate]]|] eqn:Hk; [| |done].
    + pose proof (count_delete is_map_load _ _ _ Hk) as Hcm. simpl in Hcm.
      assert (Hz : count is_map_load (delete k (inflight (env s))) = 0%nat).
      { destruct (MapLoadEvent.pendingRequest (mapLoadEvent_ s)); simpl in Hsf; lia. }
      destruct (MapLoadEvent.callback _ _ _ _ _) as [[o' e'] err] eqn:Hc.
      apply MapLoad_callback_posted in Hc as [_ [Hi | (en & u & x & Hun & _ & -> & Hi)]];
        simpl in *; rewrite Hi.
      * intros h0 req0 id Hin _. by apply (count_none _ _ _ Hz) in Hin.
      * intros h0 req0 id [Hin | Hin%list_elem_of_singleton]%elem_of_app Hid.
        -- by apply (count_none _ _ _ Hz) in Hin.
        -- injection Hin as _ _ ->. by destruct Hun.
    + destruct (TurnstileEvent.callback _ _ _ _ _) as [[o' e'] err] eqn:Hc.
      apply Turnstile_callback_posted in Hc as [Hi | (n & u & _ & Hi)];
        simpl in *; rewrite Hi.
      * intros h0 req0 id Hin%list_elem_of_delete_inv Hid. by eapply Hno.
      * intros h0 req0 id [Hin%list_elem_of_delete_inv | Hin%list_elem_of_singleton]%elem_of_app
          Hid; [by eapply Hno | done].
Qed.

(** X2: a map that is marked in the success set stays marked whatever the
    module is asked to do next, and in no state the module reaches from its
    loading does the transport hold a request for a marked map. *)
Theorem marked_map_is_never_sent_again (c : Config) (st : LocalStorage)
    (s : State) (actions : list Action) (id : Z) :
  (MapLoadEvent.succeeded (mapLoadEvent_ s) id = true →
   MapLoadEvent.succeeded (mapLoadEvent_ (run s actions)) id = true)
  ∧ no_marked_in_flight (run (load c st) actions).
Proof.
  split.
  - revert s. induction actions as [|a actions IH]; intros s Hs; [done |].
    apply IH. by apply step_keeps_marks.
  - assert (Hinit : single_flight (load c st) ∧ no_marked_in_flight (load c st)).
    { split; [done |]. intros h req i Hin. by apply elem_of_nil in Hin. }
    revert Hinit. generalize (load c st). clear s.
    induction actions as [|a actions IH]; intros s [Hsf Hno]; [done |].
    apply IH. split; [by apply step_single_flight | by apply step_no_marked_in_flight].
Qed.

End Invariants.

(** The identifiers of the sample generator validate. *)
Lemma sample_identifiers_validate (n : nat) :
  validUuidFormat (Externals := Sample.externals) (uuid (Externals := Sample.externals) n)
  = true.
Proof.
  assert (Hd : ∀ z, Sample.is_hex_or_dash (Sample.digit z) = true).
  { intros z. unfold Sample.is_hex_or_dash, is_digit, Sample.digit.
    pose proof (Z.mod_pos_bound z 10 ltac:(lia)).
    apply orb_true_iff; left; apply orb_true_iff; left.
    apply andb_true_iff; split; apply N.leb_le; lia. }
  cbn [validUuidFormat uuid Sample.externals]. unfold Sample.two_digits.
  rewrite forallb_app, length_app. cbn [forallb length].
  by rewrite !Hd.
Qed.

(** The requests held after a usage report and the load of a map. *)
Lemma requests_are_well_formed_witness :
  Forall (request_well_formed (H := Sample.externals))
    (inflight (env (run (H := Sample.externals) (load Sample.config Sample.empty_storage)
                      [PostTurnstileEvent Sample.morning Sample.tiles;
                       PostMapLoadEvent Sample.noon Sample.tiles 3]))).
Proof.
  apply (requests_are_well_formed (H := Sample.externals)).
  exact sample_identifiers_validate.
Defined.

(** Map 5 after its load was delivered, and a second report of that load. *)
Lemma marked_map_is_never_sent_again_witness :
  MapLoadEvent.succeeded
    (mapLoadEvent_
       (run (H := Sample.externals)
          (run (H := Sample.externals) (load Sample.config Sample.empty_storage)
             [PostMapLoadEvent Sample.morning Sample.tiles 5; Complete 0 None])
          [PostMapLoadEvent Sample.noon Sample.tiles 5])) 5 = true.
Proof.
  apply (marked_map_is_never_sent_again (H := Sample.externals)
           Sample.config Sample.empty_storage).
  reflexivity.
Defined.
(** ** The storage *)

Section Storage.
Import TelemetryEvent.



End Storage.


(** ** Taking entries off the queues *)

Section Dispatch.
Context `{Externals}.
Import TelemetryEvent.

(** X4: a report made while a request of the queue is pending is kept at
    the end of the queue, for both queues, and nothing else happens. *)
Theorem report_while_busy_is_queued (config : Config) (now : Z) (tileUrls : list jsstring)
    (mapId : Z) (m : MapLoadEvent.t) (t : TurnstileEvent.t) (w : Env) :
  truthy_str (ACCESS_TOKEN config) = true →
  existsb isMapboxHTTPURL tileUrls = true →
  (is_Some (MapLoadEvent.pendingRequest m) →
   MapLoadEvent.postMapLoadEvent config now tileUrls mapId m w
   = (MapLoadEvent.with_queue
        (MapLoadEvent.queue m
         ++ [{| MapLoadEvent.id := mapId; MapLoadEvent.timestamp := now |}]) m,
      w, None))
  ∧ (is_Some (TurnstileEvent.pendingRequest t) →
     TurnstileEvent.postTurnstileEvent config now tileUrls t w
     = (TurnstileEvent.with_queue (TurnstileEvent.queue t ++ [now]) t, w, None)).
Proof.
  intros Ht Hu.
  unfold MapLoadEvent.postMapLoadEvent, MapLoadEvent.queueRequest,
    MapLoadEvent.processRequests, TurnstileEvent.postTurnstileEvent,
    TurnstileEvent.queueRequest, TurnstileEvent.processRequests.
  rewrite Ht, Hu. simpl. split.
  - intros [h ->]. done.
  - intros [h Hh]. destruct (TurnstileEvent.queue t ++ [now]); simpl; by rewrite Hh.
Qed.

(** X5: from an empty slot, with an events URL that parses and an object
    to read the anonymous identifier from (the event data of the object or,
    when that has no identifier, what the storage gives in its place: the
    storage may be unavailable, throw, hold nothing, an empty or an
    unparsable text, or the text of an object), the head of the one-shot
    queue is sent unless it is a duplicate: the request carries the time of
    the head and the identifier the object ends with, its callback carries
    the map of the head, the handle goes into the slot and the rest of the
    queue stays in order. *)
Theorem unmarked_head_is_posted (config : Config) (o : MapLoadEvent.t) (w : Env)
    (entry : MapLoadEvent.Entry) (rest : list MapLoadEvent.Entry) (u : UrlObject) :
  MapLoadEvent.pendingRequest o = None →
  MapLoadEvent.queue o = entry :: rest →
  MapLoadEvent.id entry = 0 ∨ MapLoadEvent.succeeded o (MapLoadEvent.id entry) = false →
  parseUrl (EVENTS_URL config) = Ok u →
  object_at_hand config (MapLoadEvent.eventData o) w = true →
  ∃ (d : EventData) w',
    MapLoadEvent.processRequests config o w
    = (MapLoadEvent.with_pendingRequest (Some (Handle (posted w)))
         (MapLoadEvent.with_eventData d (MapLoadEvent.with_queue rest o)),
       w', None)
    ∧ inflight w'
      = inflight w
        ++ [(Handle (posted w),
             events_request config u
               {| event := js "map.load";
                  created := toISOString (MapLoadEvent.timestamp entry);
                  sdkIdentifier := js "mapbox-gl-js";
                  sdkVersion := version;
                  enabled_telemetry := None;
                  userId := anonId d |},
             MapLoadCallback (MapLoadEvent.id entry))]
    ∧ posted w' = S (posted w)
    ∧ (validateUuid (anonId d) = true ∨ ∃ n, anonId d = Some (uuid n)).
Proof.
  intros Hpend Hq Hun Hurl Hobj. destruct entry as [id ts]. simpl in *.
  apply object_at_hand_true in Hobj as (Hnull & d & Hv0).
  unfold MapLoadEvent.processRequests. rewrite Hpend, Hq.
  assert (Hdup : negb (id =? 0) && MapLoadEvent.succeeded (MapLoadEvent.with_queue rest o) id
                 = false).
  { destruct Hun as [-> | Hs]; [done |]. apply andb_false_iff. by right. }
  rewrite Hdup. cbn [MapLoadEvent.eventData MapLoadEvent.with_queue]. rewrite Hnull.
  destruct (if negb (truthy_str _) then _ else _) as [d1 env1] eqn:Hf.
  rewrite (event_data_at_hand_fetch _ _ _ _ _ Hf) in Hv0. subst d1.
  apply fetch_if_posted in Hf as [Hp1 Hi1].
  destruct (if negb (validateUuid _) then _ else _) as [d2 env2] eqn:Hu.
  apply uuid_if_identity in Hu as (Hp2 & Hi2 & Hv).
  rewrite Hurl. simpl. exists d2. eexists. rewrite Hp2, Hp1.
  split_and!; [done | | | done]; simpl; by rewrite ?Hi2, ?Hi1.
Qed.

(** X6: when the events URL of the configuration does not parse, the
    dispatch of an entry that should be sent, once it has an object with the
    anonymous identifier, throws the parse error to its caller; the entry is
    off the queue all the same, the slot stays empty and no request is
    posted.  The only error [parseUrl] throws is the one of the unparsable
    URL. *)
Theorem malformed_events_url_throws (config : Config) (e : Error) :
  parseUrl (EVENTS_URL config) = Throw e →
  e = UnableToParseURL
  ∧ (∀ (o : MapLoadEvent.t) w entry rest,
        MapLoadEvent.pendingRequest o = None →
        MapLoadEvent.queue o = entry :: rest →
        MapLoadEvent.id entry = 0
        ∨ MapLoadEvent.succeeded o (MapLoadEvent.id entry) = false →
        object_at_hand config (MapLoadEvent.eventData o) w = true →
        ∃ (d : EventData) w',
          MapLoadEvent.processRequests config o w
          = (MapLoadEvent.with_eventData d (MapLoadEvent.with_queue rest o), w', Some e)
          ∧ inflight w' = inflight w ∧ posted w' = posted w)
  ∧ (∀ (o : TurnstileEvent.t) w nextUpdate rest d w',
        TurnstileEvent.pendingRequest o = None →
        TurnstileEvent.queue o = nextUpdate :: rest →
        TurnstileEvent.decide_due config nextUpdate (TurnstileEvent.eventData o) w
        = (d, w', Ok true) →
        TurnstileEvent.processRequests config o w
        = (TurnstileEvent.with_queue rest (TurnstileEvent.with_eventData d o), w', Some e)
        ∧ inflight w' = inflight w ∧ posted w' = posted w).
Proof.
  intros Hurl. split_and!.
  - unfold parseUrl in Hurl. destruct (exec urlRe _); [done | by injection Hurl as <-].
  - intros o w [id ts] rest Hpend Hq Hun Hobj. simpl in *.
    apply object_at_hand_true in Hobj as (Hnull & d & Hv0).
    unfold MapLoadEvent.processRequests. rewrite Hpend, Hq.
    assert (Hdup : negb (id =? 0)
                   && MapLoadEvent.succeeded (MapLoadEvent.with_queue rest o) id = false).
    { destruct Hun as [-> | Hs]; [done |]. apply andb_false_iff. by right. }
    rewrite Hdup. cbn [MapLoadEvent.eventData MapLoadEvent.with_queue]. rewrite Hnull.
    destruct (if negb (truthy_str _) then _ else _) as [d1 env1] eqn:Hf.
    rewrite (event_data_at_hand_fetch _ _ _ _ _ Hf) in Hv0. subst d1.
    apply fetch_if_posted in Hf as [Hp1 Hi1].
    destruct (if negb (validateUuid _) then _ else _) as [d2 env2] eqn:Hu.
    apply uuid_if_identity in Hu as (Hp2 & Hi2 & Hv).
    rewrite Hurl. exists d2, env2. by rewrite Hi2, Hi1, Hp2, Hp1.
  - intros o w nextUpdate rest d w' Hpend Hq Hd.
    unfold TurnstileEvent.processRequests. rewrite Hq. simpl.
    rewrite Hpend, Hd, Hurl. simpl.
    pose proof (Turnstile_decide_inflight _ _ _ _ _ _ _ Hd) as Hi.
    apply decide_due_identity in Hd as [Hp _]. done.
Qed.

(** X7: a dispatch only takes entries off the front of its queue: what is
    left is the end of what was there.  The recurring queue, moreover, is
    never left waiting: when its dispatch returns without an exception,
    either a request is pending or the queue is empty. *)
Theorem dispatch_takes_from_the_front (config : Config) (w : Env) :
  (∀ (o : MapLoadEvent.t) o' w' err,
      MapLoadEvent.processRequests config o w = (o', w', err) →
      MapLoadEvent.queue o' `suffix_of` MapLoadEvent.queue o)
  ∧ (∀ (o : TurnstileEvent.t) o' w' err,
        TurnstileEvent.processRequests config o w = (o', w', err) →
        TurnstileEvent.queue o' `suffix_of` TurnstileEvent.queue o
        ∧ (err = None →
           is_Some (TurnstileEvent.pendingRequest o') ∨ TurnstileEvent.queue o' = [])).
Proof.
  split.
  - intros o o' w' err. unfold MapLoadEvent.processRequests. intros Hp.
    destruct (MapLoadEvent.pendingRequest o) as [h|].
    { by injection Hp as <- <- <-. }
    destruct (MapLoadEvent.queue o) as [|[id ts] rest] eqn:Hq.
    { injection Hp as <- <- <-. by rewrite Hq. }
    assert (Hsuf : rest `suffix_of` {| MapLoadEvent.id := id; MapLoadEvent.timestamp := ts |}
                                    :: rest) by (by apply suffix_cons_r).
    destruct (negb (id =? 0) && _).
    { by injection Hp as <- <- <-. }
    destruct (is_null _).
    { by injection Hp as <- <- <-. }
    destruct (if negb (truthy_str _) then _ else _) as [d1 env1].
    destruct d1 as [d1| |]; [| by injection Hp as <- <- <- ..].
    destruct (if negb (validateUuid _) then _ else _) as [d2 env2].
    destruct (parseUrl (EVENTS_URL config)); by injection Hp as <- <- <-.
  - intros o o' w' err. unfold TurnstileEvent.processRequests.
    assert (Hgen : ∀ q o w,
      TurnstileEvent.queue o = q →
      TurnstileEvent.processRequests_on config q o w = (o', w', err) →
      TurnstileEvent.queue o' `suffix_of` q
      ∧ (err = None →
         is_Some (TurnstileEvent.pendingRequest o') ∨ TurnstileEvent.queue o' = [])).
    { clear o w. induction q as [|nextUpdate rest IH]; intros o w Hq Hp; simpl in Hp.
      { destruct (TurnstileEvent.pendingRequest o) eqn:Hpend; injection Hp as <- <- <-;
          rewrite Hq; auto. }
      destruct (TurnstileEvent.pendingRequest o) as [h|] eqn:Hpend.
      { injection Hp as <- <- <-. rewrite Hq, Hpend. split; [done | by left]. }
      destruct (TurnstileEvent.decide_due _ _ _ _) as [[d env1] due].
      destruct due as [[|]|e]; simpl in Hp.
      - destruct (parseUrl (EVENTS_URL config)); injection Hp as <- <- <-; simpl.
        + split; [by apply suffix_cons_r | by left].
        + split; [by apply suffix_cons_r | done].
      - apply IH in Hp as [Hsuf Hd]; [| done].
        split; [by apply suffix_cons_r | done].
      - injection Hp as <- <- <-. simpl. by rewrite Hq. }
    intros Hp. by eapply Hgen.
Qed.

End Dispatch.

(** A report of each kind while a request of its queue is pending. *)
Lemma report_while_busy_is_queued_witness :
  MapLoadEvent.postMapLoadEvent (H := Sample.externals) Sample.config Sample.noon
    Sample.tiles 3 Fixture.busy_map Fixture.world
  = (MapLoadEvent.with_queue
       [{| MapLoadEvent.id := 3; MapLoadEvent.timestamp := Sample.noon |}] Fixture.busy_map,
     Fixture.world, None)
  ∧ TurnstileEvent.postTurnstileEvent (H := Sample.externals) Sample.config Sample.noon
      Sample.tiles Fixture.busy_turnstile Fixture.world
    = (TurnstileEvent.with_queue [Sample.noon] Fixture.busy_turnstile, Fixture.world, None).
Proof.
  destruct (report_while_busy_is_queued (H := Sample.externals) Sample.config Sample.noon
              Sample.tiles 3 Fixture.busy_map Fixture.busy_turnstile Fixture.world)
    as [Hmap Hturnstile]; [reflexivity | reflexivity |].
  split; [apply Hmap | apply Hturnstile]; by eexists.
Defined.

(** The load of map 7 behind a set that holds map 5. *)
Lemma unmarked_head_is_posted_witness :
  ∃ (d : EventData) w',
    MapLoadEvent.processRequests (H := Sample.externals) Sample.config
      Fixture.load_of_map_seven Fixture.world
    = (MapLoadEvent.with_pendingRequest (Some (Handle 0))
         (MapLoadEvent.with_eventData d
            (MapLoadEvent.with_queue [] Fixture.load_of_map_seven)),
       w', None)
    ∧ posted w' = 1%nat.
Proof.
  destruct (unmarked_head_is_posted (H := Sample.externals) Sample.config
              Fixture.load_of_map_seven Fixture.world
              {| MapLoadEvent.id := 7; MapLoadEvent.timestamp := Sample.noon |} []
              Fixture.events_url)
    as (d & w' & Hrun & _ & Hposted & _);
    [reflexivity | reflexivity | right; reflexivity | reflexivity | reflexivity |].
  by exists d, w'.
Defined.

(** The load of map 7 under an events URL without a scheme. *)
Lemma malformed_events_url_throws_witness :
  ∃ (d : EventData) w',
    MapLoadEvent.processRequests (H := Sample.externals) Fixture.config_bad_events
      Fixture.load_of_map_seven Fixture.world
    = (MapLoadEvent.with_eventData d
         (MapLoadEvent.with_queue [] Fixture.load_of_map_seven),
       w', Some UnableToParseURL)
    ∧ inflight w' = [] ∧ posted w' = 0%nat.
Proof.
  destruct (malformed_events_url_throws (H := Sample.externals) Fixture.config_bad_events
              UnableToParseURL)
    as (_ & Hmap & _); [reflexivity |].
  apply (Hmap Fixture.load_of_map_seven Fixture.world
           {| MapLoadEvent.id := 7; MapLoadEvent.timestamp := Sample.noon |} []);
    [reflexivity | reflexivity | right; reflexivity | reflexivity].
Defined.

(** The queue with a duplicate at its head, after a dispatch. *)
Lemma dispatch_takes_from_the_front_witness :
  MapLoadEvent.queue
    (MapLoadEvent.processRequests (H := Sample.externals) Sample.config
       Sample.duplicate_at_head Fixture.world).1.1
  `suffix_of` MapLoadEvent.queue Sample.duplicate_at_head.
Proof.
  destruct (dispatch_takes_from_the_front (H := Sample.externals) Sample.config Fixture.world)
    as [Hmap _].
  apply (Hmap Sample.duplicate_at_head _
           (MapLoadEvent.processRequests (H := Sample.externals) Sample.config
              Sample.duplicate_at_head Fixture.world).1.2
           (MapLoadEvent.processRequests (H := Sample.externals) Sample.config
              Sample.duplicate_at_head Fixture.world).2).
  by destruct (MapLoadEvent.processRequests _ _ _) as [[??]?].
Defined.
(** ** The recurring queue and the calendar *)

Section Calendar.
Context `{Externals}.
Import TelemetryEvent.

(** The decision when nothing has to be read or drawn: the identifier
    validates, the token is the configured one and there is a time of last
    success. *)
Lemma decide_due_settled config nextUpdate (d : JsonValue) w last :
  truthy_str (anonId d) = true → validateUuid (anonId d) = true →
  accessToken d = ACCESS_TOKEN config →
  lastSuccess d = Some last → last ≠ 0 →
  TurnstileEvent.decide_due config nextUpdate d w
  = (d, w,
     Ok ((86400000 <=? nextUpdate - last) || (nextUpdate - last <? -86400000)
         || negb (getDate last =? getDate nextUpdate))).
Proof.
  intros Hid Hv Htok Hlast Hnz.
  destruct (validates_object d Hv) as [d0 ->]. cbn [fields] in *.
  rename d0 into d. unfold TurnstileEvent.decide_due. cbn [is_null fields].
  assert (Hdue : (if truthy_str (accessToken d)
                  then negb (bool_decide (accessToken d = ACCESS_TOKEN config))
                  else false) = false).
  { rewrite bool_decide_eq_true_2 by done. by destruct (truthy_str (accessToken d)). }
  rewrite Hdue. cbn [fields]. rewrite Hid, Hlast.
  assert (Hnum : truthy_num (Some last) = true).
  { simpl. by apply negb_true_iff, Z.eqb_neq. }
  rewrite Hnum. cbn [negb orb]. rewrite Hv. cbn [negb]. rewrite ?Hlast, ?Hnum.
  cbn [negb default from_option id orb].
  by rewrite daysElapsed_at_least_one, daysElapsed_below_minus_one.
Qed.

(** X8: once per calendar day.  With an identifier that validates, the
    token unchanged and a last success, a report less than a day away from
    that success and on the same day of the month is dropped, and the
    dispatch goes on with the rest of the queue; a report a day or more
    later, more than a day earlier, or on another day of the month is sent
    (the events URL parsing), with the same identifier. *)
Theorem sent_once_per_day (config : Config) (o : TurnstileEvent.t) (w : Env)
    (nextUpdate last : Z) (rest : list Z) (u : UrlObject) :
  TurnstileEvent.pendingRequest o = None →
  TurnstileEvent.queue o = nextUpdate :: rest →
  truthy_str (anonId (TurnstileEvent.eventData o)) = true →
  validateUuid (anonId (TurnstileEvent.eventData o)) = true →
  accessToken (TurnstileEvent.eventData o) = ACCESS_TOKEN config →
  lastSuccess (TurnstileEvent.eventData o) = Some last → last ≠ 0 →
  parseUrl (EVENTS_URL config) = Ok u →
  let another_day :=
    86400000 ≤ nextUpdate - last ∨ nextUpdate - last < -86400000
    ∨ getDate last ≠ getDate nextUpdate in
  (¬ another_day →
   TurnstileEvent.processRequests config o w
   = TurnstileEvent.processRequests config (TurnstileEvent.with_queue rest o) w)
  ∧ (another_day →
     TurnstileEvent.processRequests config o w
     = (TurnstileEvent.with_pendingRequest (Some (Handle (posted w)))
          (TurnstileEvent.with_queue rest o),
        (postData
           (events_request config u
              {| event := js "appUserTurnstile";
                 created := toISOString nextUpdate;
                 sdkIdentifier := js "mapbox-gl-js";
                 sdkVersion := version;
                 enabled_telemetry := Some false;
                 userId := anonId (TurnstileEvent.eventData o) |})
           (TurnstileCallback nextUpdate) w).2,
        None)).
Proof.
  intros Hpend Hq Hid Hv Htok Hlast Hnz Hurl another_day.
  pose proof (decide_due_settled config nextUpdate _ w last Hid Hv Htok Hlast Hnz) as Hd.
  assert (Hflag : (86400000 <=? nextUpdate - last) || (nextUpdate - last <? -86400000)
                  || negb (getDate last =? getDate nextUpdate) = true ↔ another_day).
  { unfold another_day.
    rewrite !orb_true_iff, negb_true_iff, Z.leb_le, Z.ltb_lt, Z.eqb_neq. tauto. }
  unfold TurnstileEvent.processRequests. rewrite Hq. simpl. rewrite Hpend, Hd.
  destruct ((86400000 <=? nextUpdate - last) || _ || _); simpl.
  - split; [intros Hn; destruct Hn; by apply Hflag |]. intros _.
    rewrite Hurl. by destruct o.
  - split; [| intros Ha; by apply Hflag in Ha]. intros _. by destruct o.
Qed.

(** X9: the day of the last success is remembered across loads of the
    module.  A new object, with a storage that holds event data for the
    configured token whose identifier validates, drops a report that is less
    than a day away from the stored success and on the same day of the month:
    it ends with the stored event data, and no request is posted. *)
Theorem stored_success_spans_sessions (config : Config) (w : Env) (d : EventData)
    (nextUpdate last : Z) :
  available (storage w) = true → getItem_throws (storage w) = false →
  items (storage w) !! storageKey config = Some (Json d) →
  validateUuid (anonId d) = true →
  lastSuccess d = Some last → last ≠ 0 →
  - 86400000 ≤ nextUpdate - last < 86400000 →
  getDate last = getDate nextUpdate →
  TurnstileEvent.processRequests config
    (TurnstileEvent.with_queue [nextUpdate] (TurnstileEvent.new config)) w
  = (TurnstileEvent.with_eventData d (TurnstileEvent.new config), w, None).
Proof.
  intros Ha Hg Hit Hv Hlast Hnz Hnear Hday.
  assert (Hd : TurnstileEvent.decide_due config nextUpdate (initial_eventData config) w
               = (Object d, w, Ok false)).
  { unfold TurnstileEvent.decide_due, initial_eventData.
    cbn [is_null fields accessToken anonId lastSuccess].
    assert (Hdue : (if truthy_str (ACCESS_TOKEN config)
                    then negb (bool_decide (ACCESS_TOKEN config = ACCESS_TOKEN config))
                    else false) = false).
    { rewrite bool_decide_eq_true_2 by done. by destruct (truthy_str _). }
    rewrite Hdue. cbn [fields anonId truthy_str negb orb].
    unfold fetchEventData. rewrite Ha, Hg, Hit, Hv. cbn [negb]. rewrite Hlast.
    assert (Hnum : truthy_num (Some last) = true).
    { simpl. by apply negb_true_iff, Z.eqb_neq. }
    rewrite Hnum. cbn [negb default from_option id orb].
    rewrite daysElapsed_at_least_one, daysElapsed_below_minus_one, Hday, Z.eqb_refl.
    replace (86400000 <=? nextUpdate - last) with false by (symmetry; apply Z.leb_gt; lia).
    replace (nextUpdate - last <? -86400000) with false by (symmetry; apply Z.ltb_ge; lia).
    done. }
  unfold TurnstileEvent.processRequests.
  cbn [TurnstileEvent.queue TurnstileEvent.with_queue TurnstileEvent.processRequests_on
       TurnstileEvent.pendingRequest TurnstileEvent.new TurnstileEvent.eventData].
  by rewrite Hd.
Qed.

(** X10: a change of token breaks the identity.  When the token kept with
    the event data is not the configured one, and nothing is stored under the
    configured one, the head of the queue is sent whatever its time, under an
    identifier drawn for it, and the time of last success is forgotten. *)
Theorem token_change_draws_new_identity (config : Config) (o : TurnstileEvent.t) (w : Env)
    (nextUpdate : Z) (rest : list Z) (u : UrlObject) :
  TurnstileEvent.pendingRequest o = None →
  TurnstileEvent.queue o = nextUpdate :: rest →
  truthy_str (accessToken (TurnstileEvent.eventData o)) = true →
  accessToken (TurnstileEvent.eventData o) ≠ ACCESS_TOKEN config →
  getItem_throws (storage w) = false →
  items (storage w) !! storageKey config = None →
  parseUrl (EVENTS_URL config) = Ok u →
  TurnstileEvent.processRequests config o w
  = (TurnstileEvent.with_pendingRequest (Some (Handle (posted w)))
       (TurnstileEvent.with_queue rest
          (TurnstileEvent.with_eventData
             {| anonId := Some (uuid (uuids w)); lastSuccess := None;
                accessToken := accessToken (TurnstileEvent.eventData o) |} o)),
     (postData
        (events_request config u
           {| event := js "appUserTurnstile";
              created := toISOString nextUpdate;
              sdkIdentifier := js "mapbox-gl-js";
              sdkVersion := version;
              enabled_telemetry := Some false;
              userId := Some (uuid (uuids w)) |})
        (TurnstileCallback nextUpdate) (next_uuid w).2).2,
     None).
Proof.
  intros Hpend Hq Htok Hne Hg Hit Hurl.
  destruct (truthy_accessToken_object _ Htok) as [d Hobj].
  rewrite Hobj in *. cbn [fields] in *.
  assert (Hd : TurnstileEvent.decide_due config nextUpdate (Object d) w
               = (Object {| anonId := Some (uuid (uuids w)); lastSuccess := None;
                            accessToken := accessToken d |},
                  (next_uuid w).2, Ok true)).
  { unfold TurnstileEvent.decide_due. cbn [is_null fields]. rewrite Htok.
    rewrite bool_decide_eq_false_2 by done. cbn [negb fields anonId truthy_str orb].
    unfold fetchEventData. rewrite Hg, Hit.
    by destruct (available (storage w)). }
  unfold TurnstileEvent.processRequests. rewrite Hq.
  cbn [TurnstileEvent.processRequests_on]. rewrite Hpend, Hobj, Hd. cbn [negb].
  by rewrite Hurl.
Qed.

(** A queue of reports of the day of the last success is dropped
    altogether. *)
Lemma same_day_queue_is_dropped config q (o : TurnstileEvent.t) w last :
  TurnstileEvent.queue o = q → TurnstileEvent.pendingRequest o = None →
  truthy_str (anonId (TurnstileEvent.eventData o)) = true →
  validateUuid (anonId (TurnstileEvent.eventData o)) = true →
  accessToken (TurnstileEvent.eventData o) = ACCESS_TOKEN config →
  lastSuccess (TurnstileEvent.eventData o) = Some last → last ≠ 0 →
  Forall (λ t, - 86400000 ≤ t - last < 86400000 ∧ getDate last = getDate t) q →
  TurnstileEvent.processRequests_on config q o w = (TurnstileEvent.with_queue [] o, w, None).
Proof.
  intros Hq Hp Hid Hv Htok Hlast Hnz Hall. revert o Hq Hp Hid Hv Htok Hlast.
  induction Hall as [|t q [Hnear Hday] Hall IH]; intros o Hq Hp Hid Hv Htok Hlast.
  - destruct o as [d q' p]; simpl in *. by subst.
  - cbn [TurnstileEvent.processRequests_on]. rewrite Hp.
    rewrite (decide_due_settled config t _ w last) by done.
    assert (Hdue : (86400000 <=? t - last) || (t - last <? -86400000)
                   || negb (getDate last =? getDate t) = false).
    { rewrite !orb_false_iff, negb_false_iff, Z.leb_gt, Z.ltb_ge, Z.eqb_eq. lia. }
    rewrite Hdue. cbn [negb]. rewrite IH by done. by destruct o.
Qed.

(** X11: a delivery silences the day.  When a usage report is delivered,
    its time becomes the time of the last success, the configured token is
    kept with it and the event data is saved; the reports that wait in the
    queue and are of the same calendar day, less than a day away, are all
    dropped without a request. *)
Theorem delivery_silences_the_day (config : Config) (o : TurnstileEvent.t) (w : Env)
    (nextUpdate : Z) :
  truthy_str (anonId (TurnstileEvent.eventData o)) = true →
  validateUuid (anonId (TurnstileEvent.eventData o)) = true →
  nextUpdate ≠ 0 →
  Forall (λ t, - 86400000 ≤ t - nextUpdate < 86400000 ∧ getDate nextUpdate = getDate t)
    (TurnstileEvent.queue o) →
  TurnstileEvent.callback config nextUpdate None o w
  = ({| TurnstileEvent.eventData :=
          {| anonId := anonId (TurnstileEvent.eventData o);
             lastSuccess := Some nextUpdate;
             accessToken := ACCESS_TOKEN config |};
        TurnstileEvent.queue := [];
        TurnstileEvent.pendingRequest := None |},
     saveEventData config
       {| anonId := anonId (TurnstileEvent.eventData o);
          lastSuccess := Some nextUpdate;
          accessToken := ACCESS_TOKEN config |} w,
     None).
Proof.
  intros Hid Hv Hnz Hall. destruct (validates_object _ Hv) as [d Hobj].
  unfold TurnstileEvent.callback, TurnstileEvent.processRequests.
  cbn [TurnstileEvent.eventData TurnstileEvent.with_pendingRequest]. rewrite Hobj in *.
  cbn [fields] in *.
  by rewrite (same_day_queue_is_dropped config (TurnstileEvent.queue o) _ _ nextUpdate).
Qed.

End Calendar.

(** The delivery of the report of the morning, with a report of noon in the
    queue. *)
Lemma delivery_silences_the_day_witness :
  TurnstileEvent.queue
    (TurnstileEvent.callback (H := Sample.externals) Sample.config Sample.morning None
       (TurnstileEvent.with_queue [Sample.noon] Sample.same_day_at_head) Fixture.world).1.1
  = [].
Proof.
  rewrite (delivery_silences_the_day (H := Sample.externals) Sample.config
             (TurnstileEvent.with_queue [Sample.noon] Sample.same_day_at_head)
             Fixture.world Sample.morning);
    [reflexivity | reflexivity | reflexivity | discriminate |].
  repeat constructor; unfold Sample.noon, Sample.morning; lia.
Defined.

(** A report at noon after a success in the morning of the same day. *)
Lemma sent_once_per_day_witness :
  TurnstileEvent.processRequests (H := Sample.externals) Sample.config
    Sample.same_day_at_head Fixture.world
  = TurnstileEvent.processRequests (H := Sample.externals) Sample.config
      (TurnstileEvent.with_queue [Sample.next_day] Sample.same_day_at_head) Fixture.world.
Proof.
  destruct (sent_once_per_day (H := Sample.externals) Sample.config Sample.same_day_at_head
              Fixture.world Sample.noon Sample.morning [Sample.next_day] Fixture.events_url)
    as [Hdropped _];
    [reflexivity | reflexivity | reflexivity | reflexivity | reflexivity | reflexivity
    | discriminate | reflexivity |].
  apply Hdropped. intros [Hlate | [Hearly | Hday]].
  - vm_compute in Hlate. by apply Hlate.
  - vm_compute in Hearly. discriminate.
  - by apply Hday.
Defined.

(** A new object at noon, over a storage that holds a success of the
    morning. *)
Lemma stored_success_spans_sessions_witness :
  TurnstileEvent.processRequests (H := Sample.externals) Sample.config
    (TurnstileEvent.with_queue [Sample.noon] (TurnstileEvent.new Sample.config))
    Fixture.world_after_success
  = (TurnstileEvent.with_eventData Fixture.stored (TurnstileEvent.new Sample.config),
     Fixture.world_after_success, None).
Proof.
  apply (stored_success_spans_sessions (H := Sample.externals) Sample.config
           Fixture.world_after_success Fixture.stored Sample.noon Sample.morning);
    [reflexivity | reflexivity | reflexivity | reflexivity | reflexivity | discriminate
    | unfold Sample.noon, Sample.morning; lia | reflexivity].
Defined.

(** The queue of a success under [pk.key], after the token was changed. *)
Lemma token_change_draws_new_identity_witness :
  ∃ w',
    TurnstileEvent.processRequests (H := Sample.externals) Sample.config_other_token
      Sample.same_day_at_head Fixture.world
    = (TurnstileEvent.with_pendingRequest (Some (Handle 0))
         (TurnstileEvent.with_queue [Sample.next_day]
            (TurnstileEvent.with_eventData
               {| anonId := Some (uuid (Externals := Sample.externals) 0);
                  lastSuccess := None;
                  accessToken := Some (js "pk.key") |} Sample.same_day_at_head)),
       w', None).
Proof.
  eexists.
  apply (token_change_draws_new_identity (H := Sample.externals) Sample.config_other_token
           Sample.same_day_at_head Fixture.world Sample.noon [Sample.next_day]
           Fixture.events_url);
    [reflexivity | reflexivity | reflexivity | discriminate | reflexivity | reflexivity
    | reflexivity].
Defined.
(** ** Event data that is not an object *)

Section NotAnObject.
Context `{Externals}.
Import TelemetryEvent.

Lemma MapLoad_processRequests_keeps_null config o env o' env' err :
  MapLoadEvent.processRequests config o env = (o', env', err) →
  MapLoadEvent.eventData o = Null → MapLoadEvent.eventData o' = Null.
Proof.
  unfold MapLoadEvent.processRequests. intros Hp Hnull.
  destruct (MapLoadEvent.pendingRequest o); [by injection Hp as <- <- <- |].
  destruct (MapLoadEvent.queue o) as [|[id ts] rest]; [by injection Hp as <- <- <- |].
  destruct (negb (id =? 0) && _); [by injection Hp as <- <- <- |].
  cbn [MapLoadEvent.eventData MapLoadEvent.with_queue] in Hp. rewrite Hnull in Hp.
  by injection Hp as <- <- <-.
Qed.

Lemma Turnstile_processRequests_keeps_null config o env o' env' err :
  TurnstileEvent.processRequests config o env = (o', env', err) →
  TurnstileEvent.eventData o = Null → TurnstileEvent.eventData o' = Null.
Proof.
  unfold TurnstileEvent.processRequests. intros Hp Hnull.
  destruct (TurnstileEvent.queue o) as [|nextUpdate rest];
    cbn [TurnstileEvent.processRequests_on] in Hp.
  - destruct (TurnstileEvent.pendingRequest o); by injection Hp as <- <- <-.
  - destruct (TurnstileEvent.pendingRequest o); [by injection Hp as <- <- <- |].
    rewrite Hnull in Hp. by injection Hp as <- <- <-.
Qed.

(** No call into the module replaces event data that is [null]. *)
Lemma step_keeps_null s a :
  (TurnstileEvent.eventData (turnstileEvent_ s) = Null →
   TurnstileEvent.eventData (turnstileEvent_ (step s a)) = Null)
  ∧ (MapLoadEvent.eventData (mapLoadEvent_ s) = Null →
     MapLoadEvent.eventData (mapLoadEvent_ (step s a)) = Null).
Proof.
  destruct a as [c | st | now urls | now urls mapId | k error]; unfold step;
    [done | done | | |].
  - unfold TurnstileEvent.postTurnstileEvent, TurnstileEvent.queueRequest.
    destruct (truthy_str _ && _); [| done].
    destruct (TurnstileEvent.processRequests _ _ _) as [[o' e'] err] eqn:Hp.
    split; [| done]. intros Hnull.
    by apply Turnstile_processRequests_keeps_null in Hp.
  - unfold MapLoadEvent.postMapLoadEvent, MapLoadEvent.queueRequest.
    destruct (truthy_str _ && _); [| done].
    destruct (MapLoadEvent.processRequests _ _ _) as [[o' e'] err] eqn:Hp.
    split; [done |]. intros Hnull.
    by apply MapLoad_processRequests_keeps_null in Hp.
  - destruct (inflight (env s) !! k) as [[[h req] [id | nextUpdate]]|]; [| | done].
    + destruct (MapLoadEvent.callback _ _ _ _ _) as [[o' e'] err] eqn:Hc.
      split; [done |]. intros Hnull. cbn [mapLoadEvent_].
      unfold MapLoadEvent.callback in Hc. destruct error as [e|].
      * by injection Hc as <- <- <-.
      * apply MapLoad_processRequests_keeps_null in Hc; [done |].
        by destruct (negb (id =? 0)).
    + destruct (TurnstileEvent.callback _ _ _ _ _) as [[o' e'] err] eqn:Hc.
      split; [| done]. intros Hnull. cbn [turnstileEvent_].
      unfold TurnstileEvent.callback in Hc. destruct error as [e|].
      * by injection Hc as <- <- <-.
      * cbn [TurnstileEvent.eventData TurnstileEvent.with_pendingRequest] in Hc.
        rewrite Hnull in Hc. by injection Hc as <- <- <-.
Qed.

(** X20: event data that is [null] is never repaired.  Once [null] has been
    read from the storage into a queue object, it stays there whatever the
    module is asked to do next, whatever the storage and the configuration
    become.  From then on every dispatch of that object that has an entry to
    send throws a type error and posts nothing: the one-shot queue loses the
    entry, the recurring queue keeps it.  A new recurring queue gets there
    with its first report when the storage holds the text [null] under the
    configured token. *)
Theorem null_event_data_is_never_repaired (config : Config) (w : Env) :
  (∀ (o : MapLoadEvent.t) entry rest,
      MapLoadEvent.pendingRequest o = None →
      MapLoadEvent.queue o = entry :: rest →
      MapLoadEvent.id entry = 0
      ∨ MapLoadEvent.succeeded o (MapLoadEvent.id entry) = false →
      MapLoadEvent.eventData o = Null →
      MapLoadEvent.processRequests config o w
      = (MapLoadEvent.with_queue rest o, w, Some TypeError))
  ∧ (∀ (o : TurnstileEvent.t) nextUpdate rest,
        TurnstileEvent.pendingRequest o = None →
        TurnstileEvent.queue o = nextUpdate :: rest →
        TurnstileEvent.eventData o = Null →
        TurnstileEvent.processRequests config o w = (o, w, Some TypeError))
  ∧ (∀ nextUpdate,
        available (storage w) = true → getItem_throws (storage w) = false →
        items (storage w) !! storageKey config = Some (Json Null) →
        TurnstileEvent.processRequests config
          (TurnstileEvent.with_queue [nextUpdate] (TurnstileEvent.new config)) w
        = (TurnstileEvent.with_eventData Null
             (TurnstileEvent.with_queue [nextUpdate] (TurnstileEvent.new config)),
           w, Some TypeError))
  ∧ (∀ s actions,
        TurnstileEvent.eventData (turnstileEvent_ s) = Null →
        TurnstileEvent.eventData (turnstileEvent_ (run s actions)) = Null)
  ∧ (∀ s actions,
        MapLoadEvent.eventData (mapLoadEvent_ s) = Null →
        MapLoadEvent.eventData (mapLoadEvent_ (run s actions)) = Null).
Proof.
  split_and!.
  - intros o [id ts] rest Hpend Hq Hun Hnull. cbn [MapLoadEvent.id] in Hun.
    unfold MapLoadEvent.processRequests. rewrite Hpend, Hq.
    assert (Hdup : negb (id =? 0)
                   && MapLoadEvent.succeeded (MapLoadEvent.with_queue rest o) id = false).
    { destruct Hun as [-> | Hs]; [done |]. apply andb_false_iff. by right. }
    rewrite Hdup. cbn [MapLoadEvent.eventData MapLoadEvent.with_queue].
    by rewrite Hnull.
  - intros o nextUpdate rest Hpend Hq Hnull.
    unfold TurnstileEvent.processRequests. rewrite Hq.
    cbn [TurnstileEvent.processRequests_on]. rewrite Hpend, Hnull.
    cbn. destruct o as [d q p]. cbn in *. by subst.
  - intros nextUpdate Ha Hg Hit.
    unfold TurnstileEvent.processRequests.
    cbn [TurnstileEvent.queue TurnstileEvent.with_queue TurnstileEvent.processRequests_on
         TurnstileEvent.pendingRequest TurnstileEvent.new TurnstileEvent.eventData].
    assert (Hd : TurnstileEvent.decide_due config nextUpdate (initial_eventData config) w
                 = (Null, w, Throw TypeError)).
    { unfold TurnstileEvent.decide_due, initial_eventData.
      cbn [is_null fields accessToken anonId lastSuccess].
      assert (Hdue : (if truthy_str (ACCESS_TOKEN config)
                      then negb (bool_decide (ACCESS_TOKEN config = ACCESS_TOKEN config))
                      else false) = false).
      { rewrite bool_decide_eq_true_2 by done. by destruct (truthy_str _). }
      rewrite Hdue. cbn [fields anonId truthy_str negb orb].
      unfold fetchEventData. by rewrite Ha, Hg, Hit. }
    by rewrite Hd.
  - intros s actions. revert s.
    induction actions as [|a actions IH]; intros s Hnull; [done |].
    apply IH. by apply step_keeps_null.
  - intros s actions. revert s.
    induction actions as [|a actions IH]; intros s Hnull; [done |].
    apply IH. by apply step_keeps_null.
Qed.

End NotAnObject.

(** The first usage report over a storage that holds [null], and a second
    one after the storage has been emptied. *)
Lemma null_event_data_is_never_repaired_witness :
  TurnstileEvent.eventData
    (turnstileEvent_
       (run (H := Sample.externals)
          (run (H := Sample.externals) (load Sample.config Fixture.storage_with_null)
             [PostTurnstileEvent Sample.morning Sample.tiles])
          [SetStorage Sample.empty_storage;
           PostTurnstileEvent Sample.next_day Sample.tiles]))
  = Null
  ∧ inflight
      (env
         (run (H := Sample.externals) (load Sample.config Fixture.storage_with_null)
            [PostTurnstileEvent Sample.morning Sample.tiles;
             SetStorage Sample.empty_storage;
             PostTurnstileEvent Sample.next_day Sample.tiles]))
    = [].
Proof.
  split; [| reflexivity].
  apply (null_event_data_is_never_repaired (H := Sample.externals) Sample.config
           Fixture.world).
  reflexivity.
Defined.

(** ** The matcher, read backwards

    What a successful match of each construct says about the text, and when
    the rest of a pattern cannot fail. *)

Section MatcherInversion.
Variable ic : bool.
Implicit Types (k : cont) (pos : nat) (s : jsstring) (caps : captures).

Lemma star_m_inv p k pos s caps r :
  star_m p k pos s caps = Some r →
  ∃ xs rest, s = xs ++ rest ∧ all p xs ∧ k (pos + length xs)%nat rest caps = Some r.
Proof.
  revert pos. induction s as [|x s IH]; intros pos Hm; simpl in Hm.
  - exists [], []. rewrite Nat.add_0_r. by repeat split; [constructor |].
  - assert (Hhere : k pos (x :: s) caps = Some r →
                    ∃ xs rest, x :: s = xs ++ rest ∧ all p xs
                               ∧ k (pos + length xs)%nat rest caps = Some r).
    { intros Hk. exists [], (x :: s). rewrite Nat.add_0_r. by repeat split; [constructor |]. }
    destruct (p x) eqn:Hx; [| by apply Hhere].
    destruct (star_m p k (S pos) s caps) as [r'|] eqn:Hs; [| by apply Hhere].
    injection Hm as ->. apply IH in Hs as (xs & rest & -> & Hall & Hk).
    exists (x :: xs), rest. split_and!; [done | by constructor |].
    by replace (pos + length (x :: xs))%nat with (S pos + length xs)%nat by (simpl; lia).
Qed.

Lemma rmatch_cat_inv r1 rs k pos s caps r :
  rmatch ic (cat (r1 :: rs)) k pos s caps = Some r →
  rmatch ic r1 (rmatch ic (cat rs) k) pos s caps = Some r.
Proof. done. Qed.

Lemma rmatch_chr_inv c k pos s caps r :
  rmatch ic (Chr c) k pos s caps = Some r →
  ∃ x s', s = x :: s' ∧ chr_eq ic c x = true ∧ k (S pos) s' caps = Some r.
Proof.
  destruct s as [|x s']; simpl; [done |].
  destruct (chr_eq ic c x) eqn:Hc; [| done]. intros Hk. by exists x, s'.
Qed.

Lemma rmatch_plus_inv p k pos s caps r :
  rmatch ic (Plus p) k pos s caps = Some r →
  ∃ x xs rest, s = x :: xs ++ rest ∧ p x = true ∧ all p xs
               ∧ k (S pos + length xs)%nat rest caps = Some r.
Proof.
  destruct s as [|x s']; simpl; [done |].
  destruct (p x) eqn:Hx; [| done].
  intros (xs & rest & -> & Hall & Hk)%star_m_inv. by exists x, xs, rest.
Qed.

Lemma rmatch_opt_inv r1 k pos s caps r :
  rmatch ic (Opt r1) k pos s caps = Some r →
  rmatch ic r1 k pos s caps = Some r ∨ k pos s caps = Some r.
Proof. simpl. destruct (rmatch ic r1 k pos s caps); [left | right]; done. Qed.

Lemma rmatch_alt_inv r1 r2 k pos s caps r :
  rmatch ic (Alt r1 r2) k pos s caps = Some r →
  rmatch ic r1 k pos s caps = Some r ∨ rmatch ic r2 k pos s caps = Some r.
Proof. simpl. destruct (rmatch ic r1 k pos s caps); [left | right]; done. Qed.

Lemma rmatch_bos_inv k pos s caps r :
  rmatch ic Bos k pos s caps = Some r → pos = 0%nat ∧ k pos s caps = Some r.
Proof. simpl. destruct pos; [done | done]. Qed.

Lemma rmatch_eos_inv k pos s caps r :
  rmatch ic Eos k pos s caps = Some r → s = [] ∧ k pos s caps = Some r.
Proof. by destruct s. Qed.

Lemma rmatch_ahead_eos_inv k pos s caps r :
  rmatch ic (Ahead Eos) k pos s caps = Some r → s = [] ∧ k pos s caps = Some r.
Proof. by destruct s. Qed.

(** Totality. *)
Lemma star_m_total p k : total k → total (star_m p k).
Proof.
  intros Hk pos s. revert pos. induction s as [|x s IH]; intros pos caps; simpl; [done |].
  destruct (p x); [| done].
  destruct (IH (S pos) caps) as [r ->]. done.
Qed.

Lemma rmatch_opt_total r1 k : total k → total (rmatch ic (Opt r1) k).
Proof.
  intros Hk pos s caps. simpl. destruct (rmatch ic r1 k pos s caps); [done | apply Hk].
Qed.

Lemma rmatch_grp_star_total i p k : total k → total (rmatch ic (Grp i (Star p)) k).
Proof. intros Hk pos s caps. simpl. apply star_m_total. intros ???. apply Hk. Qed.

Lemma rmatch_cat_total r1 rs k :
  total (rmatch ic r1 (rmatch ic (cat rs) k)) → total (rmatch ic (cat (r1 :: rs)) k).
Proof. done. Qed.

Lemma accept_total : total accept.
Proof. by intros ???. Qed.

End MatcherInversion.

(** [exec] gives the first index at which the pattern matches, and the
    match there. *)
Lemma exec_from_inv re pos s m :
  exec_from re pos s = Some m →
  ∃ i e caps,
    (i ≤ length s)%nat
    ∧ rmatch (ignoreCase re) (body re) accept (pos + i) (drop i s)
        (replicate (S (groups re)) None) = Some (e, caps)
    ∧ (∀ j, (j < i)%nat →
            rmatch (ignoreCase re) (body re) accept (pos + j) (drop j s)
              (replicate (S (groups re)) None) = None)
    ∧ m = {| index := pos + i; lastIndex := e;
             parts := <[0%nat := Some (take (e - (pos + i))%nat (drop i s))]> caps |}.
Proof.
  revert pos. induction s as [|c s IH]; intros pos Hm; cbn [exec_from] in Hm.
  - fold accept in Hm.
    destruct (rmatch _ _ accept pos [] _) as [[e caps]|] eqn:Hr; [| done].
    injection Hm as <-. exists 0%nat, e, caps. rewrite Nat.add_0_r.
    split_and!; [done | done | intros j Hj; lia | done].
  - fold accept in Hm.
    destruct (rmatch _ _ accept pos (c :: s) _) as [[e caps]|] eqn:Hr.
    + injection Hm as <-. exists 0%nat, e, caps. rewrite Nat.add_0_r.
      split_and!; [simpl; lia | done | intros j Hj; lia | done].
    + apply IH in Hm as (i & e & caps & Hi & Hmatch & Hbefore & ->).
      exists (S i), e, caps.
      replace (pos + S i)%nat with (S pos + i)%nat by lia.
      split_and!; [simpl; lia | done | | done].
      intros [|j] Hj.
      * by rewrite Nat.add_0_r.
      * replace (pos + S j)%nat with (S pos + j)%nat by lia. apply Hbefore. lia.
Qed.

(** No match at any of the indices: no result. *)
Lemma exec_from_none re pos s :
  (∀ j, (j ≤ length s)%nat →
        rmatch (ignoreCase re) (body re) accept (pos + j) (drop j s)
          (replicate (S (groups re)) None) = None) →
  exec_from re pos s = None.
Proof.
  revert pos. induction s as [|c s IH]; intros pos Hnone; cbn [exec_from]; fold accept.
  - specialize (Hnone 0%nat). rewrite Nat.add_0_r, drop_0 in Hnone. by rewrite Hnone.
  - pose proof (Hnone 0%nat) as H0. rewrite Nat.add_0_r, drop_0 in H0.
    rewrite H0 by (simpl; lia).
    apply IH. intros j Hj.
    replace (S pos + j)%nat with (pos + S j)%nat by lia. apply (Hnone (S j)). simpl. lia.
Qed.
(** ** What [parseUrl] accepts and what it returns *)

Lemma split_elements (sep : N) (s x : jsstring) :
  x ∈ split sep s → (sep ∉ x) ∧ (∀ c, c ∈ x → c ∈ s).
Proof.
  revert x. induction s as [|c s IH]; intros x Hin; simpl in Hin.
  - apply list_elem_of_singleton in Hin as ->. split; [by intros ?%elem_of_nil | done].
  - destruct (N.eqb c sep) eqn:E.
    + apply elem_of_cons in Hin as [-> | Hin].
      * split; [by intros ?%elem_of_nil | by intros ? ?%elem_of_nil].
      * apply IH in Hin as [Hsep Hsub]. split; [done |].
        intros c' Hc'. apply elem_of_cons. right. by apply Hsub.
    + apply N.eqb_neq in E.
      pose proof (split_not_nil sep s) as Hne.
      destruct (split sep s) as [|h t] eqn:Hs; [done |].
      apply elem_of_cons in Hin as [-> | Hin].
      * destruct (IH h) as [Hsep Hsub]; [apply list_elem_of_here |]. split.
        -- intros [Heq | Hin]%elem_of_cons; [by subst | done].
        -- intros c' [-> | Hc']%elem_of_cons; [apply list_elem_of_here |].
           apply elem_of_cons. right. by apply Hsub.
      * destruct (IH x) as [Hsep Hsub]; [by apply list_elem_of_further |]. split; [done |].
        intros c' Hc'. apply elem_of_cons. right. by apply Hsub.
Qed.

(** Splitting what was joined gives the pieces back, when no piece holds
    the separator. *)
Lemma split_join (sep : N) (l : list jsstring) :
  l ≠ [] → (∀ x, x ∈ l → sep ∉ x) → split sep (join [sep] l) = l.
Proof.
  assert (Hone : ∀ x, sep ∉ x → split sep x = [x]).
  { induction x as [|c x IH]; intros Hx; simpl; [done |].
    destruct (N.eqb c sep) eqn:E.
    - apply N.eqb_eq in E as ->. destruct Hx. apply list_elem_of_here.
    - rewrite IH; [done |]. intros Hin. apply Hx. by apply list_elem_of_further. }
  assert (Happ : ∀ x rest, sep ∉ x → split sep (x ++ sep :: rest) = x :: split sep rest).
  { induction x as [|c x IH]; intros rest Hx; simpl.
    - by rewrite N.eqb_refl.
    - destruct (N.eqb c sep) eqn:E.
      + apply N.eqb_eq in E as ->. destruct Hx. apply list_elem_of_here.
      + rewrite IH; [done |]. intros Hin. apply Hx. by apply list_elem_of_further. }
  induction l as [|x l IH]; intros Hne Hsep; [done |].
  destruct l as [|y l].
  - simpl. apply Hone, Hsep, list_elem_of_here.
  - change (join [sep] (x :: y :: l)) with (x ++ sep :: join [sep] (y :: l)).
    rewrite Happ by (apply Hsep, list_elem_of_here).
    rewrite IH; [done | done |]. intros z Hz. apply Hsep. by apply list_elem_of_further.
Qed.

(** The URL pattern can only match at the start of the text. *)
Lemma exec_urlRe_inv (url : jsstring) (m : MatchResult) :
  exec urlRe url = Some m →
  ∃ e caps,
    rmatch false (body urlRe) accept 0 url (replicate 5 None) = Some (e, caps)
    ∧ ∀ i, (0 < i)%nat → part m i = default None (caps !! i).
Proof.
  intros (i & e & caps & _ & Hm & _ & ->)%exec_from_inv.
  pose proof Hm as Hm'.
  apply rmatch_cat_inv, rmatch_bos_inv in Hm' as [Hi _].
  assert (i = 0%nat) as -> by lia. rewrite drop_0 in Hm.
  exists e, caps. split; [done |].
  intros [|j] Hj; [lia |]. unfold part. cbn [parts].
  rewrite list_lookup_insert_ne by lia. by destruct (caps !! S j).
Qed.

Lemma rmatch_grp_inv ic i r1 k pos s caps r :
  rmatch ic (Grp i r1) k pos s caps = Some r →
  rmatch ic r1
    (λ pos' s' caps', k pos' s' (<[i := Some (take (pos' - pos)%nat s)]> caps'))
    pos s caps = Some r.
Proof. done. Qed.

(** The end of the URL pattern: the optional [?] and the optional query. *)
Lemma url_query_inv pos s caps e caps' :
  rmatch false (cat [Opt (Chr (ch "?")); Opt (Grp 4 (Plus dot))]) accept pos s caps
  = Some (e, caps') →
  caps' = caps ∨ ∃ x, x ≠ [] ∧ all dot x ∧ caps' = <[4%nat := Some x]> caps.
Proof.
  assert (Hq : ∀ pos s,
    rmatch false (cat [Opt (Grp 4 (Plus dot))]) accept pos s caps = Some (e, caps') →
    caps' = caps ∨ ∃ x, x ≠ [] ∧ all dot x ∧ caps' = <[4%nat := Some x]> caps).
  { clear pos s. intros pos s Hm.
    apply rmatch_cat_inv, rmatch_opt_inv in Hm as [Hm | Hm].
    - apply rmatch_grp_inv, rmatch_plus_inv in Hm as (x & xs & rest & -> & Hx & Hxs & Hm).
      injection Hm as _ <-. right. exists (x :: xs).
      split_and!; [done | by constructor |]. do 2 f_equal.
      apply (take_prefix _ _ _ rest); [done | simpl; lia].
    - injection Hm as _ <-. by left. }
  intros Hm. apply rmatch_cat_inv, rmatch_opt_inv in Hm as [Hm | Hm].
  - apply rmatch_chr_inv in Hm as (c & s' & -> & _ & Hm). by eapply Hq.
  - by eapply Hq.
Qed.

(** The optional path, followed by the end of the pattern. *)
Lemma url_path_inv pos s caps e caps' :
  rmatch false
    (cat [Opt (Grp 3 (cat [Chr (ch "/"); Plus not_question]));
          Opt (Chr (ch "?")); Opt (Grp 4 (Plus dot))]) accept pos s caps
  = Some (e, caps') →
  ∃ caps1,
    (caps1 = caps
     ∨ ∃ t, t ≠ [] ∧ all not_question t ∧ caps1 = <[3%nat := Some (js "/" ++ t)]> caps)
    ∧ (caps' = caps1 ∨ ∃ x, x ≠ [] ∧ all dot x ∧ caps' = <[4%nat := Some x]> caps1).
Proof.
  intros Hm. apply rmatch_cat_inv, rmatch_opt_inv in Hm as [Hm | Hm].
  - apply rmatch_grp_inv, rmatch_cat_inv, rmatch_chr_inv in Hm
      as (c & s' & -> & Hc & Hm).
    apply N.eqb_eq in Hc as <-.
    apply rmatch_cat_inv, rmatch_plus_inv in Hm as (x & xs & rest & -> & Hx & Hxs & Hm).
    cbv beta in Hm. change (rmatch false (cat []) ?k) with k in Hm. cbv beta in Hm.
    apply url_query_inv in Hm. eexists. split; [| exact Hm].
    right. exists (x :: xs). split_and!; [done | by constructor |]. do 2 f_equal.
    apply (take_prefix _ _ _ rest); [done | simpl; lia].
  - apply url_query_inv in Hm. exists caps. split; [by left | done].
Qed.

(** What a match of the URL pattern says about the text and the groups. *)
Lemma urlRe_match_inv (url : jsstring) (e : nat) (caps : captures) :
  rmatch false (body urlRe) accept 0 url (replicate 5 None) = Some (e, caps) →
  ∃ scheme auth rest p q,
    url = scheme ++ js "://" ++ auth ++ rest
    ∧ scheme ≠ [] ∧ all is_word scheme ∧ all not_slash_question auth
    ∧ caps !! 1%nat = Some (Some scheme) ∧ caps !! 2%nat = Some (Some auth)
    ∧ caps !! 3%nat = Some p ∧ caps !! 4%nat = Some q
    ∧ (∀ x, p = Some x → ∃ t, x = js "/" ++ t ∧ t ≠ [] ∧ all not_question t)
    ∧ (∀ x, q = Some x → x ≠ [] ∧ all dot x).
Proof.
  unfold urlRe, body. intros Hm.
  apply rmatch_cat_inv, rmatch_bos_inv in Hm as [_ Hm].
  apply rmatch_cat_inv, rmatch_grp_inv, rmatch_plus_inv in Hm
    as (x & xs & rest & -> & Hx & Hxs & Hm). cbv beta in Hm.
  apply rmatch_cat_inv, rmatch_chr_inv in Hm as (c1 & s1 & -> & <-%N.eqb_eq & Hm).
  apply rmatch_cat_inv, rmatch_chr_inv in Hm as (c2 & s2 & -> & <-%N.eqb_eq & Hm).
  apply rmatch_cat_inv, rmatch_chr_inv in Hm as (c3 & s3 & -> & <-%N.eqb_eq & Hm).
  apply rmatch_cat_inv, rmatch_grp_inv in Hm.
  apply star_m_inv in Hm as (auth & rest3 & -> & Hauth & Hm). cbv beta in Hm.
  assert (H1 : take (1 + length xs - 0)
                 (x :: xs ++ ch ":" :: ch "/" :: ch "/" :: auth ++ rest3) = x :: xs).
  { apply (take_prefix _ _ _ (ch ":" :: ch "/" :: ch "/" :: auth ++ rest3));
      [done | simpl; lia]. }
  assert (H2 : take (S (S (S (1 + length xs))) + length auth - S (S (S (1 + length xs))))
                 (auth ++ rest3) = auth).
  { apply (take_prefix _ _ _ rest3); [done | lia]. }
  rewrite H1, H2 in Hm. clear H1 H2.
  apply url_path_inv in Hm as (caps1 & Hp & Hq).
  exists (x :: xs), auth, rest3.
  destruct Hp as [-> | (t & Ht & Hnq & ->)]; destruct Hq as [-> | (q & Hq & Hdot & ->)].
  - exists None, None. split_and!; try done. by constructor.
  - exists None, (Some q). split_and!; try done; [by constructor |]. by intros ? [= <-].
  - exists (Some (js "/" ++ t)), None. split_and!; try done; [by constructor |].
    intros ? [= <-]. by exists t.
  - exists (Some (js "/" ++ t)), (Some q). split_and!; try done; [by constructor | |].
    + intros ? [= <-]. by exists t.
    + by intros ? [= <-].
Qed.
(** ** Success of a match *)

Section MatcherSuccess.
Variable ic : bool.
Implicit Types (k : cont) (pos : nat) (s : jsstring) (caps : captures).

(** A repetition succeeds as soon as one way of cutting the text does: the
    matcher tries the longer runs first and comes back to this one. *)
Lemma star_m_some p k pos xs rest caps :
  all p xs → is_Some (k (pos + length xs)%nat rest caps) →
  is_Some (star_m p k pos (xs ++ rest) caps).
Proof.
  intros Hall. revert pos. induction Hall as [|x xs Hx Hxs IH]; intros pos Hk.
  - rewrite Nat.add_0_r in Hk. destruct rest as [|c rest]; [done |]. simpl.
    destruct (p c); [| done]. by destruct (star_m p k (S pos) rest caps).
  - simpl. rewrite Hx.
    destruct (IH (S pos)) as [r ->]; [| done].
    by replace (S pos + length xs)%nat with (pos + length (x :: xs))%nat by (simpl; lia).
Qed.

Lemma rmatch_cat_some r1 rs k pos s caps :
  is_Some (rmatch ic r1 (rmatch ic (cat rs) k) pos s caps) →
  is_Some (rmatch ic (cat (r1 :: rs)) k pos s caps).
Proof. done. Qed.

Lemma rmatch_chr_some c x k pos s caps :
  chr_eq ic c x = true → is_Some (k (S pos) s caps) →
  is_Some (rmatch ic (Chr c) k pos (x :: s) caps).
Proof. intros Hc Hk. simpl. by rewrite Hc. Qed.

Lemma rmatch_plus_some p k pos x xs rest caps :
  p x = true → all p xs → is_Some (k (S pos + length xs)%nat rest caps) →
  is_Some (rmatch ic (Plus p) k pos (x :: xs ++ rest) caps).
Proof. intros Hx Hxs Hk. simpl. rewrite Hx. by apply star_m_some. Qed.

Lemma rmatch_grp_some i r1 k pos s caps :
  is_Some (rmatch ic r1
             (λ pos' s' caps', k pos' s' (<[i := Some (take (pos' - pos)%nat s)]> caps'))
             pos s caps) →
  is_Some (rmatch ic (Grp i r1) k pos s caps).
Proof. done. Qed.

Lemma rmatch_opt_some_taken r1 k pos s caps :
  is_Some (rmatch ic r1 k pos s caps) → is_Some (rmatch ic (Opt r1) k pos s caps).
Proof. intros [r Hr]. simpl. by rewrite Hr. Qed.

Lemma rmatch_opt_some_skipped r1 k pos s caps :
  is_Some (k pos s caps) → is_Some (rmatch ic (Opt r1) k pos s caps).
Proof. intros Hk. simpl. by destruct (rmatch ic r1 k pos s caps). Qed.

Lemma rmatch_alt_some_l r1 r2 k pos s caps :
  is_Some (rmatch ic r1 k pos s caps) → is_Some (rmatch ic (Alt r1 r2) k pos s caps).
Proof. intros [r Hr]. simpl. by rewrite Hr. Qed.

Lemma rmatch_alt_some_r r1 r2 k pos s caps :
  is_Some (rmatch ic r2 k pos s caps) → is_Some (rmatch ic (Alt r1 r2) k pos s caps).
Proof. intros Hk. simpl. by destruct (rmatch ic r1 k pos s caps). Qed.

End MatcherSuccess.

Lemma exec_from_some re pos s :
  is_Some (rmatch (ignoreCase re) (body re) accept pos s (replicate (S (groups re)) None)) →
  is_Some (exec_from re pos s).
Proof.
  intros [[e caps] Hr]. erewrite exec_from_here; [done | exact Hr].
Qed.

(** After the authority the URL pattern cannot fail. *)
Lemma url_tail_total :
  total (rmatch false
           (cat [Grp 2 (Star not_slash_question);
                 Opt (Grp 3 (cat [Chr (ch "/"); Plus not_question]));
                 Opt (Chr (ch "?")); Opt (Grp 4 (Plus dot))]) accept).
Proof.
  apply rmatch_cat_total, rmatch_grp_star_total.
  do 3 apply rmatch_cat_total, rmatch_opt_total.
  apply accept_total.
Qed.

(** ** What [parseUrl] accepts and returns: the statements *)

(** A text that [parseUrl] accepts starts with a scheme and [://]. *)
Lemma parseUrl_ok_scheme (url : jsstring) (o : UrlObject) :
  parseUrl url = Ok o →
  ∃ scheme rest, scheme ≠ [] ∧ all is_word scheme ∧ url = scheme ++ js "://" ++ rest.
Proof.
  intros Ho. unfold parseUrl in Ho.
  destruct (exec urlRe url) as [m|] eqn:He; [| done].
  apply exec_urlRe_inv in He as (e & caps & Hm & _).
  apply urlRe_match_inv in Hm as (scheme & auth & rest & _ & _ & -> & Hne & Hw & _).
  by exists scheme, (auth ++ rest).
Qed.

(** A text that starts with a scheme and [://] is accepted. *)
Lemma parseUrl_scheme_ok (scheme rest : jsstring) :
  scheme ≠ [] → all is_word scheme → ∃ o, parseUrl (scheme ++ js "://" ++ rest) = Ok o.
Proof.
  intros Hne Hw.
  destruct scheme as [|c cs]; [done |]. apply Forall_cons in Hw as [Hc Hcs].
  assert (Hex : is_Some (exec urlRe ((c :: cs) ++ js "://" ++ rest))).
  { apply exec_from_some. unfold urlRe, body, ignoreCase, groups.
    apply rmatch_cat_some. apply rmatch_cat_some, rmatch_grp_some.
    apply (rmatch_plus_some _ _ _ _ c cs); [done | done |].
    do 3 (apply rmatch_cat_some, rmatch_chr_some; [done |]).
    apply url_tail_total. }
  destruct Hex as [m Hm]. unfold parseUrl. rewrite Hm. by eexists.
Qed.

Lemma parseUrl_only_error (url : jsstring) (e : Error) :
  parseUrl url = Throw e → e = UnableToParseURL.
Proof. unfold parseUrl. destruct (exec urlRe url); [done | by intros [= <-]]. Qed.

(** X12: [parseUrl] accepts a text exactly when it starts with a non-empty
    run of word characters followed by [://]; for any other text it throws
    the error of the unparsable URL, and it throws no other error. *)
Theorem parseUrl_accepts_scheme_urls (url : jsstring) :
  ((∃ o, parseUrl url = Ok o)
   ↔ ∃ scheme rest, scheme ≠ [] ∧ all is_word scheme ∧ url = scheme ++ js "://" ++ rest)
  ∧ ((¬ ∃ scheme rest, scheme ≠ [] ∧ all is_word scheme ∧ url = scheme ++ js "://" ++ rest) →
     parseUrl url = Throw UnableToParseURL).
Proof.
  split; [split |].
  - intros [o Ho]. by apply parseUrl_ok_scheme in Ho.
  - intros (scheme & rest & Hne & Hw & ->). by apply parseUrl_scheme_ok.
  - intros Hn. destruct (parseUrl url) as [o|e] eqn:Ho.
    + destruct Hn. by apply parseUrl_ok_scheme in Ho.
    + by apply parseUrl_only_error in Ho as ->.
Qed.

(** A tile URL is accepted. *)
Lemma parseUrl_accepts_scheme_urls_witness :
  ∃ o, parseUrl Fixture.raster_tile = Ok o.
Proof.
  apply (proj1 (parseUrl_accepts_scheme_urls Fixture.raster_tile)).
  exists (js "http"), (js "a.tiles.mapbox.com/v4/a/1/2/3.png?access_token=tk.abc").
  split_and!; [discriminate | by repeat constructor | reflexivity].
Defined.

(** X13: whatever text [parseUrl] accepts, the object it returns has a
    non-empty protocol of word characters, an authority without [/] and [?],
    a path that starts with [/] and holds no [?], and parameters without [&]
    and without line terminators; and the text starts with the protocol,
    [://] and the authority. *)
Theorem parsed_url_fields (url : jsstring) (o : UrlObject) :
  parseUrl url = Ok o →
  protocol o ≠ [] ∧ all is_word (protocol o)
  ∧ all not_slash_question (authority o)
  ∧ (∃ t, path o = js "/" ++ t ∧ all not_question t)
  ∧ (∀ x, x ∈ params o → (ch "&" ∉ x) ∧ all dot x)
  ∧ (∃ rest, url = protocol o ++ js "://" ++ authority o ++ rest).
Proof.
  unfold parseUrl. intros Ho.
  destruct (exec urlRe url) as [m|] eqn:He; [| done].
  apply exec_urlRe_inv in He as (e & caps & Hm & Hparts).
  apply urlRe_match_inv in Hm
    as (scheme & auth & rest & p & q & -> & Hne & Hw & Ha & H1 & H2 & H3 & H4 & Hp & Hq).
  rewrite !Hparts in Ho by lia. rewrite H1, H2, H3, H4 in Ho. simpl in Ho.
  injection Ho as <-. simpl. split_and!; try done.
  - destruct p as [x|]; [| by exists []; split; [| constructor]].
    destruct (Hp x eq_refl) as (t & -> & Ht & Hnq).
    destruct t as [|c t]; [done |]. by exists (c :: t).
  - intros x Hx. destruct q as [y|]; [| by apply elem_of_nil in Hx].
    destruct (Hq y eq_refl) as [Hy Hdot]. destruct y as [|c y]; [done |].
    cbn [truthy_str or_empty] in Hx.
    apply split_elements in Hx as [Hsep Hsub]. split; [done |].
    apply Forall_forall. intros c' Hc'. apply Hsub in Hc'.
    by apply (proj1 (Forall_forall _ _) Hdot).
  - by exists rest.
Qed.

(** The fields of a tile URL. *)
Lemma parsed_url_fields_witness :
  all not_slash_question (authority Fixture.raster_tile_object)
  ∧ (∃ t, path Fixture.raster_tile_object = js "/" ++ t ∧ all not_question t)
  ∧ (∀ x, x ∈ params Fixture.raster_tile_object → (ch "&" ∉ x) ∧ all dot x).
Proof.
  destruct (parsed_url_fields Fixture.raster_tile Fixture.raster_tile_object)
    as (_ & _ & Hauthority & Hpath & Hparams & _); [reflexivity |].
  by split_and!.
Defined.

Lemma join_all (P : N → bool) (sep : N) (l : list jsstring) :
  P sep = true → (∀ x, x ∈ l → all P x) → all P (join [sep] l).
Proof.
  intros Hsep. induction l as [|x l IH]; intros Hl; [constructor |].
  destruct l as [|y l]; [apply Hl, list_elem_of_here |].
  change (join [sep] (x :: y :: l)) with (x ++ sep :: join [sep] (y :: l)).
  apply Forall_app. split; [apply Hl, list_elem_of_here |].
  constructor; [done |]. apply IH. intros z Hz. apply Hl. by apply list_elem_of_further.
Qed.

Lemma join_nil (sep : N) (l : list jsstring) :
  join [sep] l = [] → l = [] ∨ l = [[]].
Proof.
  destruct l as [|x [|y l]]; [by left | |].
  - simpl. intros ->. by right.
  - change (join [sep] (x :: y :: l)) with (x ++ sep :: join [sep] (y :: l)).
    by intros [_ ?]%app_eq_nil.
Qed.

(** X14: the other round trip.  An object with a non-empty protocol of word
    characters, an authority without [/] and [?], a path with at least one
    character after its leading [/] and without [?], and parameters without
    [&] and line terminators that are not just the empty string, is what
    [parseUrl] makes of its formatted text. *)
Theorem format_then_parse (o : UrlObject) (t : jsstring) :
  protocol o ≠ [] → all is_word (protocol o) →
  all not_slash_question (authority o) →
  path o = js "/" ++ t → t ≠ [] → all not_question t →
  (∀ x, x ∈ params o → (ch "&" ∉ x) ∧ all dot x) →
  params o ≠ [[]] →
  parseUrl (formatUrl o) = Ok o.
Proof.
  destruct o as [pr au pa ps]. cbn [protocol authority path params].
  intros Hne Hw Ha -> Ht Hnq Hps Hblank.
  set (query := match ps with [] => None | _ :: _ => Some (join (js "&") ps) end).
  assert (Hfmt : formatUrl {| protocol := pr; authority := au; path := js "/" ++ t;
                              params := ps |} = locator pr au t query).
  { unfold formatUrl, locator, query. cbn [protocol authority path params].
    destruct ps; by rewrite <- ?app_assoc. }
  rewrite Hfmt, parse_well_formed; try done.
  - do 2 f_equal. unfold query. destruct ps as [|x ps]; [done |].
    apply (split_join (ch "&")); [done |]. intros y Hy. by apply Hps.
  - unfold query. intros q Hq. destruct ps as [|x ps]; [done |]. injection Hq as <-.
    split.
    + intros Hnil. by apply (join_nil (ch "&") (x :: ps)) in Hnil as [Hnil | Hnil].
    + apply (join_all dot (ch "&") (x :: ps)); [done |]. intros y Hy. by apply Hps.
Qed.

(** The object of a tile URL, formatted and parsed again. *)
Lemma format_then_parse_witness :
  parseUrl (formatUrl Fixture.raster_tile_object) = Ok Fixture.raster_tile_object.
Proof.
  apply (format_then_parse Fixture.raster_tile_object (js "v4/a/1/2/3.png"));
    [discriminate | by repeat constructor | by repeat constructor | reflexivity
    | discriminate | by repeat constructor | | discriminate].
  intros x ->%list_elem_of_singleton.
  split; [| by repeat constructor].
  rewrite list_elem_of_In. vm_compute. intuition discriminate.
Defined.

(** A locator without a path and without a query. *)
Lemma parse_origin (scheme auth : jsstring) :
  scheme ≠ [] → all is_word scheme → all not_slash_question auth →
  parseUrl (scheme ++ js "://" ++ auth)
  = Ok {| protocol := scheme; authority := auth; path := js "/"; params := [] |}.
Proof.
  intros Hs Hw Ha.
  replace (scheme ++ js "://" ++ auth) with (scheme ++ js "://" ++ auth ++ [])
    by (by rewrite app_nil_r).
  unfold parseUrl, exec.
  destruct scheme as [|c cs]; [done |]. apply Forall_cons in Hw as [Hc Hcs].
  erewrite exec_from_here; cycle 1.
  { unfold urlRe, body, ignoreCase, groups.
    apply rmatch_cat, rmatch_bos, rmatch_cat, rmatch_grp.
    eapply (rmatch_plus _ _ _ _ _ c cs); [done | done | done | reflexivity |].
    cbv beta.
    do 3 (apply rmatch_cat, rmatch_chr; [done |]).
    apply rmatch_cat, rmatch_grp.
    eapply (rmatch_star _ _ _ _ _ auth []); [done | done | reflexivity |].
    cbv beta.
    do 3 (apply rmatch_cat, rmatch_opt_skipped; [done |]).
    apply rmatch_cat_nil. reflexivity. }
  unfold part; cbn [parts].
  rewrite (take_prefix (1 + length cs - 0) _ (c :: cs) _ eq_refl) by (simpl; lia).
  rewrite (take_prefix _ (auth ++ []) auth [] eq_refl) by lia.
  done.
Qed.
(** ** What the wrappers return *)

(** [makeAPIURL] under an API URL that is an origin, possibly followed by a
    path, a required token and a token that is accepted. *)
Lemma makeAPIURL_under_api (config : Config) (scheme host base tok : jsstring)
    (urlObject : UrlObject) (accessToken : option jsstring) :
  API_URL config = scheme ++ js "://" ++ host ++ base →
  scheme ≠ [] → all is_word scheme → all not_slash_question host →
  base = [] ∨ (∃ b, base = js "/" ++ b ∧ b ≠ [] ∧ all not_question b) →
  REQUIRE_ACCESS_TOKEN config = true →
  (if truthy_str accessToken then accessToken else ACCESS_TOKEN config) = Some tok →
  tok ≠ [] → first_is_s tok = false →
  makeAPIURL config urlObject accessToken
  = Ok (API_URL config ++ path urlObject ++ js "?"
        ++ join (js "&") (params urlObject ++ [js "access_token=" ++ tok])).
Proof.
  intros Hapi Hs Hw Hh Hbase Hreq Htok Hne Hsec. unfold makeAPIURL.
  assert (Ht : truthy_str (Some tok) = true) by (by destruct tok).
  assert (Hparams : (match params urlObject ++ [js "access_token=" ++ tok] with
                     | [] => []
                     | _ :: _ => js "?" ++ join (js "&")
                                   (params urlObject ++ [js "access_token=" ++ tok])
                     end : jsstring)
                    = js "?" ++ join (js "&")
                                  (params urlObject ++ [js "access_token=" ++ tok])).
  { destruct (params urlObject ++ [js "access_token=" ++ tok]) eqn:Hp; [| done].
    by apply app_eq_nil in Hp as [_ ?]. }
  destruct Hbase as [-> | (b & -> & Hb & Hnq)].
  - rewrite app_nil_r in Hapi.
    rewrite Hapi, parse_origin, Hreq, Htok by done.
    cbn [negb path protocol authority or_empty].
    rewrite Ht, Hsec. cbn [negb]. rewrite bool_decide_eq_false_2 by (by intros []).
    unfold formatUrl, push_param, with_params. cbn [protocol authority path params].
    rewrite Hparams. by rewrite <- !app_assoc.
  - assert (Hparse : parseUrl (API_URL config)
                     = Ok {| protocol := scheme; authority := host; path := js "/" ++ b;
                             params := [] |}).
    { rewrite Hapi, <- (parse_well_formed scheme host b None); try done.
      unfold locator. by rewrite app_nil_r. }
    rewrite Hparse, Hreq, Htok. cbn [negb path protocol authority or_empty].
    rewrite Ht, Hsec. cbn [negb].
    rewrite bool_decide_eq_true_2.
    2:{ intros Heq. by apply (app_inv_head (js "/") b []) in Heq. }
    unfold formatUrl, push_param, with_params. cbn [protocol authority path params].
    rewrite Hparams, Hapi. by rewrite <- !app_assoc.
Qed.

(** X15: where first-party URLs go.  With an API URL that is an origin
    (scheme and host), possibly followed by a path, a required token and a
    public token in effect, a style, glyphs or sprite URL [mapbox://a/p] is
    rewritten to the API URL followed by the prefix of the resource, the path
    [p] (and, for a sprite, [/sprite], the format and the extension) and the
    token; the authority [a] is not kept.  A source URL [mapbox://a] is
    rewritten to the API URL followed by [/v4/a.json?secure] and the token. *)
Theorem first_party_urls_go_to_the_api (config : Config)
    (scheme host base tok a p : jsstring) (format extension : jsstring)
    (accessToken : option jsstring) :
  API_URL config = scheme ++ js "://" ++ host ++ base →
  scheme ≠ [] → all is_word scheme → all not_slash_question host →
  base = [] ∨ (∃ b, base = js "/" ++ b ∧ b ≠ [] ∧ all not_question b) →
  REQUIRE_ACCESS_TOKEN config = true →
  (if truthy_str accessToken then accessToken else ACCESS_TOKEN config) = Some tok →
  tok ≠ [] → first_is_s tok = false →
  all not_slash_question a → p ≠ [] → all not_question p →
  normalizeStyleURL config (js "mapbox://" ++ a ++ js "/" ++ p) accessToken
  = Ok (API_URL config ++ js "/styles/v1/" ++ p ++ js "?access_token=" ++ tok)
  ∧ normalizeGlyphsURL config (js "mapbox://" ++ a ++ js "/" ++ p) accessToken
    = Ok (API_URL config ++ js "/fonts/v1/" ++ p ++ js "?access_token=" ++ tok)
  ∧ normalizeSpriteURL config (js "mapbox://" ++ a ++ js "/" ++ p) format extension
      accessToken
    = Ok (API_URL config ++ js "/styles/v1/" ++ p ++ js "/sprite" ++ format ++ extension
          ++ js "?access_token=" ++ tok)
  ∧ normalizeSourceURL config (js "mapbox://" ++ a) accessToken
    = Ok (API_URL config ++ js "/v4/" ++ a ++ js ".json?secure&access_token=" ++ tok).
Proof.
  intros Hapi Hs Hw Hh Hbase Hreq Htok Hne Hsec Ha Hp Hnq.
  assert (Hfirst : ∀ rest, isMapboxURL (js "mapbox://" ++ rest) = true).
  { intros rest. apply isMapboxURL_prefix. by exists (js "//" ++ rest). }
  assert (Hparse : parseUrl (js "mapbox://" ++ a ++ js "/" ++ p)
                   = Ok {| protocol := js "mapbox"; authority := a; path := js "/" ++ p;
                           params := [] |}).
  { rewrite <- (parse_well_formed (js "mapbox") a p None); try done.
    - unfold locator. by rewrite app_nil_r.
    - repeat constructor. }
  assert (Hsource : parseUrl (js "mapbox://" ++ a)
                    = Ok {| protocol := js "mapbox"; authority := a; path := js "/";
                            params := [] |}).
  { rewrite <- (parse_origin (js "mapbox") a); try done. repeat constructor. }
  unfold normalizeStyleURL, normalizeGlyphsURL, normalizeSpriteURL, normalizeSourceURL.
  rewrite !Hfirst, Hparse, Hsource. cbn [negb].
  rewrite !(makeAPIURL_under_api config scheme host base tok) by done.
  cbn [path params with_path push_param with_params authority app join].
  split_and!; by rewrite <- ?app_assoc.
Qed.

(** A style, its glyphs, its sprite and a source under the sample
    configuration. *)
Lemma first_party_urls_go_to_the_api_witness :
  normalizeStyleURL Sample.config (js "mapbox://styles/user/style") None
  = Ok (js "https://api.mapbox.com/styles/v1/user/style?access_token=pk.key")
  ∧ normalizeGlyphsURL Sample.config (js "mapbox://fonts/user/{fontstack}/{range}.pbf") None
    = Ok (js "https://api.mapbox.com/fonts/v1/user/{fontstack}/{range}.pbf?access_token=pk.key")
  ∧ normalizeSpriteURL Sample.config (js "mapbox://sprites/user/style") (js "@2x")
      (js ".png") None
    = Ok (js "https://api.mapbox.com/styles/v1/user/style/sprite@2x.png?access_token=pk.key")
  ∧ normalizeSourceURL Sample.config (js "mapbox://mapbox.streets") None
    = Ok (js "https://api.mapbox.com/v4/mapbox.streets.json?secure&access_token=pk.key").
Proof.
  assert (Hword : all is_word (js "https")) by (by repeat constructor).
  assert (Hhost : all not_slash_question (js "api.mapbox.com")) by (by repeat constructor).
  destruct (first_party_urls_go_to_the_api Sample.config (js "https") (js "api.mapbox.com")
              [] (js "pk.key") (js "styles") (js "user/style") (js "@2x") (js ".png") None)
    as (Hstyle & _);
    [reflexivity | discriminate | done | done | by left | reflexivity | reflexivity
    | discriminate | reflexivity | by repeat constructor | discriminate
    | by repeat constructor |].
  destruct (first_party_urls_go_to_the_api Sample.config (js "https") (js "api.mapbox.com")
              [] (js "pk.key") (js "fonts") (js "user/{fontstack}/{range}.pbf") (js "@2x")
              (js ".png") None)
    as (_ & Hglyphs & _);
    [reflexivity | discriminate | done | done | by left | reflexivity | reflexivity
    | discriminate | reflexivity | by repeat constructor | discriminate
    | by repeat constructor |].
  destruct (first_party_urls_go_to_the_api Sample.config (js "https") (js "api.mapbox.com")
              [] (js "pk.key") (js "sprites") (js "user/style") (js "@2x") (js ".png") None)
    as (_ & _ & Hsprite & _);
    [reflexivity | discriminate | done | done | by left | reflexivity | reflexivity
    | discriminate | reflexivity | by repeat constructor | discriminate
    | by repeat constructor |].
  destruct (first_party_urls_go_to_the_api Sample.config (js "https") (js "api.mapbox.com")
              [] (js "pk.key") (js "mapbox.streets") (js "x") (js "@2x") (js ".png") None)
    as (_ & _ & _ & Hsource);
    [reflexivity | discriminate | done | done | by left | reflexivity | reflexivity
    | discriminate | reflexivity | by repeat constructor | discriminate
    | by repeat constructor |].
  split_and!; [exact Hstyle | exact Hglyphs | exact Hsprite | exact Hsource].
Defined.

(** The scheme of a text is the run of word characters before its first
    [:]. *)
Lemma word_run_unique (a b ra rb : jsstring) :
  all is_word a → all is_word b →
  a ++ ch ":" :: ra = b ++ ch ":" :: rb → a = b ∧ ra = rb.
Proof.
  intros Ha. revert b. induction Ha as [|x a Hx Ha IH]; intros b Hb Heq.
  - destruct Hb as [|y b Hy Hb]; [by injection Heq as -> |].
    injection Heq as <- _. done.
  - destruct Hb as [|y b Hy Hb].
    + injection Heq as -> _. done.
    + injection Heq as -> Heq. apply IH in Heq as [-> ->]; done.
Qed.

(** X16: a first-party URL must go on with [//].  A style, glyphs, source
    or sprite URL that starts with [mapbox:] but not with [mapbox://] is
    refused with the error of the unparsable URL, whatever the tokens and
    the API URL are: the URL is parsed before either is looked at. *)
Theorem first_party_url_needs_slashes (config : Config) (url format extension : jsstring)
    (accessToken : option jsstring) :
  js "mapbox:" `prefix_of` url → ¬ js "mapbox://" `prefix_of` url →
  normalizeStyleURL config url accessToken = Throw UnableToParseURL
  ∧ normalizeGlyphsURL config url accessToken = Throw UnableToParseURL
  ∧ normalizeSourceURL config url accessToken = Throw UnableToParseURL
  ∧ normalizeSpriteURL config url format extension accessToken = Throw UnableToParseURL.
Proof.
  intros Hfirst Hno.
  assert (Hparse : parseUrl url = Throw UnableToParseURL).
  { destruct (parseUrl url) as [o|e] eqn:Ho; [| by apply parseUrl_only_error in Ho as ->].
    destruct Hno. apply parseUrl_ok_scheme in Ho as (scheme & rest & _ & Hw & ->).
    destruct Hfirst as [k Hk].
    apply (word_run_unique scheme (js "mapbox") (js "//" ++ rest) k) in Hk
      as [-> <-]; [by exists rest | done | by repeat constructor]. }
  apply isMapboxURL_prefix in Hfirst.
  unfold normalizeStyleURL, normalizeGlyphsURL, normalizeSourceURL, normalizeSpriteURL.
  by rewrite Hfirst, Hparse.
Qed.

(** A style URL without the two slashes. *)
Lemma first_party_url_needs_slashes_witness :
  normalizeStyleURL Sample.config (js "mapbox:styles/user/style") None
  = Throw UnableToParseURL.
Proof.
  destruct (first_party_url_needs_slashes Sample.config (js "mapbox:styles/user/style")
              (js "@2x") (js ".png") None) as (Hstyle & _).
  - by exists (js "styles/user/style").
  - intros [k Hk]. discriminate Hk.
  - exact Hstyle.
Defined.
(** ** The extension of a tile path *)

Lemma rmatch_alt_l r1 r2 k pos s caps r :
  rmatch false r1 k pos s caps = Some r → rmatch false (Alt r1 r2) k pos s caps = Some r.
Proof. intros Hr. simpl. by rewrite Hr. Qed.

Lemma rmatch_alt_r r1 r2 k pos s caps r :
  rmatch false r1 k pos s caps = None → rmatch false r2 k pos s caps = Some r →
  rmatch false (Alt r1 r2) k pos s caps = Some r.
Proof. intros Hn Hr. simpl. by rewrite Hn. Qed.

(** The pattern matches an extension that reaches the end of the text, and
    captures it. *)
Lemma image_match (pos : nat) (kind digits : jsstring) :
  kind = js "png" ∨ kind = js "jpg" → all is_digit digits →
  rmatch false (body imageExtensionRe) accept pos (js "." ++ kind ++ digits)
    (replicate 3 None)
  = Some ((pos + (4 + length digits))%nat,
          [None; Some (js "." ++ kind ++ digits); Some kind]).
Proof.
  intros Hkind Hd.
  assert (Htake : ∀ c1 c2 c3 c4 : N,
             take (pos + (4 + length digits) - pos) (c1 :: c2 :: c3 :: c4 :: digits)
             = c1 :: c2 :: c3 :: c4 :: digits).
  { intros. apply take_ge. simpl. lia. }
  assert (Hstar : ∀ k caps r,
             k (pos + (4 + length digits))%nat [] caps = Some r →
             rmatch false (cat [Star is_digit]) k (S (S (S (S pos)))) digits caps = Some r).
  { intros k caps r Hk. apply rmatch_cat. rewrite <- (app_nil_r digits).
    apply (rmatch_star false is_digit _ _ (pos + (4 + length digits))); [done | done | lia |].
    by apply rmatch_cat_nil. }
  unfold imageExtensionRe, body.
  destruct Hkind as [-> | ->].
  - change (js "." ++ js "png" ++ digits)
      with (ch "." :: ch "p" :: ch "n" :: ch "g" :: digits).
    apply rmatch_cat, rmatch_grp, rmatch_cat, rmatch_chr; [done |].
    apply rmatch_cat, rmatch_grp, rmatch_alt_l.
    change (lit "png") with (cat [Chr (ch "p"); Chr (ch "n"); Chr (ch "g")]).
    apply rmatch_cat, rmatch_chr; [done |].
    apply rmatch_cat, rmatch_chr; [done |].
    apply rmatch_cat, rmatch_chr; [done |].
    apply rmatch_cat_nil. cbv beta. apply Hstar.
    cbn [rmatch cat foldr accept]. rewrite Htake.
    by replace (S (S (S (S pos))) - S pos)%nat with 3%nat by lia.
  - change (js "." ++ js "jpg" ++ digits)
      with (ch "." :: ch "j" :: ch "p" :: ch "g" :: digits).
    apply rmatch_cat, rmatch_grp, rmatch_cat, rmatch_chr; [done |].
    apply rmatch_cat, rmatch_grp, rmatch_alt_r; [done |].
    change (lit "jpg") with (cat [Chr (ch "j"); Chr (ch "p"); Chr (ch "g")]).
    apply rmatch_cat, rmatch_chr; [done |].
    apply rmatch_cat, rmatch_chr; [done |].
    apply rmatch_cat, rmatch_chr; [done |].
    apply rmatch_cat_nil. cbv beta. apply Hstar.
    cbn [rmatch cat foldr accept]. rewrite Htake.
    by replace (S (S (S (S pos))) - S pos)%nat with 3%nat by lia.
Qed.

Lemma chr_eq_exact (c x : N) : chr_eq false c x = true → x = c.
Proof. unfold chr_eq. by intros ->%N.eqb_eq. Qed.

(** Where the pattern matches, the text from there on is such an
    extension. *)
Lemma image_match_inv (pos : nat) (s : jsstring) (caps : captures) r :
  rmatch false (body imageExtensionRe) accept pos s caps = Some r → image_extension s.
Proof.
  unfold imageExtensionRe, body. intros Hm.
  apply rmatch_cat_inv, rmatch_grp_inv, rmatch_cat_inv, rmatch_chr_inv in Hm
    as (x & s1 & -> & ->%chr_eq_exact & Hm).
  apply rmatch_cat_inv, rmatch_grp_inv, rmatch_alt_inv in Hm.
  destruct Hm as [Hm | Hm].
  - change (lit "png") with (cat [Chr (ch "p"); Chr (ch "n"); Chr (ch "g")]) in Hm.
    apply rmatch_cat_inv, rmatch_chr_inv in Hm as (? & s2 & -> & ->%chr_eq_exact & Hm).
    apply rmatch_cat_inv, rmatch_chr_inv in Hm as (? & s3 & -> & ->%chr_eq_exact & Hm).
    apply rmatch_cat_inv, rmatch_chr_inv in Hm as (? & s4 & -> & ->%chr_eq_exact & Hm).
    cbn [cat foldr rmatch] in Hm.
    apply star_m_inv in Hm as (xs & rest & -> & Hall & Hk).
    destruct rest; [| done]. rewrite app_nil_r.
    exists (js "png"), xs. by split_and!; [left | |].
  - change (lit "jpg") with (cat [Chr (ch "j"); Chr (ch "p"); Chr (ch "g")]) in Hm.
    apply rmatch_cat_inv, rmatch_chr_inv in Hm as (? & s2 & -> & ->%chr_eq_exact & Hm).
    apply rmatch_cat_inv, rmatch_chr_inv in Hm as (? & s3 & -> & ->%chr_eq_exact & Hm).
    apply rmatch_cat_inv, rmatch_chr_inv in Hm as (? & s4 & -> & ->%chr_eq_exact & Hm).
    cbn [cat foldr rmatch] in Hm.
    apply star_m_inv in Hm as (xs & rest & -> & Hall & Hk).
    destruct rest; [| done]. rewrite app_nil_r.
    exists (js "jpg"), xs. by split_and!; [right | |].
Qed.

(** An extension has its only [.] in front. *)
Lemma image_extension_tail (c : N) (t : jsstring) :
  image_extension (c :: t) → ch "." ∉ t.
Proof.
  intros (kind & digits & Hkind & Hd & Heq).
  assert (Hdot : ch "." ∉ digits).
  { intros Hin. by apply (proj1 (Forall_forall _ _) Hd) in Hin. }
  destruct Hkind as [-> | ->]; injection Heq as -> ->;
    rewrite !not_elem_of_cons; by split_and!.
Qed.

Lemma image_extension_unique (stem ext : jsstring) :
  image_extension ext → image_extension (stem ++ ext) → stem = [].
Proof.
  intros (kind & digits & _ & _ & ->) Hwhole.
  destruct stem as [|c stem]; [done |].
  apply image_extension_tail in Hwhole. destruct Hwhole.
  apply elem_of_app. right. apply list_elem_of_here.
Qed.

(** [exec] on a text that ends with an extension: the match is the
    extension. *)
Lemma exec_from_image (pos : nat) (stem kind digits : jsstring) :
  kind = js "png" ∨ kind = js "jpg" → all is_digit digits →
  exec_from imageExtensionRe pos (stem ++ js "." ++ kind ++ digits)
  = Some {| index := pos + length stem;
            lastIndex := pos + length stem + (4 + length digits);
            parts := [Some (js "." ++ kind ++ digits); Some (js "." ++ kind ++ digits);
                      Some kind] |}.
Proof.
  intros Hkind Hd. revert pos. induction stem as [|c stem IH]; intros pos.
  - rewrite app_nil_l.
    rewrite (exec_from_here imageExtensionRe pos _ _ _ (image_match pos kind digits Hkind Hd)).
    cbn [length]. rewrite Nat.add_0_r. f_equal. f_equal.
    cbn [insert list_insert]. do 2 f_equal. apply take_ge.
    destruct Hkind as [-> | ->]; simpl; lia.
  - cbn [app exec_from]. fold accept.
    destruct (rmatch _ _ accept pos (c :: _) _) as [r|] eqn:Hr.
    + apply image_match_inv in Hr.
      apply (image_extension_unique (c :: stem)) in Hr; [done |].
      by exists kind, digits.
    + rewrite IH. cbn [length]. do 2 f_equal; lia.
Qed.

(** [exec] on a text that does not end with an extension. *)
Lemma exec_no_image (s : jsstring) :
  ¬ has_image_extension s → exec imageExtensionRe s = None.
Proof.
  intros Hno. apply exec_from_none. intros j _.
  destruct (rmatch _ _ accept _ (drop j s) _) as [r|] eqn:Hr; [| done].
  apply image_match_inv in Hr. destruct Hno.
  exists (take j s), (drop j s). by rewrite take_drop.
Qed.

(** The pattern finds an extension at the end of a text. *)
Lemma test_image_extension (s : jsstring) :
  has_image_extension s → test imageExtensionRe s = true.
Proof.
  intros (stem & ext & -> & kind & digits & Hkind & Hd & ->).
  unfold test, exec. by rewrite exec_from_image.
Qed.

(** The two replacement texts of the tile wrapper with a suffix in front. *)
Lemma replace_image_extension (stem kind digits : jsstring) (hi webp : bool) :
  kind = js "png" ∨ kind = js "jpg" → all is_digit digits →
  replace_re (stem ++ js "." ++ kind ++ digits) imageExtensionRe
    ((if hi then js "@2x" else []) ++ (if webp then js ".webp" else js "$1"))
  = stem ++ (if hi then js "@2x" else [])
    ++ (if webp then js ".webp" else js "." ++ kind ++ digits).
Proof.
  intros Hkind Hd. unfold replace_re, exec.
  rewrite exec_from_image by done. cbn [index lastIndex plus].
  rewrite take_app_length. f_equal.
  rewrite drop_ge.
  2:{ rewrite !length_app. destruct Hkind as [-> | ->]; simpl; lia. }
  rewrite app_nil_r.
  destruct hi, webp; try reflexivity.
  - change (getSubstitution _ _)
      with (js "@2x" ++ (js "." ++ kind ++ digits) ++ []).
    by rewrite app_nil_r.
  - change (getSubstitution _ _) with ((js "." ++ kind ++ digits) ++ []).
    by rewrite app_nil_r.
Qed.

Lemma replace_no_image_extension (s template : jsstring) :
  ¬ has_image_extension s → replace_re s imageExtensionRe template = s.
Proof. intros Hno. unfold replace_re. by rewrite exec_no_image. Qed.

(** X17: the extension of a tile.  For a tile of a first-party source
    whose URL parses, a path that ends with [.png] or [.jpg] and digits is
    rewritten at that extension and nowhere else: [@2x] is put in front of
    it when the device pixel ratio is at least 2 or the tile size is 512, and
    the extension is replaced by [.webp] when the browser supports it and
    kept otherwise. *)
Theorem tile_extension_is_rewritten (config : Config) (browser : Browser)
    (tileURL sourceURL : jsstring) (tileSize : option Z) (o : UrlObject)
    (stem kind digits : jsstring) :
  js "mapbox:" `prefix_of` sourceURL → parseUrl tileURL = Ok o →
  path o = stem ++ js "." ++ kind ++ digits →
  kind = js "png" ∨ kind = js "jpg" → all is_digit digits →
  normalizeTileURL config browser tileURL (Some sourceURL) tileSize
  = Ok (formatUrl
          {| protocol := protocol o; authority := authority o;
             path := stem
                     ++ (if Qle_bool 2 (devicePixelRatio browser)
                            || bool_decide (tileSize = Some 512)
                         then js "@2x" else [])
                     ++ (if supportsWebp browser then js ".webp"
                         else js "." ++ kind ++ digits);
             params := replaced_param config <$> params o |}).
Proof.
  intros Hs Ho Hpath Hkind Hd. unfold normalizeTileURL.
  assert (Ht : truthy_str (Some sourceURL) = true) by (by destruct Hs as [k ->]).
  apply isMapboxURL_prefix in Hs. rewrite Ht. cbn [or_empty]. rewrite Hs, Ho.
  cbn [negb orb]. rewrite Hpath, replace_image_extension by done.
  by rewrite replaceTempAccessToken_map.
Qed.

(** A raster tile on a device of pixel ratio 2 without support of
    [.webp]. *)
Lemma tile_extension_is_rewritten_witness :
  normalizeTileURL Sample.config Fixture.hidpi Fixture.raster_tile
    (Some (js "mapbox://mapbox.streets")) None
  = Ok (js "http://a.tiles.mapbox.com/v4/a/1/2/3@2x.png?access_token=pk.key").
Proof.
  apply (tile_extension_is_rewritten Sample.config Fixture.hidpi Fixture.raster_tile
           (js "mapbox://mapbox.streets") None Fixture.raster_tile_object
           (js "/v4/a/1/2/3") (js "png") []).
  - by exists (js "//mapbox.streets").
  - reflexivity.
  - reflexivity.
  - by left.
  - constructor.
Defined.

(** X18: a tile path without such an extension.  For a tile of a
    first-party source whose URL parses, a path that does not end with
    [.png] or [.jpg] and digits is kept as it is, whatever the pixel ratio,
    the tile size and the support of [.webp]: only the temporary tokens of
    the parameters are replaced. *)
Theorem tile_without_extension_keeps_path (config : Config) (browser : Browser)
    (tileURL sourceURL : jsstring) (tileSize : option Z) (o : UrlObject) :
  js "mapbox:" `prefix_of` sourceURL → parseUrl tileURL = Ok o →
  ¬ has_image_extension (path o) →
  normalizeTileURL config browser tileURL (Some sourceURL) tileSize
  = Ok (formatUrl (with_params (replaced_param config <$> params o) o)).
Proof.
  intros Hs Ho Hno. unfold normalizeTileURL.
  assert (Ht : truthy_str (Some sourceURL) = true) by (by destruct Hs as [k ->]).
  apply isMapboxURL_prefix in Hs. rewrite Ht. cbn [or_empty]. rewrite Hs, Ho.
  cbn [negb orb]. rewrite replace_no_image_extension by done.
  rewrite replaceTempAccessToken_map. by destruct o.
Qed.

(** A vector tile on the same device. *)
Lemma tile_without_extension_keeps_path_witness :
  normalizeTileURL Sample.config Fixture.hidpi Fixture.vector_tile
    (Some (js "mapbox://mapbox.streets")) None
  = Ok (js "http://a.tiles.mapbox.com/v4/a/1/2/3.vector.pbf?access_token=pk.key").
Proof.
  apply (tile_without_extension_keeps_path Sample.config Fixture.hidpi Fixture.vector_tile
           (js "mapbox://mapbox.streets") None Fixture.vector_tile_object).
  - by exists (js "//mapbox.streets").
  - reflexivity.
  - intros Hext%test_image_extension. vm_compute in Hext. discriminate.
Defined.
(** ** The matcher against the texts of a pattern *)

(** A match of the matcher is a match of the pattern. *)
Lemma rmatch_sound ic r :
  ∀ k pos s caps res,
    rmatch ic r k pos s caps = Some res →
    ∃ xs rest caps', s = xs ++ rest ∧ matches_at ic r pos xs rest
                     ∧ k (pos + length xs)%nat rest caps' = Some res.
Proof.
  induction r as [|c|p| | |r1 IH1 r2 IH2|r1 IH1 r2 IH2|r1 IH1|p|p|i r1 IH1|r1 IH1];
    intros k pos s caps res Hm; cbn [rmatch] in Hm.
  - exists [], s, caps. by rewrite Nat.add_0_r.
  - destruct s as [|x s]; [done |]. destruct (chr_eq ic c x) eqn:Hc; [| done].
    exists [x], s, caps. rewrite Nat.add_1_r. split_and!; [done | by exists x | done].
  - destruct s as [|x s]; [done |]. destruct (p x) eqn:Hp; [| done].
    exists [x], s, caps. rewrite Nat.add_1_r. split_and!; [done | by exists x | done].
  - destruct (Nat.eqb_spec pos 0) as [-> |]; [| done]. by exists [], s, caps.
  - destruct s; [| done]. exists [], [], caps. by rewrite Nat.add_0_r.
  - apply IH1 in Hm as (xs1 & rest1 & caps1 & -> & H1 & Hm).
    apply IH2 in Hm as (xs2 & rest & caps2 & -> & H2 & Hk).
    exists (xs1 ++ xs2), rest, caps2.
    rewrite length_app, Nat.add_assoc, <- app_assoc.
    split_and!; [done | by exists xs1, xs2 | done].
  - destruct (rmatch ic r1 k pos s caps) as [x|] eqn:E.
    + injection Hm as ->. apply IH1 in E as (xs & rest & caps' & -> & H1 & Hk).
      exists xs, rest, caps'. split_and!; [done | by left | done].
    + apply IH2 in Hm as (xs & rest & caps' & -> & H2 & Hk).
      exists xs, rest, caps'. split_and!; [done | by right | done].
  - destruct (rmatch ic r1 k pos s caps) as [x|] eqn:E.
    + injection Hm as ->. apply IH1 in E as (xs & rest & caps' & -> & H1 & Hk).
      exists xs, rest, caps'. split_and!; [done | by left | done].
    + exists [], s, caps. rewrite Nat.add_0_r. split_and!; [done | by right | done].
  - apply star_m_inv in Hm as (xs & rest & -> & Hall & Hk). by exists xs, rest, caps.
  - apply (rmatch_plus_inv ic p k pos s caps res) in Hm
      as (x & xs & rest & -> & Hx & Hall & Hk).
    exists (x :: xs), rest, caps.
    replace (pos + length (x :: xs))%nat with (S pos + length xs)%nat by (simpl; lia).
    split_and!; [done | | done].
    split; [done | by constructor].
  - apply IH1 in Hm as (xs & rest & caps' & -> & H1 & Hk). by eexists xs, rest, _.
  - destruct (rmatch ic r1 _ pos s caps) as [[e caps1]|] eqn:E; [| done].
    apply IH1 in E as (ys & zs & caps' & -> & H1 & _).
    exists [], (ys ++ zs), caps1. rewrite Nat.add_0_r.
    split_and!; [done | | done]. split; [done | by exists ys, zs].
Qed.

(** The matcher finds a match whenever the pattern has one after which the
    rest of the pattern succeeds: what it tries first may fail, it comes
    back. *)
Lemma rmatch_complete ic r :
  ∀ k pos xs rest,
    matches_at ic r pos xs rest →
    (∀ caps, is_Some (k (pos + length xs)%nat rest caps)) →
    ∀ caps, is_Some (rmatch ic r k pos (xs ++ rest) caps).
Proof.
  induction r as [|c|p| | |r1 IH1 r2 IH2|r1 IH1 r2 IH2|r1 IH1|p|p|i r1 IH1|r1 IH1];
    intros k pos xs rest Hr Hk caps; cbn [matches_at] in Hr; cbn [rmatch].
  - subst xs. rewrite Nat.add_0_r in Hk. apply Hk.
  - destruct Hr as (x & -> & Hc). rewrite Nat.add_1_r in Hk. simpl. rewrite Hc. apply Hk.
  - destruct Hr as (x & -> & Hp). rewrite Nat.add_1_r in Hk. simpl. rewrite Hp. apply Hk.
  - destruct Hr as [-> ->]. apply Hk.
  - destruct Hr as [-> ->]. rewrite Nat.add_0_r in Hk. apply Hk.
  - destruct Hr as (xs1 & xs2 & -> & H1 & H2). rewrite <- app_assoc.
    apply IH1; [done |]. intros caps1. apply IH2; [done |]. intros caps2.
    rewrite length_app, Nat.add_assoc in Hk. apply Hk.
  - destruct Hr as [H1 | H2].
    + destruct (IH1 k pos xs rest H1 Hk caps) as [x ->]. done.
    + destruct (rmatch ic r1 k pos (xs ++ rest) caps); [done |]. by apply IH2.
  - destruct Hr as [H1 | ->].
    + destruct (IH1 k pos xs rest H1 Hk caps) as [x ->]. done.
    + destruct (rmatch ic r1 k pos ([] ++ rest) caps); [done |].
      rewrite Nat.add_0_r in Hk. apply Hk.
  - by apply star_m_some.
  - destruct Hr as [Hne Hall]. destruct xs as [|x xs]; [done |].
    apply Forall_cons in Hall as [Hx Hxs].
    apply (rmatch_plus_some ic); [done | done |].
    by replace (S pos + length xs)%nat with (pos + length (x :: xs))%nat by (simpl; lia).
  - apply IH1; [done |]. intros caps1. apply Hk.
  - destruct Hr as (-> & ys & zs & -> & H1).
    destruct (IH1 accept pos ys zs H1 (λ c, ltac:(done)) caps) as [[e caps1] E].
    unfold accept in E. rewrite app_nil_l, E. rewrite Nat.add_0_r in Hk. apply Hk.
Qed.

(** A match further on is found, unless there is one before. *)
Lemma exec_from_later (re : RegExp) (pre s : jsstring) (pos : nat) :
  is_Some (rmatch (ignoreCase re) (body re) accept (pos + length pre) s
             (replicate (S (groups re)) None)) →
  is_Some (exec_from re pos (pre ++ s)).
Proof.
  revert pos. induction pre as [|c pre IH]; intros pos Hm.
  - rewrite Nat.add_0_r in Hm. by apply exec_from_some.
  - cbn [app exec_from]. fold accept.
    destruct (rmatch _ _ accept pos (c :: pre ++ s) _) as [[e caps]|]; [done |].
    apply IH. by replace (S pos + length pre)%nat with (pos + length (c :: pre))%nat
      by (simpl; lia).
Qed.

(** [test] says whether some part of the text is a match of the pattern. *)
Lemma test_matches (re : RegExp) (s : jsstring) :
  test re s = true
  ↔ ∃ pre xs rest, s = pre ++ xs ++ rest
                   ∧ matches_at (ignoreCase re) (body re) (length pre) xs rest.
Proof.
  unfold test, exec. split.
  - destruct (exec_from re 0 s) as [m|] eqn:E; [intros _ | done].
    apply exec_from_inv in E as (i & e & caps & Hi & Hm & _ & _).
    apply rmatch_sound in Hm as (xs & rest & caps' & Hs & Hr & _).
    exists (take i s), xs, rest. rewrite <- Hs, take_drop. split; [done |].
    by rewrite length_take, Nat.min_l by lia.
  - intros (pre & xs & rest & -> & Hr).
    destruct (exec_from_later re pre (xs ++ rest) 0) as [m ->]; [| done].
    by apply rmatch_complete.
Qed.

(** ** The pattern of [isMapboxHTTPURL] *)

Lemma canon_symbol (c x : N) : (c < 65)%N → canon x = canon c → x = c.
Proof.
  unfold canon. intros Hc.
  destruct ((97 <=? x) && (x <=? 122))%N eqn:E1, ((97 <=? c) && (c <=? 122))%N eqn:E2;
    rewrite ?andb_true_iff, ?andb_false_iff, ?N.leb_le, ?N.leb_gt in *; lia.
Qed.

Lemma chr_eq_ci (c x : N) : chr_eq true c x = true ↔ canon x = canon c.
Proof. unfold chr_eq. rewrite N.eqb_eq. split; congruence. Qed.

Lemma same_ignoring_case_app (a b la lb : jsstring) :
  same_ignoring_case a la → same_ignoring_case b lb →
  same_ignoring_case (a ++ b) (la ++ lb).
Proof. unfold same_ignoring_case. intros Ha Hb. by rewrite !fmap_app, Ha, Hb. Qed.

Lemma same_ignoring_case_app_inv (xs la lb : jsstring) :
  same_ignoring_case xs (la ++ lb) →
  ∃ a b, xs = a ++ b ∧ same_ignoring_case a la ∧ same_ignoring_case b lb.
Proof.
  unfold same_ignoring_case. rewrite fmap_app.
  intros (a & b & Ha & Hb & ->)%fmap_app_inv. by exists a, b.
Qed.

Lemma same_ignoring_case_one (xs : jsstring) (c : N) :
  same_ignoring_case xs [c] ↔ ∃ x, xs = [x] ∧ canon x = canon c.
Proof.
  unfold same_ignoring_case. split.
  - intros (x & l & Hx & Hl & ->)%fmap_cons_inv.
    symmetry in Hl. apply fmap_nil_inv in Hl as ->. by exists x.
  - intros (x & -> & Hx). cbn. by rewrite Hx.
Qed.

(** Outside the letters the case does not matter. *)
Lemma same_ignoring_case_symbols (xs l : jsstring) :
  Forall (λ c, (c < 65)%N) l → same_ignoring_case xs l → xs = l.
Proof.
  unfold same_ignoring_case. intros Hl. revert xs.
  induction Hl as [|c l Hc Hl IH]; intros xs Hxs.
  - by apply fmap_nil_inv in Hxs.
  - rewrite fmap_cons in Hxs.
    apply fmap_cons_inv in Hxs as (x & xs' & Hx & Hxs' & ->).
    f_equal; [by apply canon_symbol | by apply IH].
Qed.

Lemma matches_cat_cons ic r rs pos xs rest :
  matches_at ic (cat (r :: rs)) pos xs rest
  ↔ ∃ xs1 xs2, xs = xs1 ++ xs2 ∧ matches_at ic r pos xs1 (xs2 ++ rest)
               ∧ matches_at ic (cat rs) (pos + length xs1) xs2 rest.
Proof. done. Qed.

Lemma matches_chr_ci c pos xs rest :
  matches_at true (Chr c) pos xs rest ↔ same_ignoring_case xs [c].
Proof.
  rewrite same_ignoring_case_one. cbn [matches_at].
  split; intros (x & -> & Hx); exists x; by rewrite chr_eq_ci in *.
Qed.

(** A literal under the [i] flag. *)
Lemma matches_chars_ci (l : jsstring) pos xs rest :
  matches_at true (cat (Chr <$> l)) pos xs rest ↔ same_ignoring_case xs l.
Proof.
  revert pos xs. induction l as [|c l IH]; intros pos xs.
  - cbn. unfold same_ignoring_case. split; [by intros -> |]. apply fmap_nil_inv.
  - rewrite fmap_cons, matches_cat_cons. split.
    + intros (a & b & -> & Ha%matches_chr_ci & Hb%IH).
      by apply (same_ignoring_case_app a b [c] l).
    + intros (a & b & -> & Ha & Hb)%(same_ignoring_case_app_inv xs [c] l).
      exists a, b. by rewrite matches_chr_ci, IH.
Qed.

Lemma matches_lit_ci (l : string) pos xs rest :
  matches_at true (lit l) pos xs rest ↔ same_ignoring_case xs (js l).
Proof. apply matches_chars_ci. Qed.

(** The optional scheme and the two slashes. *)
Lemma matches_scheme pos xs rest :
  matches_at true
    (Opt (Grp 1 (cat [Opt (Grp 2 (cat [lit "http"; Opt (Chr (ch "s")); Chr (ch ":")]));
                      Chr (ch "/"); Chr (ch "/")])))
    pos xs rest
  ↔ xs = [] ∨ xs = js "//" ∨ same_ignoring_case xs (js "http://")
    ∨ same_ignoring_case xs (js "https://").
Proof.
  assert (Hslashes : ∀ p t r, matches_at true (cat [Chr (ch "/"); Chr (ch "/")]) p t r
                              ↔ t = js "//").
  { intros p t r. change (cat [Chr (ch "/"); Chr (ch "/")]) with (cat (Chr <$> js "//")).
    rewrite matches_chars_ci. split; [| by intros ->].
    apply same_ignoring_case_symbols. by repeat constructor. }
  assert (Hcolon : ∀ p t r, matches_at true (cat [Chr (ch ":")]) p t r ↔ t = js ":").
  { intros p t r. change (cat [Chr (ch ":")]) with (cat (Chr <$> js ":")).
    rewrite matches_chars_ci. split; [| by intros ->].
    apply same_ignoring_case_symbols. by repeat constructor. }
  cbn [matches_at]. split.
  - intros [H | ->]; [| by left].
    apply matches_cat_cons in H as (a & b & -> & Ha & ->%Hslashes).
    destruct Ha as [Ha | ->]; [| by right; left].
    apply matches_cat_cons in Ha as (h & t & -> & Hh%matches_lit_ci & Ht).
    apply matches_cat_cons in Ht as (o & t' & -> & Ho & ->%Hcolon).
    destruct Ho as [Ho%matches_chr_ci | ->].
    + right; right; right. rewrite <- !app_assoc.
      apply (same_ignoring_case_app h _ (js "http") (js "s://")); [done |].
      by apply (same_ignoring_case_app o _ (js "s") (js "://")).
    + right; right; left. rewrite <- !app_assoc.
      by apply (same_ignoring_case_app h _ (js "http") (js "://")).
  - intros [-> | [-> | [H | H]]]; [by right | left ..].
    + apply matches_cat_cons. exists [], (js "//"). split_and!; [done | by right |].
      by apply Hslashes.
    + apply (same_ignoring_case_app_inv xs (js "http") (js "://")) in H
        as (h & t & -> & Hh & Ht).
      apply same_ignoring_case_symbols in Ht as ->; [| by repeat constructor].
      apply matches_cat_cons. exists (h ++ js ":"), (js "//").
      split_and!; [by rewrite <- app_assoc | | by apply Hslashes].
      left. apply matches_cat_cons. exists h, (js ":").
      split_and!; [done | by apply matches_lit_ci |].
      apply matches_cat_cons. exists [], (js ":"). split_and!; [done | by right |].
      by apply Hcolon.
    + apply (same_ignoring_case_app_inv xs (js "http") (js "s://")) in H
        as (h & t & -> & Hh & Ht).
      apply (same_ignoring_case_app_inv t (js "s") (js "://")) in Ht
        as (o & t' & -> & Ho & Ht').
      apply same_ignoring_case_symbols in Ht' as ->; [| by repeat constructor].
      apply matches_cat_cons. exists (h ++ o ++ js ":"), (js "//").
      split_and!; [by rewrite <- !app_assoc | | by apply Hslashes].
      left. apply matches_cat_cons. exists h, (o ++ js ":").
      split_and!; [done | by apply matches_lit_ci |].
      apply matches_cat_cons. exists o, (js ":").
      split_and!; [done | left; by apply matches_chr_ci | by apply Hcolon].
Qed.

(** The optional subdomains. *)
Lemma matches_subdomain pos xs rest :
  matches_at true (Opt (Grp 3 (cat [Plus not_slash; Chr (ch ".")]))) pos xs rest
  ↔ xs = [] ∨ ∃ label, label ≠ [] ∧ all not_slash label ∧ xs = label ++ js ".".
Proof.
  assert (Hdot : ∀ p t r, matches_at true (cat [Chr (ch ".")]) p t r ↔ t = js ".").
  { intros p t r. change (cat [Chr (ch ".")]) with (cat (Chr <$> js ".")).
    rewrite matches_chars_ci. split; [| by intros ->].
    apply same_ignoring_case_symbols. by repeat constructor. }
  cbn [matches_at]. split.
  - intros [H | ->]; [right | by left].
    apply matches_cat_cons in H as (l & t & -> & [Hne Hall] & ->%Hdot). by exists l.
  - intros [-> | (l & Hne & Hall & ->)]; [by right | left].
    apply matches_cat_cons. exists l, (js "."). split_and!; [done | done | by apply Hdot].
Qed.

(** The host and what follows it. *)
Lemma matches_host pos xs rest :
  matches_at true
    (cat [lit "mapbox"; Chr (ch "."); Chr (ch "c");
          Grp 4 (Alt (Chr (ch "n")) (lit "om"));
          Grp 5 (Alt (Chr (ch "/")) (Alt (Chr (ch "?")) Eos))])
    pos xs rest
  ↔ ∃ host tail,
      xs = host ++ tail
      ∧ (same_ignoring_case host (js "mapbox.cn") ∨ same_ignoring_case host (js "mapbox.com"))
      ∧ (tail = [] ∧ rest = [] ∨ tail = js "/" ∨ tail = js "?").
Proof.
  assert (Hsym : ∀ c p t r, (c < 65)%N → matches_at true (Chr c) p t r ↔ t = [c]).
  { intros c p t r Hc. rewrite matches_chr_ci. split; [| by intros ->].
    apply same_ignoring_case_symbols. by repeat constructor. }
  split.
  - intros H.
    apply matches_cat_cons in H as (m & t1 & -> & Hm%matches_lit_ci & H).
    apply matches_cat_cons in H as (d & t2 & -> & Hd%matches_chr_ci & H).
    apply matches_cat_cons in H as (c & t3 & -> & Hc%matches_chr_ci & H).
    apply matches_cat_cons in H as (tld & t4 & -> & Htld & H).
    apply matches_cat_cons in H as (tail & t5 & -> & Htail & ->).
    exists (m ++ d ++ c ++ tld), tail. rewrite app_nil_r, <- !app_assoc.
    split_and!; [done | |].
    + destruct Htld as [Hn%matches_chr_ci | Hom%matches_lit_ci]; [left | right].
      * apply (same_ignoring_case_app m _ (js "mapbox") (js ".cn")); [done |].
        apply (same_ignoring_case_app d _ (js ".") (js "cn")); [done |].
        by apply (same_ignoring_case_app c _ (js "c") (js "n")).
      * apply (same_ignoring_case_app m _ (js "mapbox") (js ".com")); [done |].
        apply (same_ignoring_case_app d _ (js ".") (js "com")); [done |].
        by apply (same_ignoring_case_app c _ (js "c") (js "om")).
    + cbn [matches_at] in Htail. rewrite app_nil_l in Htail.
      destruct Htail as [(x & -> & Hx) | [(x & -> & Hx) | [-> ->]]].
      * apply chr_eq_ci, canon_symbol in Hx as ->; [by right; left | done].
      * apply chr_eq_ci, canon_symbol in Hx as ->; [by right; right | done].
      * by left.
  - intros (host & tail & -> & Hhost & Htail).
    assert (Hsplit : ∃ m d c tld,
               host = m ++ d ++ c ++ tld
               ∧ same_ignoring_case m (js "mapbox") ∧ same_ignoring_case d (js ".")
               ∧ same_ignoring_case c (js "c")
               ∧ (same_ignoring_case tld (js "n") ∨ same_ignoring_case tld (js "om"))).
    { destruct Hhost as [H | H].
      - apply (same_ignoring_case_app_inv host (js "mapbox") (js ".cn")) in H
          as (m & t & -> & Hm & H).
        apply (same_ignoring_case_app_inv t (js ".") (js "cn")) in H
          as (d & t' & -> & Hd & H).
        apply (same_ignoring_case_app_inv t' (js "c") (js "n")) in H
          as (c & tld & -> & Hc & H).
        exists m, d, c, tld. by split_and!; [| | | | left].
      - apply (same_ignoring_case_app_inv host (js "mapbox") (js ".com")) in H
          as (m & t & -> & Hm & H).
        apply (same_ignoring_case_app_inv t (js ".") (js "com")) in H
          as (d & t' & -> & Hd & H).
        apply (same_ignoring_case_app_inv t' (js "c") (js "om")) in H
          as (c & tld & -> & Hc & H).
        exists m, d, c, tld. by split_and!; [| | | | right]. }
    destruct Hsplit as (m & d & c & tld & -> & Hm & Hd & Hc & Htld).
    rewrite <- !app_assoc.
    apply matches_cat_cons. exists m, (d ++ c ++ tld ++ tail).
    split_and!; [done | by apply matches_lit_ci |].
    apply matches_cat_cons. exists d, (c ++ tld ++ tail).
    split_and!; [done | by apply matches_chr_ci |].
    apply matches_cat_cons. exists c, (tld ++ tail).
    split_and!; [done | by apply matches_chr_ci |].
    apply matches_cat_cons. exists tld, tail. split_and!; [done | |].
    + destruct Htld as [H | H]; [left; by apply matches_chr_ci | right; by apply matches_lit_ci].
    + apply matches_cat_cons. exists tail, []. rewrite app_nil_r, app_nil_l.
      split_and!; [done | | done]. cbn [matches_at].
      destruct Htail as [[-> ->] | [-> | ->]].
      * by right; right.
      * left. by exists (ch "/").
      * right; left. by exists (ch "?").
Qed.

(** X19: which texts [isMapboxHTTPURL] accepts.  It accepts a text exactly
    when the text is made of an optional [//], [http://] or [https://], an
    optional run of characters other than [/] that ends with a dot,
    [mapbox.cn] or [mapbox.com], and then nothing, or a [/] or a [?] and
    anything; letters are compared without regard to case.  The run may hold
    any character but [/]: a [?], a [@] or a [:] do not end it. *)
Theorem isMapboxHTTPURL_accepts (url : jsstring) :
  isMapboxHTTPURL url = true ↔ mapbox_http_url url.
Proof.
  unfold isMapboxHTTPURL. rewrite test_matches.
  unfold mapboxHTTPURLRe. cbn [body ignoreCase]. split.
  - intros (p & xs & rest & -> & H).
    apply matches_cat_cons in H as (b & x1 & -> & [-> Hp] & H).
    apply nil_length_inv in Hp as ->.
    apply matches_cat_cons in H as (pre & x2 & -> & Hpre%matches_scheme & H).
    apply matches_cat_cons in H as (sub & x3 & -> & Hsub%matches_subdomain & H%matches_host).
    destruct H as (host & tail & -> & Hhost & Htail).
    exists pre, sub, host, (tail ++ rest). rewrite !app_nil_l, <- !app_assoc.
    split_and!; [done | done | done | done |].
    destruct Htail as [[-> ->] | [-> | ->]]; [by left | right; left | right; right];
      by eexists.
  - intros (pre & sub & host & rest' & -> & Hpre & Hsub & Hhost & Hrest).
    assert (Hsplit : ∃ tail rest, rest' = tail ++ rest
                                  ∧ (tail = [] ∧ rest = [] ∨ tail = js "/" ∨ tail = js "?")).
    { destruct Hrest as [-> | [[k ->] | [k ->]]].
      - exists [], []. split; [done | by left].
      - exists (js "/"), k. split; [done | by right; left].
      - exists (js "?"), k. split; [done | by right; right]. }
    destruct Hsplit as (tail & rest & -> & Htail).
    exists [], (pre ++ sub ++ host ++ tail), rest. rewrite <- !app_assoc.
    split; [done |].
    apply matches_cat_cons. exists [], (pre ++ sub ++ host ++ tail).
    split_and!; [done | done |].
    apply matches_cat_cons. exists pre, (sub ++ host ++ tail).
    split_and!; [done | by apply matches_scheme |].
    apply matches_cat_cons. exists sub, (host ++ tail).
    split_and!; [done | by apply matches_subdomain |].
    apply matches_host. by exists host, tail.
Qed.

(** A host in capitals, and a host behind a question mark. *)
Lemma isMapboxHTTPURL_accepts_witness :
  isMapboxHTTPURL (js "HTTPS://API.MAPBOX.COM/v4") = true
  ∧ isMapboxHTTPURL (js "http://example.com?.mapbox.com/") = true.
Proof.
  split; apply (proj2 (isMapboxHTTPURL_accepts _)).
  - exists (js "HTTPS://"), (js "API."), (js "MAPBOX.COM"), (js "/v4").
    split_and!; [reflexivity | by right; right; right | | by right | right; left; by eexists].
    right. exists (js "API"). by split_and!; [| repeat constructor |].
  - exists (js "http://"), (js "example.com?."), (js "mapbox.com"), (js "/").
    split_and!; [reflexivity | by right; right; left | | by right | right; left; by eexists].
    right. exists (js "example.com?"). by split_and!; [| repeat constructor |].
Defined.
